(** * PeakNorth blog automation backend: lifecycle engine

  A shallow embedding of the content lifecycle engine of the backend:
  - [InMemoryCache]    : src/utils/cache.ts
  - [Scheduler]        : the cadence scheduler (computeNextSlots, getUpcomingSlots)
  - [Js], [Blog]       : strings, src/types/blog.ts, src/middleware/errorHandler.ts
  - [Runtime]          : the document store, the cache singleton, the clock, the log
  - [BlogIdeaService], [BlogPostService] : the two services
  - [PublishRoutes]    : the batch handler and the webhook's update of src/routes/publish.ts

  Instants are integer epoch milliseconds ([Z]).  [Date.now()] is an
  explicit argument of the pure components and a field of the world
  for the services; one service call reads one clock value.  Service
  calls run one after the other, without interleaving. *)

From stdpp Require Import gmap strings list fin_maps.
From Stdlib Require Import ZArith Lia Ascii.

Open Scope Z_scope.

(* ===================================================================== *)
(** ** src/utils/cache.ts *)
(* ===================================================================== *)

Module InMemoryCache.

(** interface CacheEntry<T> *)
Record CacheEntry (T : Type) := mkEntry {
  data : T;
  expiresAt : Z;
  tags : list string;
  createdAt : Z;
}.
Arguments mkEntry {T} _ _ _ _.
Arguments data {T} _.
Arguments expiresAt {T} _.
Arguments tags {T} _.
Arguments createdAt {T} _.

(** interface CacheOptions { ttl?: number; tags?: string[] } *)
Record CacheOptions := mkOptions {
  ttl : option Z;
  opt_tags : option (list string);
}.

Definition noOptions : CacheOptions := mkOptions None None.

(** private defaultTtl = 300 *)
Definition defaultTtl : Z := 300.

(** [options.ttl || this.defaultTtl]: an absent ttl and the falsy ttl 0
    both select the default. *)
Definition effectiveTtl (options : CacheOptions) : Z :=
  match ttl options with
  | Some t => if decide (t = 0) then defaultTtl else t
  | None => defaultTtl
  end.

Section Ops.
Context {T : Type}.
Implicit Types (c : gmap string (CacheEntry T)) (key tag : string) (now : Z).

(** set<T>(key, value, options) *)
Definition set now key (value : T) (options : CacheOptions) c
  : gmap string (CacheEntry T) :=
  let ttl := effectiveTtl options in
  let tags := default [] (opt_tags options) in
  let expiresAt := now + ttl * 1000 in
  <[key := mkEntry value expiresAt tags now]> c.

(** get<T>(key).  [None] is the [null] returned for a missing or
    expired key, [Some d] the [entry.data] returned for a live entry.
    [T] may itself hold [null]: the caller cannot tell such data from a
    miss, see [gotNull]. *)
Definition get now key c : option T * gmap string (CacheEntry T) :=
  match c !! key with
  | None => (None, c)
  | Some entry =>
      if decide (now > expiresAt entry)
      then (None, delete key c)
      else (Some (data entry), c)
  end.

(** del(key) *)
Definition del key c : bool * gmap string (CacheEntry T) :=
  (bool_decide (is_Some (c !! key)), delete key c).

Definition hasTag tag (entry : CacheEntry T) : bool :=
  bool_decide (tag ∈ tags entry).

(** delByTag(tag): every entry whose tags include [tag] goes; the
    count of removed entries is returned. *)
Definition delByTag tag c : Z * gmap string (CacheEntry T) :=
  let kept := filter (λ kv, hasTag tag kv.2 = false) c in
  (Z.of_nat (size c) - Z.of_nat (size kept), kept).

(** clear() *)
Definition clear c : gmap string (CacheEntry T) := ∅.

(** has(key) *)
Definition has now key c : bool * gmap string (CacheEntry T) :=
  match c !! key with
  | None => (false, c)
  | Some entry =>
      if decide (now > expiresAt entry)
      then (false, delete key c)
      else (true, c)
  end.

(** private cleanup(), run by the interval timer *)
Definition cleanup now c : gmap string (CacheEntry T) :=
  filter (λ kv, ¬ (now > expiresAt kv.2)) c.

(** [get(key) === null] as the caller sees it: a miss, or a live entry
    whose data is [null].  [isNull] tells the [null] of [T]. *)
Definition gotNull (isNull : T → bool) (r : option T) : bool :=
  match r with
  | Some cached => isNull cached
  | None => true
  end.

(** getOrSet(key, factory, options), with a synchronous factory.  The
    test [cached !== null] fails for a miss and for cached [null] data
    alike: both consult the factory and store its value. *)
Definition getOrSet (isNull : T → bool) now key (factory : unit → T) options c
  : T * gmap string (CacheEntry T) :=
  let '(cached, c') := get now key c in
  match cached with
  | Some cached =>
      if isNull cached
      then let value := factory tt in (value, set now key value options c')
      else (cached, c')
  | None => let value := factory tt in (value, set now key value options c')
  end.
End Ops.

(** The names a fresh object inherits from Object.prototype: reading
    one of them on [tagCounts = {}] yields the inherited member, not
    [undefined]. *)
Definition objectPrototypeMembers : list string :=
  [ "constructor"; "__defineGetter__"; "__defineSetter__"; "hasOwnProperty";
    "__lookupGetter__"; "__lookupSetter__"; "isPrototypeOf"; "propertyIsEnumerable";
    "toString"; "valueOf"; "__proto__"; "toLocaleString" ].

(** What a key of [tagCounts] holds: a count, or, for a tag that names a
    member of Object.prototype, the string that [member + 1] builds (its
    text is not modelled). *)
Inductive TagCount :=
  | Count (n : Z)
  | MemberText.

(** The object getStats() returns.  [memoryUsage], a reading of the
    process, is not part of the model. *)
Record CacheStats := mkStats {
  totalEntries : Z;
  expiredEntries : Z;
  activeEntries : Z;
  tagCounts : gmap string TagCount;
}.

(** [tagCounts[tag] = (tagCounts[tag] || 0) + 1] on the plain object
    [tagCounts].  An own key is read first: a count goes up by one, a
    string stays a string.  With no own key, a name of Object.prototype
    reads as the inherited member, which is truthy, and the sum is a
    string; any other name reads as [undefined] and the sum is 1.  The
    assignment to [__proto__] is the inherited setter, which ignores a
    string, so that tag never becomes a key. *)
Definition countTag (tagCounts : gmap string TagCount) (tag : string)
  : gmap string TagCount :=
  if bool_decide (tag = "__proto__") then tagCounts
  else
    match tagCounts !! tag with
    | Some (Count n) => <[tag := Count (n + 1)]> tagCounts
    | Some MemberText => <[tag := MemberText]> tagCounts
    | None =>
        if bool_decide (tag ∈ objectPrototypeMembers)
        then <[tag := MemberText]> tagCounts
        else <[tag := Count 1]> tagCounts
    end.

(** The count read off [tagCounts] for a tag, 0 when it holds none. *)
Definition countOf (tagCounts : gmap string TagCount) (tag : string) : Z :=
  match tagCounts !! tag with
  | Some (Count n) => n
  | _ => 0
  end.

Section Stats.
Context {T : Type}.
Implicit Types (c : gmap string (CacheEntry T)) (now : Z).

(** The body of the loop of getStats: one entry of the map *)
Definition statsStep now (acc : Z * Z * gmap string TagCount) (kv : string * CacheEntry T)
  : Z * Z * gmap string TagCount :=
  let '(totalSize, expiredCount, tagCounts) := acc in
  (totalSize + 1,
   if decide (now > expiresAt kv.2) then expiredCount + 1 else expiredCount,
   foldl countTag tagCounts (tags kv.2)).

(** getStats() *)
Definition getStats now c : CacheStats :=
  let '(totalSize, expiredCount, tagCounts) :=
    foldl (statsStep now) (0, 0, ∅) (map_to_list c) in
  mkStats totalSize expiredCount (totalSize - expiredCount) tagCounts.
End Stats.

End InMemoryCache.


(* ===================================================================== *)
(** ** The cadence scheduler (computeNextSlots, getUpcomingSlots) *)
(* ===================================================================== *)

Module Scheduler.

(** A zone of the model is a named fixed offset from UTC, in minutes
    ("UTC", "UTC+5:30", ...): [zoneName] is a name the runtime resolves
    and [offsetMinutes] the offset it resolves to.  For such a zone
    Luxon's calendar arithmetic is exact arithmetic on epoch
    milliseconds.  Zones whose offset varies (daylight saving) and names
    the runtime cannot resolve (for which the DateTime is invalid) are
    outside the model. *)
Record Zone := mkZone {
  zoneName : string;
  offsetMinutes : Z;
}.

Definition utc : Zone := mkZone "UTC" 0.

(** interface CadenceConfig *)
Record CadenceConfig := mkCadence {
  intervalDays : Z;
  publishHour : Z;
  timezone : Zone;
  draftLeadHours : Z;
  reminderHours : option Z;
}.

(** interface ScheduleSlots *)
Record ScheduleSlots := mkSlots {
  scheduledAt : Z;
  createAt : Z;
}.

(** The elements of the array returned by getUpcomingSlots. *)
Record UpcomingSlot := mkUpcoming {
  up_publishAt : Z;
  up_createAt : Z;
}.

Definition msPerMinute : Z := 60 * 1000.
Definition msPerHour : Z := 60 * 60 * 1000.
Definition msPerDay : Z := 24 * 60 * 60 * 1000.

(** Wall-clock milliseconds of instant [t] in zone [z]. *)
Definition localMillis (z : Zone) (t : Z) : Z := t + offsetMinutes z * msPerMinute.

(** The wall-clock time of day of an instant. *)
Definition timeOfDay (z : Zone) (t : Z) : Z := localMillis z t `mod` msPerDay.

(** DateTime.startOf('day') *)
Definition startOfDay (z : Zone) (t : Z) : Z := t - localMillis z t `mod` msPerDay.

(** DateTime.set({ hour }): the hour of the day is replaced, minutes,
    seconds and milliseconds are kept. *)
Definition setHour (z : Zone) (t : Z) (hour : Z) : Z :=
  let current := (localMillis z t `mod` msPerDay) `div` msPerHour in
  t + (hour - current) * msPerHour.

(** DateTime.plus({ days }) and DateTime.minus({ hours }) *)
Definition plusDays (t days : Z) : Z := t + days * msPerDay.
Definition minusHours (t hours : Z) : Z := t - hours * msPerHour.

(** computeNextSlots(nowISO, config); [now] is the instant [nowISO]
    denotes.  [Math.floor(toSeconds() / 86400)] is the floored quotient
    by a day, [%] is the truncating remainder. *)
Definition computeNextSlots (now : Z) (config : CadenceConfig) : ScheduleSlots :=
  let zone := timezone config in
  let nextPublish := setHour zone (startOfDay zone now) (publishHour config) in
  let nextPublish :=
    if decide (nextPublish <= now)
    then plusDays nextPublish (intervalDays config)
    else nextPublish in
  let daysSinceEpoch := nextPublish `div` msPerDay in
  let intervalOffset := daysSinceEpoch `rem` (intervalDays config) in
  let nextPublish :=
    if decide (intervalOffset ≠ 0)
    then plusDays nextPublish (intervalDays config - intervalOffset)
    else nextPublish in
  let createAt := minusHours nextPublish (draftLeadHours config) in
  mkSlots nextPublish createAt.

(** shouldCreateDraft(config), at instant [now].  In a zone of the model
    [now.toISO()] is a string, so the [throw] guarded by [!nowIso] is
    not reached. *)
Definition shouldCreateDraft (now : Z) (config : CadenceConfig) : bool :=
  bool_decide (now >= createAt (computeNextSlots now config)).

(** The loop of getUpcomingSlots: [n] iterations left, [currentSlot] the
    slot to push next.  [DateTime.fromMillis(...).plus({ days })] adds
    calendar days in the zone of the server, taken to have a fixed
    offset like the zones of the model: a day is 24 hours, and
    [nextTime.toISO()] is a string. *)
Fixpoint upcomingLoop (config : CadenceConfig) (n : nat) (currentSlot : ScheduleSlots)
  : list UpcomingSlot :=
  match n with
  | O => []
  | S n' =>
      let nextTime := plusDays (scheduledAt currentSlot) (intervalDays config) in
      mkUpcoming (scheduledAt currentSlot) (createAt currentSlot)
        :: upcomingLoop config n' (computeNextSlots nextTime config)
  end.

(** getUpcomingSlots(config, count = 5), called at instant [now] *)
Definition getUpcomingSlots (now : Z) (config : CadenceConfig) (count : option Z)
  : list UpcomingSlot :=
  let count := default 5 count in
  upcomingLoop config (Z.to_nat count) (computeNextSlots now config).

(** Partial<CadenceConfig>, the argument of validateCadenceConfig *)
Record PartialCadenceConfig := mkPartial {
  p_intervalDays : option Z;
  p_publishHour : option Z;
  p_timezone : option string;
  p_draftLeadHours : option Z;
}.

(** [!x || x < 1] on an optional number *)
Definition missingOrBelowOne (x : option Z) : bool :=
  match x with
  | None => true
  | Some v => bool_decide (v = 0) || bool_decide (v < 1)
  end.

(** validateCadenceConfig(config): all violations, in source order.  A
    non-empty zone name is handed to [setZone], which does not throw. *)
Definition validateCadenceConfig (config : PartialCadenceConfig) : list string :=
  (if missingOrBelowOne (p_intervalDays config)
   then ["Interval days must be at least 1"] else [])
  ++ (match p_publishHour config with
      | None => ["Publish hour must be between 0 and 23"]
      | Some h => if bool_decide (h < 0) || bool_decide (h > 23)
                  then ["Publish hour must be between 0 and 23"] else []
      end)
  ++ (match p_timezone config with
      | None => ["Timezone is required"]
      | Some name => if bool_decide (name = "") then ["Timezone is required"] else []
      end)
  ++ (if missingOrBelowOne (p_draftLeadHours config)
      then ["Draft lead hours must be at least 1"] else []).

Definition toPartial (config : CadenceConfig) : PartialCadenceConfig :=
  mkPartial (Some (intervalDays config)) (Some (publishHour config))
            (Some (zoneName (timezone config))) (Some (draftLeadHours config)).

(** A valid cadence configuration is one validateCadenceConfig accepts. *)
Definition validConfig (config : CadenceConfig) : Prop :=
  validateCadenceConfig (toPartial config) = [].

(** interface TimeUntilPublish *)
Record TimeUntilPublish := mkTimeUntil {
  days : Z;
  hours : Z;
  minutes : Z;
  isPast : bool;
}.

(** isScheduledTimePassed(scheduledAt), at instant [now] *)
Definition isScheduledTimePassed (now : Z) (scheduledAt : Z) : bool :=
  bool_decide (now >= scheduledAt).

(** getTimeUntilPublish(scheduledAt), at instant [now]; [Math.floor] of
    a quotient is the floored quotient, [%] the truncating remainder. *)
Definition getTimeUntilPublish (now : Z) (scheduledAt : Z) : TimeUntilPublish :=
  let diffMs := scheduledAt - now in
  if decide (diffMs <= 0) then mkTimeUntil 0 0 0 true
  else
    let days := diffMs `div` (24 * 60 * 60 * 1000) in
    let hours := (diffMs `rem` (24 * 60 * 60 * 1000)) `div` (60 * 60 * 1000) in
    let minutes := (diffMs `rem` (60 * 60 * 1000)) `div` (60 * 1000) in
    mkTimeUntil days hours minutes false.

End Scheduler.

(* ===================================================================== *)
(** ** JavaScript strings (the part the services use) *)
(* ===================================================================== *)

Module Js.

Definition isSpace (a : ascii) : bool :=
  let n := nat_of_ascii a in
  bool_decide (n = 32%nat) || (bool_decide (9 ≤ n)%nat && bool_decide (n ≤ 13)%nat).

Fixpoint trimStart (s : string) : string :=
  match s with
  | String a s' => if isSpace a then trimStart s' else s
  | EmptyString => EmptyString
  end.

Fixpoint trimEnd (s : string) : string :=
  match s with
  | String a s' =>
      match trimEnd s' with
      | EmptyString => if isSpace a then EmptyString else String a EmptyString
      | rest => String a rest
      end
  | EmptyString => EmptyString
  end.

(** String.prototype.trim, on the ASCII white space characters *)
Definition trim (s : string) : string := trimEnd (trimStart s).

Definition lowerChar (a : ascii) : ascii :=
  let n := nat_of_ascii a in
  if bool_decide (65 ≤ n)%nat && bool_decide (n ≤ 90)%nat
  then ascii_of_nat (n + 32) else a.

(** String.prototype.toLowerCase, on the ASCII letters *)
Fixpoint toLowerCase (s : string) : string :=
  match s with
  | String a s' => String (lowerChar a) (toLowerCase s')
  | EmptyString => EmptyString
  end.

(** String.prototype.includes *)
Fixpoint includes (haystack needle : string) : bool :=
  String.prefix needle haystack
  || match haystack with
     | String _ rest => includes rest needle
     | EmptyString => false
     end.

Definition quote : string := String (ascii_of_nat 34) EmptyString.
Definition backslash : string := String (ascii_of_nat 92) EmptyString.

Fixpoint escape (s : string) : string :=
  match s with
  | String a s' =>
      (if bool_decide (nat_of_ascii a = 34%nat) then backslash +:+ quote
       else if bool_decide (nat_of_ascii a = 92%nat) then backslash +:+ backslash
       else String a EmptyString) +:+ escape s'
  | EmptyString => EmptyString
  end.

(** JSON.stringify of a string (quotes and backslashes escaped) *)
Definition jsonString (s : string) : string := quote +:+ escape s +:+ quote.

Fixpoint joinWith (sep : string) (l : list string) : string :=
  match l with
  | [] => EmptyString
  | [x] => x
  | x :: rest => x +:+ sep +:+ joinWith sep rest
  end.

Definition jsonArray (items : list string) : string :=
  "[" +:+ joinWith "," items +:+ "]".

Definition jsonObject (fields : list (string * string)) : string :=
  "{" +:+ joinWith "," (map (λ kv, jsonString kv.1 +:+ ":" +:+ kv.2) fields) +:+ "}".

(** [x || undefined] on an optional string: the empty string is falsy *)
Definition truthyString (s : option string) : option string :=
  match s with
  | Some EmptyString => None
  | other => other
  end.

End Js.

(* ===================================================================== *)
(** ** src/types/blog.ts *)
(* ===================================================================== *)

Module Blog.

Inductive PostStatus :=
  BRIEF | OUTLINE | DRAFT | NEEDS_REVIEW | APPROVED | SCHEDULED | PUBLISHED | REGENRATE.

Inductive IdeaStatus := UNUSED | PROCESSING | USED.
Inductive Priority := low | medium | high.
Inductive Difficulty := beginner | intermediate | advanced.

#[global] Instance PostStatus_eq_dec : EqDecision PostStatus.
Proof. solve_decision. Defined.
#[global] Instance IdeaStatus_eq_dec : EqDecision IdeaStatus.
Proof. solve_decision. Defined.
#[global] Instance Priority_eq_dec : EqDecision Priority.
Proof. solve_decision. Defined.
#[global] Instance Difficulty_eq_dec : EqDecision Difficulty.
Proof. solve_decision. Defined.

Definition postStatusName (s : PostStatus) : string :=
  match s with
  | BRIEF => "BRIEF" | OUTLINE => "OUTLINE" | DRAFT => "DRAFT"
  | NEEDS_REVIEW => "NEEDS_REVIEW" | APPROVED => "APPROVED"
  | SCHEDULED => "SCHEDULED" | PUBLISHED => "PUBLISHED" | REGENRATE => "REGENRATE"
  end.

Definition ideaStatusName (s : IdeaStatus) : string :=
  match s with UNUSED => "UNUSED" | PROCESSING => "PROCESSING" | USED => "USED" end.

Definition priorityName (p : Priority) : string :=
  match p with low => "low" | medium => "medium" | high => "high" end.

(** A JavaScript number holding a time: [getTime()] of an invalid Date is NaN. *)
Inductive Millis := NaN | Ms (t : Z).

Module PostBrief.
Record t := mk {
  topic : string;
  persona : string;
  goal : string;
  targetAudience : option (list string);
  keyPoints : option (list string);
}.
End PostBrief.

Module OutlineSection.
Record t := mk {
  heading : string;
  subPoints : list string;
  keywords : list string;
}.
End OutlineSection.

Module PostOutline.
Record t := mk {
  title : string;
  introduction : string;
  sections : list OutlineSection.t;
  conclusion : string;
  callToAction : option string;
}.
End PostOutline.

Module PostSEO.
Record t := mk {
  metaTitle : string;
  metaDescription : string;
  focusKeyword : string;
  keywords : list string;
  slug : string;
}.
End PostSEO.

Module BlogImage.
Record t := mk {
  url : string;
  storagePath : string;
  filename : string;
  size : Z;
  alt : option string;
  caption : option string;
  width : option Z;
  height : option Z;
}.
End BlogImage.

Module PostDraft.
Record t := mk {
  mdx : string;
  wordCount : Z;
  estimatedReadTime : Z;
}.
End PostDraft.

(** interface BlogPost.  Optional members are [option]s; [null] and an
    absent member are both [None]. *)
Module BlogPost.
Record t := mk {
  id : string;
  status : PostStatus;
  scheduledAt : option Millis;
  publishedAt : option Z;
  createdAt : Z;
  updatedAt : Z;
  ideaId : string;
  brief : option PostBrief.t;
  outline : option PostOutline.t;
  draft : option PostDraft.t;
  seo : option PostSEO.t;
  featuredImage : option BlogImage.t;
  images : option (list BlogImage.t);
  tags : option (list string);
  category : option string;
  publicUrl : option string;
  htmlContent : option string;
  errorMessage : option string;
}.
(** [{ ...doc.data(), id: doc.id }] *)
Definition withId (docId : string) (p : t) : t :=
  mk docId (status p) (scheduledAt p) (publishedAt p) (createdAt p) (updatedAt p)
     (ideaId p) (brief p) (outline p) (draft p) (seo p) (featuredImage p) (images p)
     (tags p) (category p) (publicUrl p) (htmlContent p) (errorMessage p).
End BlogPost.

(** interface BlogIdea, with the members updateIdea and resetIdea add to
    a stored idea ([updatedAt], [used], [isBriefCreated], ...). *)
Module BlogIdea.
Record t := mk {
  id : string;
  status : IdeaStatus;
  topic : string;
  persona : string;
  goal : string;
  targetAudience : option string;
  priority : Priority;
  difficulty : option Difficulty;
  createdAt : Z;
  tags : option (list string);
  notes : option string;
  updatedAt : option Z;
  used : option bool;
  isBriefCreated : option bool;
  isApproved : option bool;
  isPublished : option bool;
}.
(** [{ ...doc.data(), id: doc.id }] *)
Definition withId (docId : string) (i : t) : t :=
  mk docId (status i) (topic i) (persona i) (goal i) (targetAudience i) (priority i)
     (difficulty i) (createdAt i) (tags i) (notes i) (updatedAt i) (used i)
     (isBriefCreated i) (isApproved i) (isPublished i).
Definition withStatus (s : IdeaStatus) (i : t) : t :=
  mk (id i) s (topic i) (persona i) (goal i) (targetAudience i) (priority i)
     (difficulty i) (createdAt i) (tags i) (notes i) (updatedAt i) (used i)
     (isBriefCreated i) (isApproved i) (isPublished i).
End BlogIdea.

(** interface CreatePostRequest.  The body the route hands over has been
    through createPostSchema and so also carries a [status]. *)
Module CreatePostRequest.
Record t := mk {
  status : option PostStatus;
  brief : option PostBrief.t;
  outline : option PostOutline.t;
  draft : option PostDraft.t;
  scheduledAt : option Z;
  tags : option (list string);
  category : option string;
  ideaId : option string;
  seo : option PostSEO.t;
  featuredImage : option BlogImage.t;
  images : option (list BlogImage.t);
  publicUrl : option string;
  errorMessage : option string;
}.
End CreatePostRequest.

(** interface UpdatePostRequest, and the [updateData: any] objects that
    updatePostStatus and the publish webhook pass to updatePost, which
    may also carry [publishedAt].  [scheduledAt] is already a number.
    The model follows the declared interface: what only the schema of
    the PUT route lets through besides ([htmlContent], [reviewNotes], a
    [null] featuredImage) is outside it. *)
Module UpdatePostRequest.
Record t := mk {
  status : option PostStatus;
  brief : option PostBrief.t;
  outline : option PostOutline.t;
  draft : option PostDraft.t;
  seo : option PostSEO.t;
  featuredImage : option BlogImage.t;
  images : option (list BlogImage.t);
  scheduledAt : option Millis;
  tags : option (list string);
  category : option string;
  ideaId : option string;
  publicUrl : option string;
  errorMessage : option string;
  publishedAt : option Z;
}.
Definition empty : t :=
  mk None None None None None None None None None None None None None None.
End UpdatePostRequest.

(** The [scheduledAt] member of a status request: absent, [null], or a Date. *)
Inductive MaybeDate := Undefined | Null | Date (t : Z).

(** interface UpdatePostStatusRequest *)
Module UpdatePostStatusRequest.
Record t := mk {
  status : PostStatus;
  scheduledAt : MaybeDate;
  errorMessage : option string;
}.
End UpdatePostStatusRequest.

(** interface CreateIdeaRequest *)
Module CreateIdeaRequest.
Record t := mk {
  status : IdeaStatus;
  topic : string;
  persona : string;
  goal : string;
  targetAudience : option string;
  priority : Priority;
  difficulty : option Difficulty;
  tags : option (list string);
  notes : option string;
}.
End CreateIdeaRequest.

(** interface UpdateIdeaRequest *)
Module UpdateIdeaRequest.
Record t := mk {
  topic : option string;
  persona : option string;
  goal : option string;
  targetAudience : option string;
  priority : option Priority;
  difficulty : option Difficulty;
  tags : option (list string);
  notes : option string;
  status : option IdeaStatus;
  isBriefCreated : option bool;
  isApproved : option bool;
  isPublished : option bool;
}.
Definition empty : t :=
  mk None None None None None None None None None None None None.
End UpdateIdeaRequest.

(** The filters argument of BlogIdeaService.getAllIdeas *)
Module IdeaFilters.
Record t := mk {
  status : option IdeaStatus;
  priority : option (list Priority);
  tags : option (list string);
  search : option string;
}.
End IdeaFilters.

(** src/middleware/errorHandler.ts: the AppError subclasses, and the
    rejection of the document store when a missing document is updated. *)
Inductive Error :=
  | ValidationError (message : string)
  | NotFoundError (resource : string)
  | UnauthorizedError (message : string)
  | ForbiddenError (message : string)
  | ConflictError (message : string)
  | RateLimitError (message : string)
  | FirestoreError (message : string).

Definition errorMessage (e : Error) : string :=
  match e with
  | NotFoundError resource => resource +:+ " not found"
  | ValidationError m | UnauthorizedError m | ForbiddenError m
  | ConflictError m | RateLimitError m | FirestoreError m => m
  end.


Definition statusCode (e : Error) : Z :=
  match e with
  | ValidationError _ => 400
  | NotFoundError _ => 404
  | UnauthorizedError _ => 401
  | ForbiddenError _ => 403
  | ConflictError _ => 409
  | RateLimitError _ => 429
  | FirestoreError _ => 500
  end.

End Blog.

(* ===================================================================== *)
(** ** The world the services run in *)
(* ===================================================================== *)

Module Runtime.
Import Blog.

(** What the services put into the cache. *)
Inductive CacheValue :=
  | VPost (post : BlogPost.t)
  | VIdea (idea : BlogIdea.t)
  | VIdeas (ideas : list BlogIdea.t).

Inductive LogLevel := LogInfo | LogWarn | LogError.

(** A line written through the logger (the message, without metadata). *)
Record LogEntry := mkLog {
  level : LogLevel;
  text : string;
}.

(** The two Firestore collections, the process-wide cache, the clock
    read by [Date.now()], the values [randomUUID()] will return, the log
    (newest line first) and the posts handed to the regenerate webhook. *)
Record World := mkWorld {
  posts : gmap string BlogPost.t;
  ideas : gmap string BlogIdea.t;
  cache : gmap string (InMemoryCache.CacheEntry CacheValue);
  clock : Z;
  uuidSource : nat → string;
  uuidCount : nat;
  logs : list LogEntry;
  webhooks : list BlogPost.t;
}.

Definition withPosts (f : gmap string BlogPost.t → gmap string BlogPost.t) (w : World) : World :=
  mkWorld (f (posts w)) (ideas w) (cache w) (clock w) (uuidSource w) (uuidCount w)
          (logs w) (webhooks w).

Definition withIdeas (f : gmap string BlogIdea.t → gmap string BlogIdea.t) (w : World) : World :=
  mkWorld (posts w) (f (ideas w)) (cache w) (clock w) (uuidSource w) (uuidCount w)
          (logs w) (webhooks w).

Definition withCache (c : gmap string (InMemoryCache.CacheEntry CacheValue)) (w : World) : World :=
  mkWorld (posts w) (ideas w) c (clock w) (uuidSource w) (uuidCount w)
          (logs w) (webhooks w).

Definition withLog (entry : LogEntry) (w : World) : World :=
  mkWorld (posts w) (ideas w) (cache w) (clock w) (uuidSource w) (uuidCount w)
          (entry :: logs w) (webhooks w).

Definition withWebhook (post : BlogPost.t) (w : World) : World :=
  mkWorld (posts w) (ideas w) (cache w) (clock w) (uuidSource w) (uuidCount w)
          (logs w) (post :: webhooks w).

(** Time passing between two requests. *)
Definition atTime (now : Z) (w : World) : World :=
  mkWorld (posts w) (ideas w) (cache w) now (uuidSource w) (uuidCount w)
          (logs w) (webhooks w).

(** An asynchronous service method: it runs in a world and either
    throws or returns; the effects made before a throw stay. *)
Definition M (A : Type) : Type := World → (Error + A) * World.

Definition ret {A} (a : A) : M A := λ w, (inr a, w).
Definition throw {A} (e : Error) : M A := λ w, (inl e, w).

Definition bind {A B} (m : M A) (k : A → M B) : M B :=
  λ w, match m w with
       | (inr a, w') => k a w'
       | (inl e, w') => (inl e, w')
       end.

(** try { m } catch (error) { handler } *)
Definition tryCatch {A} (m : M A) (handler : Error → M A) : M A :=
  λ w, match m w with
       | (inl e, w') => handler e w'
       | (inr a, w') => (inr a, w')
       end.

Notation "'let*' x ':=' m 'in' k" := (bind m (λ x, k))
  (at level 10, x name, m at level 100, k at level 200).

Definition dateNow : M Z := λ w, (inr (clock w), w).

Definition randomUUID : M string :=
  λ w, (inr (uuidSource w (uuidCount w)),
        mkWorld (posts w) (ideas w) (cache w) (clock w) (uuidSource w)
                (S (uuidCount w)) (logs w) (webhooks w)).

Definition logger (lvl : LogLevel) (message : string) : M unit :=
  λ w, (inr tt, withLog (mkLog lvl message) w).

(** try { m } catch (error) { logger.error(message, error); throw error } *)
Definition tryLog {A} (message : string) (m : M A) : M A :=
  tryCatch m (λ e, let* _ := logger LogError message in throw e).

(** triggerRegenerateWebhook(post), not awaited *)
Definition triggerRegenerateWebhook (post : BlogPost.t) : M unit :=
  λ w, (inr tt, withWebhook post w).

(** *** The document store *)

Definition getPostDoc (postId : string) : M (option BlogPost.t) :=
  λ w, (inr (posts w !! postId), w).

Definition setPostDoc (post : BlogPost.t) : M unit :=
  λ w, (inr tt, withPosts (insert (BlogPost.id post) post) w).

(** DocumentReference.update: rejected when the document is missing *)
Definition updatePostDoc (postId : string) (f : BlogPost.t → BlogPost.t) : M unit :=
  λ w, match posts w !! postId with
       | Some post => (inr tt, withPosts (insert postId (f post)) w)
       | None => (inl (FirestoreError "NOT_FOUND: No document to update"), w)
       end.

Definition deletePostDoc (postId : string) : M unit :=
  λ w, (inr tt, withPosts (delete postId) w).

Definition getIdeaDoc (ideaId : string) : M (option BlogIdea.t) :=
  λ w, (inr (ideas w !! ideaId), w).

Definition setIdeaDoc (idea : BlogIdea.t) : M unit :=
  λ w, (inr tt, withIdeas (insert (BlogIdea.id idea) idea) w).

Definition updateIdeaDoc (ideaId : string) (f : BlogIdea.t → BlogIdea.t) : M unit :=
  λ w, match ideas w !! ideaId with
       | Some idea => (inr tt, withIdeas (insert ideaId (f idea)) w)
       | None => (inl (FirestoreError "NOT_FOUND: No document to update"), w)
       end.

Definition deleteIdeaDoc (ideaId : string) : M unit :=
  λ w, (inr tt, withIdeas (delete ideaId) w).

(** Array.prototype.sort with a comparator: a stable sort; [x] goes
    before [y] when the comparator is negative, and equal elements keep
    their order. *)
Fixpoint insertSorted {A} (cmp : A → A → Z) (x : A) (l : list A) : list A :=
  match l with
  | [] => [x]
  | y :: rest => if decide (cmp x y <= 0) then x :: y :: rest
                 else y :: insertSorted cmp x rest
  end.

Fixpoint sort {A} (cmp : A → A → Z) (l : list A) : list A :=
  match l with
  | [] => []
  | x :: rest => insertSorted cmp x (sort cmp rest)
  end.

(** collection('ideas').orderBy('createdAt', 'desc').get(), each
    document read as [{ ...doc.data(), id: doc.id }] *)
Definition queryIdeasNewestFirst : M (list BlogIdea.t) :=
  λ w, (inr (sort (λ a b, BlogIdea.createdAt b - BlogIdea.createdAt a)
                  (map (λ kv, BlogIdea.withId kv.1 kv.2) (map_to_list (ideas w)))), w).

(** *** The cache singleton *)

Definition cacheGet (key : string) : M (option CacheValue) :=
  λ w, let r := InMemoryCache.get (clock w) key (cache w) in
       (inr r.1, withCache r.2 w).

Definition cacheSet (key : string) (value : CacheValue)
    (options : InMemoryCache.CacheOptions) : M unit :=
  λ w, (inr tt, withCache (InMemoryCache.set (clock w) key value options (cache w)) w).

Definition cacheDel (key : string) : M bool :=
  λ w, let r := InMemoryCache.del key (cache w) in (inr r.1, withCache r.2 w).

Definition cacheDelByTag (tag : string) : M Z :=
  λ w, let r := InMemoryCache.delByTag tag (cache w) in (inr r.1, withCache r.2 w).

(** An array held by the cache and sorted in place by its reader: the
    entry, if there, now holds the sorted array. *)
Definition cacheMutate (key : string) (value : CacheValue) : M unit :=
  λ w, (inr tt,
        withCache (alter (λ e, InMemoryCache.mkEntry value (InMemoryCache.expiresAt e)
                                 (InMemoryCache.tags e) (InMemoryCache.createdAt e))
                         key (cache w)) w).

End Runtime.

(* ===================================================================== *)
(** ** BlogIdeaService *)
(* ===================================================================== *)

Module BlogIdeaService.
Import Blog Runtime.

Definition COLLECTION : string := "ideas".
Definition CACHE_TTL : Z := 300.

Definition ideasCacheOptions : InMemoryCache.CacheOptions :=
  InMemoryCache.mkOptions (Some CACHE_TTL) (Some ["ideas"]).

Definition cleanTag (tag : string) : string := Js.toLowerCase (Js.trim tag).

(** [if (updates.x) updateData.x = updates.x.trim()] *)
Definition cleanString (s : string) : string :=
  if bool_decide (s = "") then s else Js.trim s.

(** createIdea(ideaData) *)
Definition createIdea (ideaData : CreateIdeaRequest.t) : M BlogIdea.t :=
  tryLog "Failed to create blog idea:" (
    let* id := randomUUID in
    let* now := dateNow in
    let idea := BlogIdea.mk
      id
      (CreateIdeaRequest.status ideaData)
      (Js.trim (CreateIdeaRequest.topic ideaData))
      (Js.trim (CreateIdeaRequest.persona ideaData))
      (Js.trim (CreateIdeaRequest.goal ideaData))
      (Some (default "" (Js.truthyString
                           (Js.trim <$> CreateIdeaRequest.targetAudience ideaData))))
      (CreateIdeaRequest.priority ideaData)
      (CreateIdeaRequest.difficulty ideaData)
      now
      (Some (default [] (map cleanTag <$> CreateIdeaRequest.tags ideaData)))
      (Js.truthyString (Js.trim <$> CreateIdeaRequest.notes ideaData))
      None None None None None in
    let* _ := setIdeaDoc idea in
    let* _ := cacheDelByTag "ideas" in
    let* _ := logger LogInfo "Blog idea created" in
    ret idea).

(** JSON.stringify(filters || {}), members in the order of the parameter type *)
Definition stringifyFilters (filters : option IdeaFilters.t) : string :=
  match filters with
  | None => Js.jsonObject []
  | Some f =>
      Js.jsonObject (
        (match IdeaFilters.status f with
         | Some s => [("status", Js.jsonString (ideaStatusName s))] | None => [] end)
        ++ (match IdeaFilters.priority f with
            | Some ps => [("priority", Js.jsonArray (map (λ p, Js.jsonString (priorityName p)) ps))]
            | None => [] end)
        ++ (match IdeaFilters.tags f with
            | Some ts => [("tags", Js.jsonArray (map Js.jsonString ts))] | None => [] end)
        ++ (match IdeaFilters.search f with
            | Some s => [("search", Js.jsonString s)] | None => [] end))
  end.

Definition allIdeasKey (filters : option IdeaFilters.t) : string :=
  "ideas:all:" +:+ stringifyFilters filters.

Definition matchesPriority (filters : option IdeaFilters.t) (idea : BlogIdea.t) : bool :=
  match filters ≫= IdeaFilters.priority with
  | Some (p :: ps) => bool_decide (BlogIdea.priority idea ∈ p :: ps)
  | _ => true
  end.

Definition matchesTags (filters : option IdeaFilters.t) (idea : BlogIdea.t) : bool :=
  match filters ≫= IdeaFilters.tags with
  | Some (t :: ts) =>
      match BlogIdea.tags idea with
      | Some tags => existsb (λ tag, bool_decide (Js.toLowerCase tag ∈ t :: ts)) tags
      | None => false
      end
  | _ => true
  end.

Definition matchesSearch (filters : option IdeaFilters.t) (idea : BlogIdea.t) : bool :=
  match Js.truthyString (filters ≫= IdeaFilters.search) with
  | Some search =>
      let searchLower := Js.toLowerCase search in
      Js.includes (Js.toLowerCase (BlogIdea.topic idea)) searchLower
      || Js.includes (Js.toLowerCase (BlogIdea.goal idea)) searchLower
      || Js.includes (Js.toLowerCase (BlogIdea.persona idea)) searchLower
  | None => true
  end.

(** getAllIdeas(filters).  The query is the whole collection, newest
    first; [filters.status] enters the cache key and nothing else.  A
    cached value of another shape cannot sit under this key and is read
    as a miss. *)
Definition getAllIdeas (filters : option IdeaFilters.t) : M (list BlogIdea.t) :=
  tryLog "Failed to get ideas:" (
    let cacheKey := allIdeasKey filters in
    let* cached := cacheGet cacheKey in
    match cached with
    | Some (VIdeas ideas) => ret ideas
    | _ =>
        let* ideas := queryIdeasNewestFirst in
        let ideas := List.filter (matchesPriority filters) ideas in
        let ideas := List.filter (matchesTags filters) ideas in
        let ideas := List.filter (matchesSearch filters) ideas in
        let* _ := cacheSet cacheKey (VIdeas ideas) ideasCacheOptions in
        ret ideas
    end).

Definition unusedFilter : option IdeaFilters.t :=
  Some (IdeaFilters.mk (Some UNUSED) None None None).

(** getUnusedIdeas() *)
Definition getUnusedIdeas : M (list BlogIdea.t) := getAllIdeas unusedFilter.

(** updateIdeaStatus(ideaId, status) *)
Definition updateIdeaStatus (ideaId : string) (status : IdeaStatus) : M unit :=
  tryLog "Failed to update idea status:" (
    updateIdeaDoc ideaId (BlogIdea.withStatus status)).

Definition priorityOrder (p : Priority) : Z :=
  match p with high => 3 | medium => 2 | low => 1 end.

(** The comparator of pickNextIdea.  On equal priority it answers
    [a.createdAt?.getTime?.() - b.createdAt?.getTime?.()].  The ideas
    it is given were read from the store, where [createdAt] is a
    Firestore Timestamp, which has no [getTime]: both calls give
    [undefined], the difference is NaN, and the sort takes NaN as 0, so
    that ideas of equal priority keep the order of the query. *)
Definition comparePick (a b : BlogIdea.t) : Z :=
  let priorityDiff := priorityOrder (BlogIdea.priority b) - priorityOrder (BlogIdea.priority a) in
  if decide (priorityDiff ≠ 0) then priorityDiff
  else 0.

(** pickNextIdea().  The array sorted in place is the one the cache holds. *)
Definition pickNextIdea : M (option BlogIdea.t) :=
  tryLog "Failed to pick next idea:" (
    let* unusedIdeas := getUnusedIdeas in
    match unusedIdeas with
    | [] =>
        let* _ := logger LogWarn "No unused ideas available for picking" in
        ret None
    | _ :: _ =>
        let unusedIdeas := sort comparePick unusedIdeas in
        let* _ := cacheMutate (allIdeasKey unusedFilter) (VIdeas unusedIdeas) in
        match unusedIdeas with
        | [] => ret None
        | selectedIdea :: _ =>
            let* _ := updateIdeaStatus (BlogIdea.id selectedIdea) PROCESSING in
            let* _ := logger LogInfo "Idea picked for content creation" in
            ret (Some selectedIdea)
        end
    end).

(** markIdeaAsUsed(ideaId) *)
Definition markIdeaAsUsed (ideaId : string) : M unit :=
  tryLog "Failed to mark idea as used:" (
    let* ideaDoc := getIdeaDoc ideaId in
    match ideaDoc with
    | None => throw (NotFoundError "Idea")
    | Some ideaData =>
        match BlogIdea.status ideaData with
        | USED => throw (ValidationError "Idea is already used")
        | PROCESSING => throw (ValidationError "Idea is already processing")
        | UNUSED =>
            let* _ := updateIdeaDoc ideaId (BlogIdea.withStatus USED) in
            let* _ := logger LogInfo "Idea marked as used" in
            let* _ := cacheDelByTag "ideas" in
            ret tt
        end
    end).

(** resetIdea(ideaId): writes [used: false] and [updatedAt] *)
Definition resetIdea (ideaId : string) : M unit :=
  tryLog "Failed to reset idea:" (
    let* ideaDoc := getIdeaDoc ideaId in
    match ideaDoc with
    | None => throw (NotFoundError "Idea")
    | Some _ =>
        let* now := dateNow in
        let* _ := updateIdeaDoc ideaId (λ i,
          BlogIdea.mk (BlogIdea.id i) (BlogIdea.status i) (BlogIdea.topic i)
            (BlogIdea.persona i) (BlogIdea.goal i) (BlogIdea.targetAudience i)
            (BlogIdea.priority i) (BlogIdea.difficulty i) (BlogIdea.createdAt i)
            (BlogIdea.tags i) (BlogIdea.notes i) (Some now) (Some false)
            (BlogIdea.isBriefCreated i) (BlogIdea.isApproved i) (BlogIdea.isPublished i)) in
        let* _ := cacheDelByTag "ideas" in
        let* _ := logger LogInfo "Idea reset to unused" in
        ret tt
    end).

(** [new] over [old]: a member present in the update replaces the stored one *)
Definition overlay {A} (new old : option A) : option A :=
  match new with Some _ => new | None => old end.

(** The merge DocumentReference.update(updateData) performs for updateIdea *)
Definition applyIdeaUpdate (updates : UpdateIdeaRequest.t) (now : Z) (i : BlogIdea.t)
  : BlogIdea.t :=
  BlogIdea.mk
    (BlogIdea.id i)
    (default (BlogIdea.status i) (UpdateIdeaRequest.status updates))
    (default (BlogIdea.topic i) (cleanString <$> UpdateIdeaRequest.topic updates))
    (default (BlogIdea.persona i) (cleanString <$> UpdateIdeaRequest.persona updates))
    (default (BlogIdea.goal i) (cleanString <$> UpdateIdeaRequest.goal updates))
    (overlay (cleanString <$> UpdateIdeaRequest.targetAudience updates)
             (BlogIdea.targetAudience i))
    (default (BlogIdea.priority i) (UpdateIdeaRequest.priority updates))
    (overlay (UpdateIdeaRequest.difficulty updates) (BlogIdea.difficulty i))
    (BlogIdea.createdAt i)
    (overlay (map cleanTag <$> UpdateIdeaRequest.tags updates) (BlogIdea.tags i))
    (overlay (cleanString <$> UpdateIdeaRequest.notes updates) (BlogIdea.notes i))
    (Some now)
    (BlogIdea.used i)
    (overlay (UpdateIdeaRequest.isBriefCreated updates) (BlogIdea.isBriefCreated i))
    (overlay (UpdateIdeaRequest.isApproved updates) (BlogIdea.isApproved i))
    (overlay (UpdateIdeaRequest.isPublished updates) (BlogIdea.isPublished i)).

(** updateIdea(ideaId, updates).  The document read back after the
    update is there, the update having gone through. *)
Definition updateIdea (ideaId : string) (updates : UpdateIdeaRequest.t) : M BlogIdea.t :=
  tryLog "Failed to update idea:" (
    let* ideaDoc := getIdeaDoc ideaId in
    match ideaDoc with
    | None => throw (NotFoundError "Idea")
    | Some _ =>
        let* now := dateNow in
        let* _ := updateIdeaDoc ideaId (applyIdeaUpdate updates now) in
        let* updatedDoc := getIdeaDoc ideaId in
        match updatedDoc with
        | None => throw (FirestoreError "NOT_FOUND: No document to update")
        | Some updatedData =>
            let updatedIdea := BlogIdea.withId ideaId updatedData in
            let* _ := cacheDelByTag "ideas" in
            let* _ := logger LogInfo "Idea updated" in
            ret updatedIdea
        end
    end).

(** deleteIdea(ideaId) *)
Definition deleteIdea (ideaId : string) : M unit :=
  tryLog "Failed to delete idea:" (
    let* ideaDoc := getIdeaDoc ideaId in
    match ideaDoc with
    | None => throw (NotFoundError "Idea")
    | Some ideaData =>
        if decide (BlogIdea.status ideaData = USED)
        then throw (ValidationError "Cannot delete an idea that has been used")
        else
          let* _ := deleteIdeaDoc ideaId in
          let* _ := cacheDelByTag "ideas" in
          let* _ := logger LogInfo "Idea deleted" in
          ret tt
    end).

Definition ideaKey (ideaId : string) : string := "idea:" +:+ ideaId.

(** getIdeaById(ideaId) *)
Definition getIdeaById (ideaId : string) : M BlogIdea.t :=
  tryLog "Failed to get idea by ID:" (
    let cacheKey := ideaKey ideaId in
    let* cached := cacheGet cacheKey in
    match cached with
    | Some (VIdea idea) => ret idea
    | _ =>
        let* ideaDoc := getIdeaDoc ideaId in
        match ideaDoc with
        | None => throw (NotFoundError "Idea")
        | Some ideaData =>
            let idea := BlogIdea.withId ideaId ideaData in
            let* _ := cacheSet cacheKey (VIdea idea) ideasCacheOptions in
            ret idea
        end
    end).

End BlogIdeaService.

(* ===================================================================== *)
(** ** BlogPostService *)
(* ===================================================================== *)

Module BlogPostService.
Import Blog Runtime.

Definition COLLECTION : string := "posts".
Definition CACHE_TTL : Z := 300.

Definition postsCacheOptions : InMemoryCache.CacheOptions :=
  InMemoryCache.mkOptions (Some CACHE_TTL) (Some ["posts"]).

Definition postKey (postId : string) : string := "post:" +:+ postId.

(** createPost(postData) *)
Definition createPost (postData : CreatePostRequest.t) : M BlogPost.t :=
  tryLog "Failed to create blog post:" (
    let* id := randomUUID in
    let* now := dateNow in
    let post := BlogPost.mk
      id
      BRIEF
      (match CreatePostRequest.scheduledAt postData with
       | Some t => if decide (t = 0) then None else Some (Ms t)
       | None => None
       end)
      None
      now
      now
      (default "" (Js.truthyString (CreatePostRequest.ideaId postData)))
      (CreatePostRequest.brief postData)
      (CreatePostRequest.outline postData)
      (CreatePostRequest.draft postData)
      (CreatePostRequest.seo postData)
      (CreatePostRequest.featuredImage postData)
      (CreatePostRequest.images postData)
      (CreatePostRequest.tags postData)
      (Js.truthyString (CreatePostRequest.category postData))
      (Js.truthyString (CreatePostRequest.publicUrl postData))
      None
      (Js.truthyString (CreatePostRequest.errorMessage postData)) in
    let* _ := setPostDoc post in
    let* _ := cacheDelByTag "posts" in
    let* _ := logger LogInfo "Blog post created" in
    ret post).

(** getPostById(postId).  A cached value of another shape cannot sit
    under a post key and is read as a miss. *)
Definition getPostById (postId : string) : M BlogPost.t :=
  tryLog "Failed to get post by ID:" (
    let* _ := logger LogInfo "Fetching post by ID" in
    let cacheKey := postKey postId in
    let* cached := cacheGet cacheKey in
    match cached with
    | Some (VPost post) =>
        let* _ := logger LogInfo "Post found in cache" in
        ret post
    | _ =>
        let* postDoc := getPostDoc postId in
        match postDoc with
        | None =>
            let* _ := logger LogWarn "Post not found in database" in
            throw (NotFoundError ("Post with ID '" +:+ postId +:+ "' not found"))
        | Some postData =>
            let post := BlogPost.withId postId postData in
            let* _ := cacheSet cacheKey (VPost post) postsCacheOptions in
            ret post
        end
    end).

(** getIdeaByPostId(postId) *)
Definition getIdeaByPostId (postId : string) : M BlogIdea.t :=
  let* postDoc := getPostDoc postId in
  match Js.truthyString (BlogPost.ideaId <$> postDoc) with
  | None => throw (NotFoundError ("Post with ID '" +:+ postId +:+ "' has no idea ID"))
  | Some ideaId => BlogIdeaService.getIdeaById ideaId
  end.

(** const validTransitions: Record<PostStatus, PostStatus[]> *)
Definition validTransitions (currentStatus : PostStatus) : list PostStatus :=
  match currentStatus with
  | BRIEF => [OUTLINE; DRAFT; REGENRATE]
  | OUTLINE => [DRAFT; BRIEF; REGENRATE; NEEDS_REVIEW]
  | DRAFT => [NEEDS_REVIEW; OUTLINE; REGENRATE]
  | NEEDS_REVIEW => [APPROVED; DRAFT; REGENRATE]
  | APPROVED => [SCHEDULED; PUBLISHED; DRAFT; REGENRATE]
  | SCHEDULED => [PUBLISHED; APPROVED; REGENRATE]
  | PUBLISHED => [PUBLISHED; REGENRATE]
  | REGENRATE => [BRIEF; OUTLINE; DRAFT; NEEDS_REVIEW]
  end.

(** The error validateStatusTransition throws *)
Definition invalidTransition (currentStatus newStatus : PostStatus) : Error :=
  ValidationError ("Invalid status transition from " +:+ postStatusName currentStatus
                   +:+ " to " +:+ postStatusName newStatus).

(** validateStatusTransition(currentStatus, newStatus) *)
Definition validateStatusTransition (currentStatus newStatus : PostStatus) : M unit :=
  let allowedTransitions := validTransitions currentStatus in
  if bool_decide (newStatus ∈ allowedTransitions) then ret tt
  else throw (invalidTransition currentStatus newStatus).

(** The merge DocumentReference.update({ ...updates, updatedAt }) performs *)
Definition applyPostUpdate (updates : UpdatePostRequest.t) (now : Z) (p : BlogPost.t)
  : BlogPost.t :=
  let overlay := @BlogIdeaService.overlay in
  BlogPost.mk
    (BlogPost.id p)
    (default (BlogPost.status p) (UpdatePostRequest.status updates))
    (overlay _ (UpdatePostRequest.scheduledAt updates) (BlogPost.scheduledAt p))
    (overlay _ (UpdatePostRequest.publishedAt updates) (BlogPost.publishedAt p))
    (BlogPost.createdAt p)
    now
    (default (BlogPost.ideaId p) (UpdatePostRequest.ideaId updates))
    (overlay _ (UpdatePostRequest.brief updates) (BlogPost.brief p))
    (overlay _ (UpdatePostRequest.outline updates) (BlogPost.outline p))
    (overlay _ (UpdatePostRequest.draft updates) (BlogPost.draft p))
    (overlay _ (UpdatePostRequest.seo updates) (BlogPost.seo p))
    (overlay _ (UpdatePostRequest.featuredImage updates) (BlogPost.featuredImage p))
    (overlay _ (UpdatePostRequest.images updates) (BlogPost.images p))
    (overlay _ (UpdatePostRequest.tags updates) (BlogPost.tags p))
    (overlay _ (UpdatePostRequest.category updates) (BlogPost.category p))
    (overlay _ (UpdatePostRequest.publicUrl updates) (BlogPost.publicUrl p))
    (BlogPost.htmlContent p)
    (overlay _ (UpdatePostRequest.errorMessage updates) (BlogPost.errorMessage p)).

(** postRef.update({ status: 'OUTLINE' }) *)
Definition setStatus (s : PostStatus) (p : BlogPost.t) : BlogPost.t :=
  BlogPost.mk (BlogPost.id p) s (BlogPost.scheduledAt p) (BlogPost.publishedAt p)
    (BlogPost.createdAt p) (BlogPost.updatedAt p) (BlogPost.ideaId p) (BlogPost.brief p)
    (BlogPost.outline p) (BlogPost.draft p) (BlogPost.seo p) (BlogPost.featuredImage p)
    (BlogPost.images p) (BlogPost.tags p) (BlogPost.category p) (BlogPost.publicUrl p)
    (BlogPost.htmlContent p) (BlogPost.errorMessage p).

Definition briefCreated : UpdateIdeaRequest.t :=
  UpdateIdeaRequest.mk None None None None None None None None None (Some true) None None.

(** updatePost(postId, updates).  The document read back after the
    update is there, the update having gone through. *)
Definition updatePost (postId : string) (updates : UpdatePostRequest.t) : M BlogPost.t :=
  tryLog "Failed to update post:" (
    let* postDoc := getPostDoc postId in
    let* idea := getIdeaByPostId postId in
    match postDoc with
    | None => throw (NotFoundError ("Post with ID '" +:+ postId +:+ "' not found"))
    | Some postData =>
        let currentPost := BlogPost.withId postId postData in
        let* _ :=
          match UpdatePostRequest.status updates with
          | Some newStatus =>
              if decide (newStatus ≠ BlogPost.status currentPost)
              then validateStatusTransition (BlogPost.status currentPost) newStatus
              else ret tt
          | None => ret tt
          end in
        let* now := dateNow in
        let* _ := updatePostDoc postId (applyPostUpdate updates now) in
        let* _ :=
          match UpdatePostRequest.outline updates with
          | Some _ =>
              if decide (BlogPost.status currentPost = BRIEF)
              then
                let* _ := updatePostDoc postId (setStatus OUTLINE) in
                let* _ := BlogIdeaService.updateIdea (BlogIdea.id idea) briefCreated in
                logger LogInfo "Auto-updated post status to OUTLINE"
              else ret tt
          | None => ret tt
          end in
        let* updatedDoc := getPostDoc postId in
        match updatedDoc with
        | None => throw (FirestoreError "NOT_FOUND: No document to update")
        | Some updatedData =>
            let updatedPost := BlogPost.withId postId updatedData in
            let* _ := cacheDelByTag "posts" in
            let* _ := cacheDel (postKey postId) in
            let* _ :=
              if decide (BlogPost.status updatedPost = PUBLISHED)
              then
                let* _ := BlogIdeaService.updateIdeaStatus (BlogIdea.id idea) USED in
                logger LogInfo "Updated idea status to USED"
              else ret tt in
            let* _ :=
              if decide (UpdatePostRequest.status updates = Some REGENRATE)
              then triggerRegenerateWebhook updatedPost
              else ret tt in
            let* _ := logger LogInfo "Post updated" in
            ret updatedPost
        end
    end).

(** [new Date(scheduledAt!).getTime()] under the guard [scheduledAt !== null] *)
Definition scheduledAtUpdate (scheduledAt : MaybeDate) : option Millis :=
  match scheduledAt with
  | Null => None
  | Undefined => Some NaN
  | Date t => Some (Ms t)
  end.

(** The updateData object updatePostStatus builds *)
Definition statusUpdateData (post : BlogPost.t) (statusUpdate : UpdatePostStatusRequest.t)
    (now : Z) : UpdatePostRequest.t :=
  let status := UpdatePostStatusRequest.status statusUpdate in
  UpdatePostRequest.mk
    (Some status) None None None None None None
    (scheduledAtUpdate (UpdatePostStatusRequest.scheduledAt statusUpdate))
    None None None None
    (UpdatePostStatusRequest.errorMessage statusUpdate)
    (if decide (status = PUBLISHED ∧ BlogPost.status post ≠ PUBLISHED)
     then Some now else None).

(** updatePostStatus(postId, statusUpdate) *)
Definition updatePostStatus (postId : string) (statusUpdate : UpdatePostStatusRequest.t)
  : M BlogPost.t :=
  tryLog "Failed to update post status:" (
    let* _ := logger LogInfo "Updating post status" in
    let* post := getPostById postId in
    let status := UpdatePostStatusRequest.status statusUpdate in
    let* _ := validateStatusTransition (BlogPost.status post) status in
    let* now := dateNow in
    let updateData := statusUpdateData post statusUpdate now in
    let* _ :=
      if decide (status = PUBLISHED ∧ BlogPost.status post ≠ PUBLISHED)
      then
        if bool_decide (BlogPost.ideaId post ≠ "")
        then
          tryCatch
            (let* _ := BlogIdeaService.markIdeaAsUsed (BlogPost.ideaId post) in
             logger LogInfo "Marked idea as used")
            (λ _, logger LogError "Failed to mark idea as used")
        else ret tt
      else ret tt in
    let* updatedPost := updatePost postId updateData in
    let* _ := logger LogInfo "Post status updated" in
    ret updatedPost).

(** The error publishPost throws for a post that is neither approved nor scheduled *)
Definition notPublishable : Error :=
  ValidationError "Only approved or scheduled posts can be published".

Definition markUsed : UpdateIdeaRequest.t :=
  UpdateIdeaRequest.mk None None None None None None None None (Some USED) None None None.

(** publishPost(postId) *)
Definition publishPost (postId : string) : M BlogPost.t :=
  tryLog "Failed to publish post:" (
    let* post := getPostById postId in
    let* idea := getIdeaByPostId postId in
    if bool_decide (BlogPost.status post ≠ APPROVED)
       && bool_decide (BlogPost.status post ≠ SCHEDULED)
    then throw notPublishable
    else
      let* _ := BlogIdeaService.updateIdea (BlogIdea.id idea) markUsed in
      let* now := dateNow in
      updatePostStatus postId (UpdatePostStatusRequest.mk PUBLISHED (Date now) None)).

(** deletePost(postId) *)
Definition deletePost (postId : string) : M unit :=
  tryLog "Failed to delete post:" (
    let* post := getPostById postId in
    if decide (BlogPost.status post = PUBLISHED)
    then throw (ValidationError "Cannot delete a published post")
    else
      let* _ := deletePostDoc postId in
      let* _ := cacheDelByTag "posts" in
      let* _ := cacheDel (postKey postId) in
      let* _ := logger LogInfo "Post deleted" in
      ret tt).

End BlogPostService.

(* ===================================================================== *)
(** ** What the services see *)
(* ===================================================================== *)

Module Views.
Import Blog Runtime.

(** The post getPostById answers with in a world: the unexpired cached
    copy if there is one, the stored document otherwise. *)
Definition postSeen (w : World) (postId : string) : option BlogPost.t :=
  match (InMemoryCache.get (clock w) (BlogPostService.postKey postId) (cache w)).1 with
  | Some (VPost post) => Some post
  | _ => BlogPost.withId postId <$> posts w !! postId
  end.

(** No entry of the cache carries the tag. *)
Definition invalidated (tag : string) (w : World) : Prop :=
  ∀ key entry, cache w !! key = Some entry → tag ∉ InMemoryCache.tags entry.

(** An idea cached under an idea key carries the id of the key. *)
Definition ideaEntryOk (w : World) (ideaId : string) : Prop :=
  ∀ entry idea,
    cache w !! BlogIdeaService.ideaKey ideaId = Some entry →
    InMemoryCache.data entry = VIdea idea → BlogIdea.id idea = ideaId.


(** An operation that, when it returns, leaves no entry with the tag;
    and one that keeps it so. *)
Definition endsInvalidated {A} (tag : string) (m : M A) : Prop :=
  ∀ w r w', m w = (inr r, w') → invalidated tag w'.

Definition keepsInvalidated {A} (tag : string) (m : M A) : Prop :=
  ∀ w r w', invalidated tag w → m w = (inr r, w') → invalidated tag w'.

(** Every idea cached under an idea key carries the id of its key. *)
Definition ideaCacheOk (w : World) : Prop := ∀ ideaId, ideaEntryOk w ideaId.

(** From [w] to [w']: no idea is removed, and the idea cache stays well keyed. *)
Definition step (w w' : World) : Prop :=
  (∀ k, is_Some (ideas w !! k) → is_Some (ideas w' !! k))
  ∧ (ideaCacheOk w → ideaCacheOk w').

(** An operation all of whose runs are such steps. *)
Definition respects {A} (m : M A) : Prop := ∀ w, step w (m w).2.

End Views.

(* ===================================================================== *)
(** ** Sample worlds *)
(* ===================================================================== *)

Module Examples.
Import Blog Runtime.

Definition sampleIdea (id : string) (status : IdeaStatus) (priority : Priority)
    (createdAt : Z) : BlogIdea.t :=
  BlogIdea.mk id status "A topic" "A persona" "A goal" (Some "") priority None
              createdAt (Some []) None None None None None None.

Definition samplePost (id : string) (status : PostStatus) (ideaId : string) : BlogPost.t :=
  BlogPost.mk id status None None 500 500 ideaId None None None None None None None
              None None None None.

Definition sampleUuid (n : nat) : string :=
  "uuid-" +:+ String (ascii_of_nat (48 + n)) EmptyString.

(** A world at clock 1000 with the given documents and an empty cache. *)
Definition worldOf (somePosts : list BlogPost.t) (someIdeas : list BlogIdea.t) : World :=
  mkWorld (list_to_map (map (λ p, (BlogPost.id p, p)) somePosts))
          (list_to_map (map (λ i, (BlogIdea.id i, i)) someIdeas))
          ∅ 1000 sampleUuid 0 [] [].

Definition statusRequest (s : PostStatus) : UpdatePostStatusRequest.t :=
  UpdatePostStatusRequest.mk s Undefined None.

(** The value an operation returned, [d] if it threw. *)
Definition returned {A} (d : A) (r : Error + A) : A :=
  match r with inr a => a | inl _ => d end.

End Examples.

(* ===================================================================== *)
(** ** src/routes/publish.ts: the batch handler, the webhook's update *)
(* ===================================================================== *)

From stdpp Require Import pretty.
Open Scope Z_scope.

Module PublishRoutes.
Import Blog Runtime.

(** The elements of [results] and of [errors] *)
Record PublishedItem := mkPublished {
  pub_postId : string;
  pub_success : bool;
  pub_post : BlogPost.t;
}.

Record FailedItem := mkFailed {
  fail_postId : string;
  fail_success : bool;
  fail_error : string;
}.

Record BatchSummary := mkSummary {
  total : Z;
  successful : Z;
  failed : Z;
}.

Record BatchData := mkData {
  published : list PublishedItem;
  errors : list FailedItem;
  summary : BatchSummary;
}.

(** What the handler sends: the status code and the body *)
Record BatchResponse := mkResponse {
  httpStatus : Z;
  success : bool;
  data : option BatchData;
  error : option string;
  message : option string;
  timestamp : Z;
}.

(** The [for (const postId of postIds)] loop, [results] and [errors]
    being the two arrays filled so far.  What publishPost throws is an
    Error, whose message is recorded. *)
Fixpoint batchLoop (postIds : list string) (results : list PublishedItem)
    (errors : list FailedItem) : M (list PublishedItem * list FailedItem) :=
  match postIds with
  | [] => ret (results, errors)
  | postId :: rest =>
      let* filled :=
        tryCatch
          (let* post := BlogPostService.publishPost postId in
           ret (results ++ [mkPublished postId true post], errors))
          (λ error, ret (results, errors ++ [mkFailed postId false (errorMessage error)])) in
      batchLoop rest filled.1 filled.2
  end.

Definition batchMessage (results : list PublishedItem) (errors : list FailedItem) : string :=
  "Batch publish completed: " +:+ pretty (length results) +:+ " successful, "
  +:+ pretty (length errors) +:+ " failed".

(** POST /api/publish/batch, after authentication.  [postIds] is the
    member of the body when it is an array (of strings), [None] when it
    is missing or something else. *)
Definition publishBatch (postIds : option (list string)) : M BatchResponse :=
  match postIds with
  | None | Some [] =>
      let* now := dateNow in
      ret (mkResponse 400 false None (Some "postIds array is required") None now)
  | Some postIds =>
      let* filled := batchLoop postIds [] [] in
      let results := filled.1 in
      let errors := filled.2 in
      let* now := dateNow in
      let response :=
        mkResponse 200 (bool_decide (length errors = 0%nat))
          (Some (mkData results errors
                   (mkSummary (Z.of_nat (length postIds)) (Z.of_nat (length results))
                              (Z.of_nat (length errors)))))
          None (Some (batchMessage results errors)) now in
      let* _ := logger LogInfo "Batch publish completed via n8n API" in
      ret response
  end.

(** The [updateData] object POST /api/publish/webhook builds from its
    body and hands to updatePost.  [status] is the member of the body
    when it names a post status; [publicUrl] and [error] are strings,
    kept when truthy.  [publishedAt] is set whenever the status is
    PUBLISHED, whatever the post holds. *)
Definition webhookUpdateData (status : option PostStatus) (publicUrl error : option string)
    (now : Z) : UpdatePostRequest.t :=
  UpdatePostRequest.mk
    status None None None None None None None None None None
    (Js.truthyString publicUrl)
    (Js.truthyString error)
    (if decide (status = Some PUBLISHED) then Some now else None).

End PublishRoutes.

(* ===================================================================== *)
(** ** Cache coherence and result order *)
(* ===================================================================== *)

Module Coherence.
Import Blog Runtime.

(** Every entry under an idea key carries the tag the idea writers
    invalidate; getIdeaById, the one writer of such keys, sets it. *)
Definition ideaKeysTagged (w : World) : Prop :=
  ∀ ideaId entry,
    cache w !! BlogIdeaService.ideaKey ideaId = Some entry →
    "ideas" ∈ InMemoryCache.tags entry.

(** An operation that leaves the entries under idea keys tagged, however
    it ends. *)
Definition keepsTagged {A} (m : M A) : Prop :=
  ∀ w, ideaKeysTagged w → ideaKeysTagged (m w).2.

(** The order of [orderBy("createdAt", "desc")]: no idea is older than
    one that comes after it. *)
Fixpoint newestFirst (l : list BlogIdea.t) : Prop :=
  match l with
  | [] => True
  | a :: rest =>
      Forall (λ b, BlogIdea.createdAt b <= BlogIdea.createdAt a) rest ∧ newestFirst rest
  end.

(** The three client-side filters of getAllIdeas together *)
Definition passesFilters (filters : option IdeaFilters.t) (idea : BlogIdea.t) : bool :=
  BlogIdeaService.matchesPriority filters idea
  && BlogIdeaService.matchesTags filters idea
  && BlogIdeaService.matchesSearch filters idea.

(** A string of ASCII characters.  On such strings [Js.trim] and
    [Js.toLowerCase] are String.prototype.trim and
    String.prototype.toLowerCase: the white space among them is the
    space and the characters 9 to 13, the capitals are A to Z. *)
Fixpoint isAscii (s : string) : bool :=
  match s with
  | String a s' => bool_decide (nat_of_ascii a < 128)%nat && isAscii s'
  | EmptyString => true
  end.

(** A string of printable ASCII characters (32 to 126), which
    JSON.stringify escapes like [Js.jsonString]. *)
Fixpoint isPrintable (s : string) : bool :=
  match s with
  | String a s' =>
      bool_decide (32 ≤ nat_of_ascii a)%nat && bool_decide (nat_of_ascii a < 127)%nat
      && isPrintable s'
  | EmptyString => true
  end.

Definition asciiText (s : option string) : bool :=
  match s with Some s => isAscii s | None => true end.

Definition asciiTags (tags : option (list string)) : bool :=
  match tags with Some tags => forallb isAscii tags | None => true end.

(** The strings createIdea trims or lower-cases are ASCII. *)
Definition asciiCreateIdea (ideaData : CreateIdeaRequest.t) : bool :=
  isAscii (CreateIdeaRequest.topic ideaData)
  && isAscii (CreateIdeaRequest.persona ideaData)
  && isAscii (CreateIdeaRequest.goal ideaData)
  && asciiText (CreateIdeaRequest.targetAudience ideaData)
  && asciiTags (CreateIdeaRequest.tags ideaData)
  && asciiText (CreateIdeaRequest.notes ideaData).

(** The strings updateIdea trims or lower-cases are ASCII. *)
Definition asciiUpdateIdea (updates : UpdateIdeaRequest.t) : bool :=
  asciiText (UpdateIdeaRequest.topic updates)
  && asciiText (UpdateIdeaRequest.persona updates)
  && asciiText (UpdateIdeaRequest.goal updates)
  && asciiText (UpdateIdeaRequest.targetAudience updates)
  && asciiTags (UpdateIdeaRequest.tags updates)
  && asciiText (UpdateIdeaRequest.notes updates).

(** The strings of an idea that the filters of getAllIdeas lower-case
    are ASCII. *)
Definition asciiIdea (idea : BlogIdea.t) : bool :=
  isAscii (BlogIdea.topic idea)
  && isAscii (BlogIdea.persona idea)
  && isAscii (BlogIdea.goal idea)
  && asciiTags (BlogIdea.tags idea).

(** The strings of the filters are printable ASCII. *)
Definition printableFilters (filters : option IdeaFilters.t) : bool :=
  match filters with
  | Some f =>
      match IdeaFilters.tags f with Some tags => forallb isPrintable tags | None => true end
      && match IdeaFilters.search f with Some s => isPrintable s | None => true end
  | None => true
  end.

End Coherence.
(* ===================================================================== *)
(** ** Cache properties *)
(* ===================================================================== *)

Section CacheFacts.
Import InMemoryCache.
Context {T : Type}.
Implicit Types (c : gmap string (CacheEntry T)) (key tag : string) (now : Z).

Lemma set_lookup now key (v : T) o c :
  set now key v o c !! key
  = Some (mkEntry v (now + effectiveTtl o * 1000) (default [] (opt_tags o)) now).
Proof. unfold set. by rewrite lookup_insert_eq. Qed.

Lemma effectiveTtl_pos t tg : 0 < t → effectiveTtl (mkOptions (Some t) tg) = t.
Proof. intros Ht. unfold effectiveTtl; simpl. case_decide; [lia | done]. Qed.

Lemma get_unexpired now key c entry :
  c !! key = Some entry → now <= expiresAt entry →
  get now key c = (Some (data entry), c).
Proof.
  intros Hl Hle. unfold get. rewrite Hl. case_decide; [lia | done].
Qed.

Lemma get_expired now key c entry :
  c !! key = Some entry → expiresAt entry < now →
  get now key c = (None, delete key c).
Proof.
  intros Hl Hlt. unfold get. rewrite Hl. case_decide; [done | lia].
Qed.

Lemma get_other now key key' c :
  key ≠ key' → (get now key c).2 !! key' = c !! key'.
Proof.
  intros Hne. unfold get. destruct (c !! key) as [e|] eqn:E; [|done].
  case_decide; simpl; [by rewrite lookup_delete_ne | done].
Qed.

Lemma delByTag_lookup tag key c :
  (delByTag tag c).2 !! key
  = match c !! key with
    | Some e => if hasTag tag e then None else Some e
    | None => None
    end.
Proof.
  unfold delByTag; simpl.
  destruct (c !! key) as [e|] eqn:E.
  - destruct (hasTag tag e) eqn:Ht.
    + apply map_lookup_filter_None. right. intros x Hx. simpl.
      rewrite E in Hx. injection Hx as <-. by rewrite Ht.
    + apply map_lookup_filter_Some. split; [done | simpl; done].
  - apply map_lookup_filter_None. by left.
Qed.

Lemma delByTag_none tag key c e :
  (delByTag tag c).2 !! key = Some e → tag ∉ tags e.
Proof.
  rewrite delByTag_lookup. destruct (c !! key) as [e'|]; [|done].
  destruct (hasTag tag e') eqn:Ht; [done|]. intros [= <-].
  unfold hasTag in Ht. by apply bool_decide_eq_false in Ht.
Qed.

(** C8. Cache round trip.  After [set(k, v, {ttl})] with a positive ttl
  (made at instant [now]), a [get(k)] at any instant up to the expiry
  instant [now + ttl*1000] returns [v] and leaves the map as it is; a
  [get(k)] strictly after the expiry instant is a miss and removes the
  entry.  In any cache, [get] of an entry that has not expired returns
  its value and changes nothing, and [get] never touches another key. *)
Theorem cache_round_trip now now' key (v : T) t tg c :
  0 < t →
  let c1 := set now key v (mkOptions (Some t) tg) c in
  (now' <= now + t * 1000 → get now' key c1 = (Some v, c1))
  ∧ (now + t * 1000 < now' →
       get now' key c1 = (None, delete key c1)
       ∧ (get now' key c1).2 !! key = None)
  ∧ (∀ c0 k e, c0 !! k = Some e → now' <= expiresAt e →
       get now' k c0 = (Some (data e), c0))
  ∧ (∀ c0 k k', k ≠ k' → (get now' k c0).2 !! k' = c0 !! k').
Proof.
  intros Ht c1.
  assert (Hl : c1 !! key
               = Some (mkEntry v (now + t * 1000) (default [] tg) now)).
  { unfold c1. rewrite set_lookup, effectiveTtl_pos by done. done. }
  repeat split.
  - intros Hle. by rewrite (get_unexpired _ _ _ _ Hl).
  - by rewrite (get_expired _ _ _ _ Hl).
  - rewrite (get_expired _ _ _ _ Hl H). simpl. apply lookup_delete_eq.
  - intros c0 k e. apply get_unexpired.
  - intros c0 k k'. apply get_other.
Qed.

End CacheFacts.

Lemma cache_round_trip_witness :
  0 < 10
  ∧ InMemoryCache.get 5000 "k" (InMemoryCache.set 0 "k" 7%nat
       (InMemoryCache.mkOptions (Some 10) None) ∅)
    = (Some 7%nat, InMemoryCache.set 0 "k" 7%nat
       (InMemoryCache.mkOptions (Some 10) None) ∅).
Proof.
  split; [lia|].
  apply (cache_round_trip 0 5000 "k" 7%nat 10 None ∅); lia.
Defined.

(* ===================================================================== *)
(** ** Scheduler properties *)
(* ===================================================================== *)

Section SchedulerFacts.
Import Scheduler.

Local Ltac unfold_ms := unfold msPerDay, msPerHour, msPerMinute in *.

Lemma startOfDay_midnight z t : localMillis z (startOfDay z t) `mod` msPerDay = 0.
Proof.
  unfold startOfDay, localMillis.
  replace (t - (t + offsetMinutes z * msPerMinute) `mod` msPerDay
           + offsetMinutes z * msPerMinute)
    with ((t + offsetMinutes z * msPerMinute)
          - (t + offsetMinutes z * msPerMinute) `mod` msPerDay) by lia.
  rewrite Zminus_mod_idemp_r, Z.sub_diag. done.
Qed.

Lemma setHour_startOfDay z t h :
  setHour z (startOfDay z t) h = startOfDay z t + h * msPerHour.
Proof.
  unfold setHour. rewrite startOfDay_midnight.
  replace (0 `div` msPerHour) with 0 by done. f_equal. lia.
Qed.

Lemma localMillis_plus z t d : localMillis z (t + d) = localMillis z t + d.
Proof. unfold localMillis. lia. Qed.

Lemma timeOfDay_plusDays z t n : timeOfDay z (plusDays t n) = timeOfDay z t.
Proof.
  unfold timeOfDay, plusDays. rewrite localMillis_plus.
  apply Z_mod_plus_full.
Qed.

Lemma timeOfDay_candidate z t h :
  0 <= h <= 23 →
  timeOfDay z (setHour z (startOfDay z t) h) = h * msPerHour.
Proof.
  intros Hh. rewrite setHour_startOfDay. unfold timeOfDay.
  rewrite localMillis_plus.
  rewrite <- Zplus_mod_idemp_l, startOfDay_midnight. simpl.
  apply Z.mod_small. unfold_ms. lia.
Qed.

Lemma days_plusDays t n : plusDays t n `div` msPerDay = t `div` msPerDay + n.
Proof. unfold plusDays. apply Z.div_add. unfold_ms. lia. Qed.

(** An instant at the publish hour is its own candidate. *)
Lemma candidate_fixpoint z t h :
  0 <= h <= 23 → timeOfDay z t = h * msPerHour →
  setHour z (startOfDay z t) h = t.
Proof.
  intros Hh Ht. rewrite setHour_startOfDay. unfold startOfDay.
  unfold timeOfDay in Ht. rewrite Ht. lia.
Qed.

Lemma rem_realigned d i : i ≠ 0 → (d + (i - d `rem` i)) `rem` i = 0.
Proof.
  intros Hi.
  replace (d + (i - d `rem` i)) with ((d `quot` i + 1) * i).
  - by apply Z.rem_mul.
  - pose proof (Z.quot_rem' d i). nia.
Qed.

Lemma rem_two_more d i : i ≠ 0 → d `rem` i = 0 → (d + i) `rem` i = 0.
Proof.
  intros Hi Hd.
  replace (d + i) with ((d `quot` i + 1) * i).
  - by apply Z.rem_mul.
  - pose proof (Z.quot_rem' d i). nia.
Qed.

(** Every slot computeNextSlots returns lies at the publish hour of the
    zone and on the interval grid. *)
Lemma computeNextSlots_on_grid now config :
  1 <= intervalDays config → 0 <= publishHour config <= 23 →
  let p := scheduledAt (computeNextSlots now config) in
  timeOfDay (timezone config) p = publishHour config * msPerHour
  ∧ (p `div` msPerDay) `rem` intervalDays config = 0.
Proof.
  intros Hi Hh. unfold computeNextSlots.
  set (z := timezone config). set (h := publishHour config).
  set (i := intervalDays config) in *.
  set (c := setHour z (startOfDay z now) h).
  assert (Hc : timeOfDay z c = h * msPerHour) by by apply timeOfDay_candidate.
  set (c1 := if decide (c <= now) then plusDays c i else c).
  assert (Hc1 : timeOfDay z c1 = h * msPerHour).
  { unfold c1. case_decide; [by rewrite timeOfDay_plusDays | done]. }
  simpl. case_decide as Hoff; simpl.
  - split; [by rewrite timeOfDay_plusDays|].
    rewrite days_plusDays. apply rem_realigned. lia.
  - split; [done|]. destruct (decide ((c1 `div` msPerDay) `rem` i = 0)); [done|].
    by destruct Hoff.
Qed.

(** From a slot [p] on the grid, the loop of getUpcomingSlots asks for
    the slot after [p + intervalDays]; that instant is its own candidate,
    so the [<=] test moves it a further interval on. *)
Lemma computeNextSlots_after_slot p config :
  1 <= intervalDays config → 0 <= publishHour config <= 23 →
  timeOfDay (timezone config) p = publishHour config * msPerHour →
  (p `div` msPerDay) `rem` intervalDays config = 0 →
  scheduledAt (computeNextSlots (plusDays p (intervalDays config)) config)
  = plusDays p (2 * intervalDays config).
Proof.
  intros Hi Hh Htod Hal. unfold computeNextSlots.
  set (i := intervalDays config) in *.
  rewrite candidate_fixpoint; [|done|by rewrite timeOfDay_plusDays].
  destruct (decide (plusDays p i <= plusDays p i)) as [_|]; [|lia].
  assert (Hd : (plusDays (plusDays p i) i `div` msPerDay) `rem` i = 0).
  { rewrite !days_plusDays. apply rem_two_more; [lia|].
    apply rem_two_more; [lia|done]. }
  destruct (decide ((plusDays (plusDays p i) i `div` msPerDay) `rem` i ≠ 0))
    as [Hne|_]; [by destruct Hne|].
  simpl. unfold plusDays. lia.
Qed.

Lemma upcomingLoop_length config n s : length (upcomingLoop config n s) = n.
Proof. revert s. induction n as [|n IH]; intros s; simpl; [done|by rewrite IH]. Qed.

Lemma upcomingLoop_gap config n s k a b :
  1 <= intervalDays config → 0 <= publishHour config <= 23 →
  timeOfDay (timezone config) (scheduledAt s) = publishHour config * msPerHour →
  (scheduledAt s `div` msPerDay) `rem` intervalDays config = 0 →
  upcomingLoop config n s !! k = Some a →
  upcomingLoop config n s !! S k = Some b →
  up_publishAt b = plusDays (up_publishAt a) (2 * intervalDays config).
Proof.
  intros Hi Hh. revert s k. induction n as [|n IH]; intros s k Htod Hal Ha Hb.
  { done. }
  simpl in Ha, Hb.
  pose proof (computeNextSlots_after_slot _ _ Hi Hh Htod Hal) as Hnext.
  pose proof (computeNextSlots_on_grid
                (plusDays (scheduledAt s) (intervalDays config)) config Hi Hh)
    as [Htod' Hal'].
  destruct k as [|k].
  - simpl in Ha. injection Ha as <-. simpl.
    destruct n as [|n]; [done|]. simpl in Hb. injection Hb as <-. simpl.
    exact Hnext.
  - simpl in Ha. eapply IH; eauto.
Qed.

(** What getUpcomingSlots computes for a valid configuration: [count]
    slots, strictly increasing, each two intervals after the one before. *)
Lemma getUpcomingSlots_gap now config count k a b :
  validConfig config →
  let slots := getUpcomingSlots now config count in
  length slots = Z.to_nat (default 5 count)
  ∧ (slots !! k = Some a → slots !! S k = Some b →
     up_publishAt b = plusDays (up_publishAt a) (2 * intervalDays config)
     ∧ up_publishAt a < up_publishAt b).
Proof.
  intros Hv. unfold validConfig, validateCadenceConfig, toPartial in Hv.
  simpl in Hv. unfold missingOrBelowOne in Hv.
  assert (Hi : 1 <= intervalDays config).
  { destruct (bool_decide (intervalDays config = 0)) eqn:E1; [done|].
    destruct (bool_decide (intervalDays config < 1)) eqn:E2; [done|].
    apply bool_decide_eq_false in E2. lia. }
  assert (Hh : 0 <= publishHour config <= 23).
  { destruct (bool_decide (intervalDays config = 0) || bool_decide (intervalDays config < 1));
      [done|]. simpl in Hv.
    destruct (bool_decide (publishHour config < 0)) eqn:E1; [done|].
    destruct (bool_decide (publishHour config > 23)) eqn:E2; [done|].
    apply bool_decide_eq_false in E1, E2. lia. }
  simpl. unfold getUpcomingSlots. split; [apply upcomingLoop_length|].
  pose proof (computeNextSlots_on_grid now config Hi Hh) as [Htod Hal].
  intros Ha Hb.
  assert (Hgap : up_publishAt b = plusDays (up_publishAt a) (2 * intervalDays config))
    by by eapply upcomingLoop_gap.
  split; [done|]. rewrite Hgap. unfold plusDays, msPerDay. lia.
Qed.

End SchedulerFacts.

(** C7 (the code departs from the claim).  With a seven-day cadence at
    09:00 UTC, asked at 2024-01-04T00:00Z (epoch day 19726, a day of the
    grid) for the default five slots, getUpcomingSlots returns the slots
    of days 19726, 19740, 19754, 19768 and 19782: adjacent values are
    fourteen days apart.  The grid slot of day 19733 in between, which
    computeNextSlots itself returns when asked an hour before it, is
    skipped. *)
Theorem getUpcomingSlots_skips_a_slot :
  let config := Scheduler.mkCadence 7 9 Scheduler.utc 48 None in
  let day (n : Z) := n * Scheduler.msPerDay + 9 * Scheduler.msPerHour in
  Scheduler.validConfig config
  ∧ map Scheduler.up_publishAt
        (Scheduler.getUpcomingSlots (19726 * Scheduler.msPerDay) config None)
    = [day 19726; day 19740; day 19754; day 19768; day 19782]
  ∧ Scheduler.scheduledAt
      (Scheduler.computeNextSlots (day 19733 - Scheduler.msPerHour) config)
    = day 19733.
Proof. repeat split. Qed.

(* ===================================================================== *)
(** ** More on the cache: deletion, cleanup, cache-aside, statistics *)
(* ===================================================================== *)

Section CacheMore.
Import InMemoryCache.
Context {T : Type}.
Implicit Types (c : gmap string (CacheEntry T)) (key tag : string) (now : Z).

Lemma size_filter_list (P : string * CacheEntry T → Prop) `{!∀ x, Decision (P x)} c :
  size (filter P c) = length (filter P (map_to_list c)).
Proof.
  rewrite map_filter_alt, <- length_map_to_list.
  apply Permutation_length, map_to_list_to_map.
  eapply NoDup_fmap_2_strong; [|apply NoDup_filter, NoDup_map_to_list].
  intros [k1 e1] [k2 e2] H1%list_elem_of_filter H2%list_elem_of_filter Hk.
  simpl in Hk. subst k2. destruct H1 as [_ H1], H2 as [_ H2].
  apply elem_of_map_to_list in H1, H2. congruence.
Qed.

Lemma size_filter_split (P : string * CacheEntry T → Prop) `{!∀ x, Decision (P x)} c :
  size c = (size (filter P c) + size (filter (λ kv, ¬ P kv) c))%nat.
Proof.
  rewrite <- map_size_disj_union by apply map_disjoint_filter_complement.
  by rewrite map_filter_union_complement.
Qed.

Lemma kept_untagged tag c :
  filter (λ kv : string * CacheEntry T, hasTag tag kv.2 = false) c
  = filter (λ kv, ¬ tag ∈ tags kv.2) c.
Proof.
  apply map_filter_ext. intros k e _. simpl. unfold hasTag.
  rewrite bool_decide_eq_false. done.
Qed.

Lemma delByTag_count tag c :
  (delByTag tag c).1 = Z.of_nat (size (filter (λ kv, tag ∈ tags kv.2) c)).
Proof.
  unfold delByTag; simpl. rewrite kept_untagged.
  rewrite (size_filter_split (λ kv, tag ∈ tags kv.2) c). lia.
Qed.

(** X1. delByTag(tag) removes exactly the entries whose tags include
    [tag]: an entry is there afterwards if and only if it was there
    before and does not carry the tag; the number returned is the number
    of entries that carried the tag; and a second delByTag(tag) finds
    nothing to remove. *)
Theorem delByTag_removes_exactly_the_tagged tag c :
  let r := delByTag tag c in
  (∀ key e, r.2 !! key = Some e ↔ c !! key = Some e ∧ tag ∉ tags e)
  ∧ r.1 = Z.of_nat (size (filter (λ kv, tag ∈ tags kv.2) c))
  ∧ delByTag tag r.2 = (0, r.2).
Proof.
  simpl. split; [|split].
  - intros key e. unfold delByTag; simpl. rewrite kept_untagged.
    rewrite map_lookup_filter_Some. done.
  - apply delByTag_count.
  - unfold delByTag; simpl. rewrite !kept_untagged.
    rewrite map_filter_filter_l by done.
    f_equal. lia.
Qed.

(** X2. has(key) and get(key).  Both leave the same map behind (an
    expired entry is evicted by either).  has answers true exactly when
    the key holds an entry that has not expired, and get then returns
    the data of that entry.  So whenever get returns something other
    than [null], has answers true; the converse fails for an entry
    whose data is [null]: get hands it back like a miss while has
    answers true. *)
Theorem has_agrees_with_get (isNull : T → bool) now key c :
  (has now key c).2 = (get now key c).2
  ∧ ((has now key c).1 = true
     ↔ ∃ e, c !! key = Some e ∧ now <= expiresAt e
            ∧ (get now key c).1 = Some (data e))
  ∧ (gotNull isNull (get now key c).1 = false → (has now key c).1 = true)
  ∧ (∀ e, c !! key = Some e → now <= expiresAt e → isNull (data e) = true →
       (has now key c).1 = true ∧ gotNull isNull (get now key c).1 = true).
Proof.
  unfold has, get. destruct (c !! key) as [e|] eqn:E; simpl.
  - destruct (decide (now > expiresAt e)) as [Hexp|Hlive]; simpl.
    + split; [done|]. split; [|split; [done|]].
      * split; [done|]. intros (e' & [= <-] & Hle & _). lia.
      * intros e' [= <-] Hle. lia.
    + split; [done|]. split; [|split; [done|]].
      * split; [|done]. intros _. exists e. split; [done|]. split; [lia|done].
      * intros e' [= <-] _ Hn. done.
  - split; [done|]. split; [|split; [done|]].
    + split; [done|]. by intros (e' & He' & _).
    + intros e' He'. done.
Qed.

Lemma cleanup_lookup now key c e :
  cleanup now c !! key = Some e ↔ c !! key = Some e ∧ now <= expiresAt e.
Proof.
  unfold cleanup. rewrite map_lookup_filter_Some. simpl.
  split; intros [? ?]; split; try done; lia.
Qed.

Lemma cleanup_lookup_None now key c :
  cleanup now c !! key = None ↔ ∀ e, c !! key = Some e → expiresAt e < now.
Proof.
  unfold cleanup. rewrite map_lookup_filter_None. simpl. split.
  - intros [Hn|Hall] e He; [congruence|]. specialize (Hall e He). lia.
  - intros Hall. right. intros e He. specialize (Hall e He). lia.
Qed.

(** X3. The periodic cleanup removes exactly the entries that have
    expired, and is invisible to readers: at the instant of the cleanup
    and at any later instant, get(key) returns what it would have
    returned without the cleanup; after a cleanup a get at that instant
    has nothing left to evict, and a second cleanup changes nothing. *)
Theorem cleanup_is_invisible now now' key c :
  now <= now' →
  (∀ k e, cleanup now c !! k = Some e ↔ c !! k = Some e ∧ now <= expiresAt e)
  ∧ (get now' key (cleanup now c)).1 = (get now' key c).1
  ∧ (get now key (cleanup now c)).2 = cleanup now c
  ∧ cleanup now (cleanup now c) = cleanup now c.
Proof.
  intros Hle. split; [|split; [|split]].
  - intros k e. apply cleanup_lookup.
  - unfold get. destruct (cleanup now c !! key) as [e|] eqn:E.
    + apply cleanup_lookup in E as [E He]. rewrite E. by case_decide.
    + destruct (c !! key) as [e|] eqn:E'; [|done].
      pose proof (proj1 (cleanup_lookup_None now key c) E e E') as Hlt.
      case_decide; [done|lia].
  - unfold get. destruct (cleanup now c !! key) as [e|] eqn:E; [|done].
    apply cleanup_lookup in E as [E He]. case_decide; [lia|done].
  - unfold cleanup at 1. apply map_filter_id. intros k e He. simpl.
    apply cleanup_lookup in He as [_ He]. lia.
Qed.

(** X4. getOrSet is cache-aside, for values other than [null].  On an
    entry that has not expired and whose data is not [null], the cached
    data is returned, the factory is not consulted and the map stays as
    it is.  Otherwise (a miss, an expired entry, or an entry whose data
    is [null]) the value of the factory is returned and stored under
    the key.  Until that entry expires a further getOrSet returns the
    stored value again, whatever its own factory would produce, without
    touching the map, provided the value is not [null]; a [null] value
    is never served from the cache: the next getOrSet consults its own
    factory and stores again. *)
Theorem getOrSet_is_cache_aside (isNull : T → bool) now key (factory : unit → T) o c :
  (∀ e, c !! key = Some e → now <= expiresAt e → isNull (data e) = false →
        getOrSet isNull now key factory o c = (data e, c))
  ∧ (gotNull isNull (get now key c).1 = true →
     let r := getOrSet isNull now key factory o c in
     r = (factory tt, set now key (factory tt) o (get now key c).2)
     ∧ ∀ now' (other : unit → T),
         now' <= now + effectiveTtl o * 1000 →
         getOrSet isNull now' key other o r.2
         = if isNull (factory tt)
           then (other tt, set now' key (other tt) o r.2)
           else (factory tt, r.2)).
Proof.
  split.
  - intros e He Hle Hn. unfold getOrSet.
    rewrite (get_unexpired _ _ _ _ He Hle). by rewrite Hn.
  - intros Hnull. cbv zeta.
    assert (Hr : getOrSet isNull now key factory o c
                 = (factory tt, set now key (factory tt) o (get now key c).2)).
    { unfold getOrSet. destruct (get now key c) as [[v|] c'] eqn:G; simpl in *.
      - by rewrite Hnull.
      - done. }
    rewrite Hr. split; [done|]. intros now' other Hle. simpl.
    unfold getOrSet.
    rewrite (get_unexpired now' key _ _
               (set_lookup now key (factory tt) o (get now key c).2)) by (simpl; lia).
    simpl. by destruct (isNull (factory tt)).
Qed.

(** X5. The lifetime of an entry.  After set(key, value, options) at
    instant [now], get(key) returns the value up to and including the
    instant [now + ttl * 1000] and misses after it, where [ttl] is the
    ttl of the options, or 300 when the options give none or give 0.  A
    negative ttl stores an entry that is expired from the start. *)
Theorem set_get_lifetime now now' key (v : T) o c :
  (get now' key (set now key v o c)).1
  = (if decide (now' <= now + effectiveTtl o * 1000) then Some v else None)
  ∧ (ttl o = None ∨ ttl o = Some 0 → effectiveTtl o = 300)
  ∧ (∀ t, ttl o = Some t → t ≠ 0 → effectiveTtl o = t)
  ∧ (∀ t, ttl o = Some t → t < 0 → (get now key (set now key v o c)).1 = None).
Proof.
  assert (Hget : ∀ n, (get n key (set now key v o c)).1
    = if decide (n <= now + effectiveTtl o * 1000) then Some v else None).
  { intros n. unfold get. rewrite set_lookup. cbn [expiresAt data].
    generalize (now + effectiveTtl o * 1000). intros x.
    destruct (decide (n > x)), (decide (n <= x)); simpl; try done; lia. }
  split; [apply Hget|]. split; [|split].
  - unfold effectiveTtl. intros [-> | ->]; [done|]. by case_decide.
  - intros t Ht Hne. unfold effectiveTtl. rewrite Ht. by case_decide.
  - intros t Ht Hneg. rewrite Hget. unfold effectiveTtl. rewrite Ht.
    destruct (decide (t = 0)); [lia|].
    destruct (decide (now <= now + t * 1000)); [lia|done].
Qed.

(** X6. del(key) reports whether the key was in the map, expired or
    not (so it can answer true where has answers false); afterwards
    get(key) misses, and every other key reads as before. *)
Theorem del_then_get now key key' c :
  let r := del key c in
  (r.1 = true ↔ is_Some (c !! key))
  ∧ get now key r.2 = (None, r.2)
  ∧ (key' ≠ key → (get now key' r.2).1 = (get now key' c).1)
  ∧ (∀ e, c !! key = Some e → expiresAt e < now →
          r.1 = true ∧ (has now key c).1 = false).
Proof.
  simpl. unfold del; simpl. split; [|split; [|split]].
  - apply bool_decide_eq_true.
  - unfold get. by rewrite lookup_delete_eq.
  - intros Hne. unfold get. rewrite lookup_delete_ne by congruence.
    destruct (c !! key'); [by case_decide|done].
  - intros e He Hlt. split; [apply bool_decide_eq_true; eauto|].
    unfold has. rewrite He. case_decide; [done|lia].
Qed.

Lemma statsStep_fold now (l : list (string * CacheEntry T)) a b (m : gmap string TagCount) :
  foldl (statsStep now) (a, b, m) l
  = (a + Z.of_nat (length l),
     b + Z.of_nat (length (filter (λ kv, now > expiresAt kv.2) l)),
     foldl (λ acc kv, foldl countTag acc (tags kv.2)) m l).
Proof.
  revert a b m. induction l as [|kv l IH]; intros a b m; simpl.
  - f_equal; f_equal; lia.
  - rewrite IH. rewrite filter_cons. case_decide; simpl; f_equal; f_equal; lia.
Qed.

Lemma countTag_other tag t (m : gmap string TagCount) :
  t ≠ tag → countTag m t !! tag = m !! tag.
Proof.
  intros Hne. unfold countTag. case_bool_decide; [done|].
  destruct (m !! t) as [[n|]|]; [| |case_bool_decide];
    by rewrite lookup_insert_ne.
Qed.

Lemma countTag_same tag (m : gmap string TagCount) :
  tag ∉ objectPrototypeMembers → m !! tag ≠ Some MemberText →
  countTag m tag !! tag = Some (Count (countOf m tag + 1)).
Proof.
  intros Hord Hplain. unfold countTag, countOf.
  rewrite bool_decide_eq_false_2.
  - destruct (m !! tag) as [[n|]|] eqn:E.
    + by rewrite lookup_insert_eq.
    + done.
    + rewrite bool_decide_eq_false_2 by done. by rewrite lookup_insert_eq.
  - intros ->. apply Hord. unfold objectPrototypeMembers.
    do 10 apply list_elem_of_further. apply list_elem_of_here.
Qed.

Lemma countTag_fold tag (ts : list string) (m : gmap string TagCount) :
  tag ∉ objectPrototypeMembers → m !! tag ≠ Some MemberText →
  foldl countTag m ts !! tag ≠ Some MemberText
  ∧ countOf (foldl countTag m ts) tag
    = countOf m tag + Z.of_nat (length (filter (λ t, t = tag) ts)).
Proof.
  intros Hord. revert m. induction ts as [|t ts IH]; intros m Hplain; simpl.
  - split; [done|lia].
  - rewrite filter_cons. destruct (decide (t = tag)) as [->|Hne].
    + destruct (IH (countTag m tag)) as [Hp Hc].
      { by rewrite countTag_same. }
      split; [done|]. rewrite Hc. unfold countOf at 1.
      rewrite countTag_same by done. simpl. lia.
    + destruct (IH (countTag m t)) as [Hp Hc].
      { by rewrite countTag_other. }
      split; [done|]. rewrite Hc. unfold countOf at 1.
      rewrite countTag_other by done. fold (countOf m tag). lia.
Qed.

Lemma tagCounts_fold tag (l : list (string * CacheEntry T)) (m : gmap string TagCount) :
  tag ∉ objectPrototypeMembers → m !! tag ≠ Some MemberText →
  (∀ kv, kv ∈ l → NoDup (tags kv.2)) →
  countOf (foldl (λ acc kv, foldl countTag acc (tags kv.2)) m l) tag
  = countOf m tag + Z.of_nat (length (filter (λ kv, tag ∈ tags kv.2) l)).
Proof.
  intros Hord. revert m. induction l as [|kv l IH]; intros m Hplain Hnd; simpl; [lia|].
  destruct (countTag_fold tag (tags kv.2) m Hord Hplain) as [Hp Hc].
  rewrite IH by (try done; intros; apply Hnd; by right).
  rewrite Hc, filter_cons.
  assert (Hhere : NoDup (tags kv.2)) by (apply Hnd; by left).
  assert (Hone : length (filter (λ t, t = tag) (tags kv.2))
                 = if decide (tag ∈ tags kv.2) then 1%nat else 0%nat).
  { clear -Hhere. induction Hhere as [|t ts Hnot Hnd IH]; [done|].
    rewrite filter_cons. destruct (decide (t = tag)) as [Ht|Ht].
    - subst t. simpl. rewrite IH.
      destruct (decide (tag ∈ ts)) as [Hin|Hin]; [done|].
      destruct (decide (tag ∈ tag :: ts)) as [_|Hn]; [done|].
      destruct Hn. by left.
    - rewrite IH. destruct (decide (tag ∈ ts)) as [Hin|Hin].
      + destruct (decide (tag ∈ t :: ts)) as [_|Hn]; [done|].
        destruct Hn. by right.
      + destruct (decide (tag ∈ t :: ts)) as [Hy|_]; [|done].
        apply elem_of_cons in Hy as [->|?]; done. }
  rewrite Hone. case_decide; simpl; lia.
Qed.

Lemma countTag_member tag t (m : gmap string TagCount) :
  tag ∈ objectPrototypeMembers →
  (∀ n, m !! tag ≠ Some (Count n)) → ∀ n, countTag m t !! tag ≠ Some (Count n).
Proof.
  intros Hmem Hno n. destruct (decide (t = tag)) as [->|Hne].
  - unfold countTag. case_bool_decide; [apply Hno|].
    destruct (m !! tag) as [[k|]|] eqn:E.
    + by destruct (Hno k).
    + by rewrite lookup_insert_eq.
    + rewrite bool_decide_eq_true_2 by done. by rewrite lookup_insert_eq.
  - rewrite countTag_other by done. apply Hno.
Qed.

Lemma tagCounts_member tag (l : list (string * CacheEntry T)) (m : gmap string TagCount) :
  tag ∈ objectPrototypeMembers →
  (∀ n, m !! tag ≠ Some (Count n)) →
  ∀ n, foldl (λ acc kv, foldl countTag acc (tags kv.2)) m l !! tag ≠ Some (Count n).
Proof.
  intros Hmem. revert m. induction l as [|kv l IH]; intros m Hno; simpl; [done|].
  apply IH. generalize (tags kv.2). intros ts. revert m Hno.
  induction ts as [|t ts IHts]; intros m Hno; simpl; [done|].
  apply IHts. by apply countTag_member.
Qed.

(** X7. What getStats counts.  [totalEntries] is the size of the map;
    [activeEntries] is the number of entries a cleanup at that instant
    would keep and [expiredEntries] the number it would remove, so
    right after a cleanup nothing is counted as expired.  For a tag
    that does not name a member of Object.prototype, and when no entry
    lists a tag twice, [tagCounts[tag]] (0 when absent) is the number
    delByTag(tag) would remove.  For a tag that names a member of
    Object.prototype ("constructor", "toString", "__proto__", ...)
    [tagCounts] never holds a count, however many entries carry it. *)
Theorem getStats_counts now tag c :
  let s := getStats now c in
  totalEntries s = Z.of_nat (size c)
  ∧ activeEntries s = Z.of_nat (size (cleanup now c))
  ∧ expiredEntries s = Z.of_nat (size c) - Z.of_nat (size (cleanup now c))
  ∧ expiredEntries (getStats now (cleanup now c)) = 0
  ∧ totalEntries (getStats now (cleanup now c)) = activeEntries s
  ∧ (tag ∉ objectPrototypeMembers →
     (∀ k e, c !! k = Some e → NoDup (tags e)) →
     countOf (tagCounts s) tag = (delByTag tag c).1)
  ∧ (tag ∈ objectPrototypeMembers → ∀ n, tagCounts s !! tag ≠ Some (Count n)).
Proof.
  assert (Hstats : ∀ c0, getStats now c0
    = mkStats (Z.of_nat (size c0))
        (Z.of_nat (size (filter (λ kv, now > expiresAt kv.2) c0)))
        (Z.of_nat (size c0) - Z.of_nat (size (filter (λ kv, now > expiresAt kv.2) c0)))
        (foldl (λ acc kv, foldl countTag acc (tags kv.2)) ∅ (map_to_list c0))).
  { intros c0. unfold getStats. rewrite statsStep_fold.
    rewrite length_map_to_list, <- size_filter_list. simpl. done. }
  assert (Hsplit : ∀ c0, size c0
    = (size (filter (λ kv, (now > expiresAt kv.2)%Z) c0) + size (cleanup now c0))%nat).
  { intros c0. apply (size_filter_split (λ kv, (now > expiresAt kv.2)%Z)). }
  assert (Hclean : size (filter (λ kv, now > expiresAt kv.2) (cleanup now c)) = 0%nat).
  { apply map_size_empty_iff, map_empty_filter_2.
    intros k e He Hexp. simpl in Hexp. apply cleanup_lookup in He as [_ He]. lia. }
  cbv zeta. rewrite !Hstats.
  cbn [totalEntries activeEntries expiredEntries tagCounts].
  pose proof (Hsplit c) as Hc.
  split; [done|]. split; [lia|]. split; [lia|]. split; [by rewrite Hclean|].
  split; [lia|]. split.
  - intros Hord Hnd. rewrite delByTag_count, tagCounts_fold.
    + unfold countOf. rewrite lookup_empty. simpl. by rewrite <- size_filter_list.
    + done.
    + by rewrite lookup_empty.
    + intros [k e] Hin. apply elem_of_map_to_list in Hin. by eapply Hnd.
  - intros Hmem. apply tagCounts_member; [done|]. intros n. by rewrite lookup_empty.
Qed.

End CacheMore.

(* ===================================================================== *)
(** ** More on the scheduler: bounds, validation, countdown *)
(* ===================================================================== *)

Section SchedulerMore.
Import Scheduler.

Local Ltac unfold_ms := unfold msPerDay, msPerHour, msPerMinute in *.

Lemma validConfig_bounds config :
  validConfig config ↔
  1 <= intervalDays config ∧ 0 <= publishHour config <= 23
  ∧ zoneName (timezone config) ≠ "" ∧ 1 <= draftLeadHours config.
Proof.
  unfold validConfig, validateCadenceConfig, toPartial, missingOrBelowOne. simpl.
  split.
  - intros H. repeat case_bool_decide; simpl in H; try done.
    repeat split; try lia. done.
  - intros (? & ? & ? & ?). repeat case_bool_decide; simpl; try done; lia.
Qed.

Lemma candidate_range z now h :
  0 <= h <= 23 →
  now - msPerDay < setHour z (startOfDay z now) h <= now + 23 * msPerHour.
Proof.
  intros Hh. rewrite setHour_startOfDay. unfold startOfDay.
  pose proof (Z.mod_pos_bound (localMillis z now) msPerDay) as Hm.
  unfold_ms. lia.
Qed.

Lemma computeNextSlots_future now config :
  1 <= intervalDays config → 0 <= publishHour config <= 23 →
  now < scheduledAt (computeNextSlots now config).
Proof.
  intros Hi Hh. unfold computeNextSlots.
  pose proof (candidate_range (timezone config) now (publishHour config) Hh) as Hc.
  set (c := setHour (timezone config) (startOfDay (timezone config) now) (publishHour config)) in *.
  set (i := intervalDays config) in *.
  set (c1 := if decide (c <= now) then plusDays c i else c).
  assert (Hc1 : now < c1).
  { unfold c1, plusDays. case_decide; unfold_ms; nia. }
  simpl. case_decide as Hoff; [|done].
  pose proof (Z.rem_bound_abs (c1 `div` msPerDay) i) as Hb.
  unfold plusDays. unfold_ms. nia.
Qed.

Lemma computeNextSlots_soon now config :
  1 <= intervalDays config → 0 <= publishHour config <= 23 → 0 <= now →
  scheduledAt (computeNextSlots now config)
  <= now + (2 * intervalDays config - 1) * msPerDay.
Proof.
  intros Hi Hh Hnow. unfold computeNextSlots.
  pose proof (candidate_range (timezone config) now (publishHour config) Hh) as Hc.
  set (c := setHour (timezone config) (startOfDay (timezone config) now) (publishHour config)) in *.
  set (i := intervalDays config) in *.
  set (c1 := if decide (c <= now) then plusDays c i else c).
  assert (Hc1 : now < c1 <= now + i * msPerDay).
  { unfold c1, plusDays. case_decide; unfold_ms; nia. }
  simpl. case_decide as Hoff.
  - assert (Hd : 0 <= c1 `div` msPerDay) by (apply Z.div_pos; unfold_ms; lia).
    pose proof (Z.rem_bound_pos (c1 `div` msPerDay) i Hd) as Hb.
    unfold plusDays. unfold_ms. nia.
  - unfold_ms. nia.
Qed.

(** X8. The slot computeNextSlots returns, for a valid configuration
    and an instant [now] not before the epoch: [scheduledAt] lies
    strictly after [now] and at most [2 * intervalDays - 1] days after
    it, at the publish hour of the zone, on a day whose number since the
    epoch is a multiple of [intervalDays]; [createAt] is
    [draftLeadHours] hours before it. *)
Theorem computeNextSlots_slot now config :
  validConfig config → 0 <= now →
  let s := computeNextSlots now config in
  now < scheduledAt s <= now + (2 * intervalDays config - 1) * msPerDay
  ∧ timeOfDay (timezone config) (scheduledAt s) = publishHour config * msPerHour
  ∧ (scheduledAt s `div` msPerDay) `rem` intervalDays config = 0
  ∧ createAt s = scheduledAt s - draftLeadHours config * msPerHour
  ∧ createAt s < scheduledAt s.
Proof.
  intros (Hi & Hh & _ & Hl)%validConfig_bounds Hnow s.
  pose proof (computeNextSlots_on_grid now config Hi Hh) as [Htod Hgrid].
  split; [split|].
  - by apply computeNextSlots_future.
  - by apply computeNextSlots_soon.
  - split; [done|]. split; [done|].
    assert (Hc : createAt s = scheduledAt s - draftLeadHours config * msPerHour) by done.
    split; [done|]. rewrite Hc. unfold_ms. lia.
Qed.

Lemma same_time_of_day z a b :
  timeOfDay z a = timeOfDay z b → a `mod` msPerDay = b `mod` msPerDay.
Proof.
  unfold timeOfDay, localMillis. set (o := offsetMinutes z * msPerMinute). intros H.
  transitivity (((a + o) `mod` msPerDay - o) `mod` msPerDay).
  { rewrite Zminus_mod_idemp_l. f_equal. lia. }
  rewrite H, Zminus_mod_idemp_l. f_equal. lia.
Qed.

(** X9. Asking again from the draft instant does not move the slot
    backwards, in a fixed-offset zone: for a valid configuration whose
    draft lead is at most one interval
    ([draftLeadHours <= 24 * intervalDays]), computeNextSlots called
    with [now] equal to the [createAt] it returned gives a [scheduledAt]
    that is the same or later, never earlier.  (In a zone with daylight
    saving the recomputed slot can be a day earlier; such zones are
    outside [Zone].) *)
Theorem computeNextSlots_from_createAt now config :
  validConfig config →
  draftLeadHours config <= 24 * intervalDays config →
  let s := computeNextSlots now config in
  scheduledAt s <= scheduledAt (computeNextSlots (createAt s) config).
Proof.
  intros (Hi & Hh & _ & Hl)%validConfig_bounds Hlead. cbv zeta.
  set (s := computeNextSlots now config).
  pose proof (computeNextSlots_on_grid now config Hi Hh) as [Htod Hgrid].
  pose proof (computeNextSlots_on_grid (createAt s) config Hi Hh) as [Htod' Hgrid'].
  pose proof (computeNextSlots_future (createAt s) config Hi Hh) as Hfut.
  assert (Hc : createAt s = scheduledAt s - draftLeadHours config * msPerHour) by done.
  fold s in Htod, Hgrid.
  set (p := scheduledAt s) in *.
  set (p' := scheduledAt (computeNextSlots (createAt s) config)) in *.
  assert (Hmod : p `mod` msPerDay = p' `mod` msPerDay).
  { apply (same_time_of_day (timezone config)). by rewrite Htod, Htod'. }
  pose proof (Z.div_mod p msPerDay) as Hp.
  pose proof (Z.div_mod p' msPerDay) as Hp'.
  pose proof (Z.quot_rem' (p `div` msPerDay) (intervalDays config)) as Hq.
  pose proof (Z.quot_rem' (p' `div` msPerDay) (intervalDays config)) as Hq'.
  rewrite Hgrid in Hq. rewrite Hgrid' in Hq'.
  set (q := (p `div` msPerDay) `quot` intervalDays config) in *.
  set (q' := (p' `div` msPerDay) `quot` intervalDays config) in *.
  assert (Hqq : q <= q').
  { destruct (decide (q <= q')) as [|Hn]; [done|exfalso].
    assert (q' + 1 <= q) by lia.
    assert (Hd : p' `div` msPerDay + intervalDays config <= p `div` msPerDay) by nia.
    unfold_ms. nia. }
  assert (Hd : p `div` msPerDay <= p' `div` msPerDay) by nia.
  unfold_ms. nia.
Qed.

(** X10. The draft window, for a valid configuration in a fixed-offset
    zone the runtime resolves (there shouldCreateDraft does not throw).
    The next slot is always strictly ahead of [now], so a true answer
    means that [now] is inside the draft window
    [createAt <= now < scheduledAt] of that slot, which is then at most
    [draftLeadHours] hours away; a false answer means that the slot is
    more than [draftLeadHours] hours away.  When [draftLeadHours] is at
    least [24 * (2 * intervalDays - 1)], the answer is true at every
    instant from the epoch on. *)
Theorem shouldCreateDraft_window now config :
  validConfig config →
  let s := computeNextSlots now config in
  (shouldCreateDraft now config = true →
     createAt s <= now < scheduledAt s
     ∧ scheduledAt s - now <= draftLeadHours config * msPerHour)
  ∧ (shouldCreateDraft now config = false →
     now < createAt s ∧ draftLeadHours config * msPerHour < scheduledAt s - now)
  ∧ (0 <= now → 24 * (2 * intervalDays config - 1) <= draftLeadHours config →
     shouldCreateDraft now config = true).
Proof.
  intros (Hi & Hh & _ & Hl)%validConfig_bounds s.
  pose proof (computeNextSlots_future now config Hi Hh) as Hfut. fold s in Hfut.
  assert (Hc : createAt s = scheduledAt s - draftLeadHours config * msPerHour) by done.
  unfold shouldCreateDraft. fold s. split; [|split].
  - rewrite bool_decide_eq_true. lia.
  - rewrite bool_decide_eq_false. lia.
  - intros Hnow Hlead. apply bool_decide_eq_true.
    pose proof (computeNextSlots_soon now config Hi Hh Hnow) as Hsoon. fold s in Hsoon.
    rewrite Hc. unfold_ms. nia.
Qed.

Lemma only_message (m : string) (a b c d : list string) :
  m ∈ a ++ b ++ c ++ d ↔ m ∈ a ∨ m ∈ b ∨ m ∈ c ∨ m ∈ d.
Proof. rewrite !elem_of_app. tauto. Qed.

(** X11. validateCadenceConfig reports every violation, not only the
    first: each of its four messages is in the result exactly when the
    member it is about is missing or out of range, and the result is
    empty exactly when all four members are there with
    [intervalDays >= 1], [0 <= publishHour <= 23], a non-empty timezone
    and [draftLeadHours >= 1]. *)
Theorem validateCadenceConfig_reports_every_violation p :
  let errs := validateCadenceConfig p in
  ("Interval days must be at least 1" ∈ errs
     ↔ ∀ v, p_intervalDays p = Some v → v < 1)
  ∧ ("Publish hour must be between 0 and 23" ∈ errs
     ↔ ∀ h, p_publishHour p = Some h → h < 0 ∨ 23 < h)
  ∧ ("Timezone is required" ∈ errs
     ↔ ∀ z, p_timezone p = Some z → z = "")
  ∧ ("Draft lead hours must be at least 1" ∈ errs
     ↔ ∀ v, p_draftLeadHours p = Some v → v < 1)
  ∧ (errs = []
     ↔ ∃ i h z l, p = mkPartial (Some i) (Some h) (Some z) (Some l)
                  ∧ 1 <= i ∧ 0 <= h <= 23 ∧ z ≠ "" ∧ 1 <= l).
Proof.
  destruct p as [i h z l]. simpl.
  assert (Hi : ∀ m, m ∈ (if missingOrBelowOne i then ["Interval days must be at least 1"] else [])
               ↔ m = "Interval days must be at least 1" ∧ ∀ v, i = Some v → v < 1).
  { intros m. destruct i as [v|]; simpl.
    - repeat case_bool_decide; simpl; rewrite ?list_elem_of_singleton, ?elem_of_nil;
        split; try done; try (intros ->; split; [done|]; intros ? [= <-]; lia);
        try (intros [_ Hx]; specialize (Hx _ eq_refl); lia); try by intros [? ?].
    - rewrite list_elem_of_singleton. split; [by intros ->|by intros [? _]]. }
  assert (Hl : ∀ m, m ∈ (if missingOrBelowOne l then ["Draft lead hours must be at least 1"] else [])
               ↔ m = "Draft lead hours must be at least 1" ∧ ∀ v, l = Some v → v < 1).
  { intros m. destruct l as [v|]; simpl.
    - repeat case_bool_decide; simpl; rewrite ?list_elem_of_singleton, ?elem_of_nil;
        split; try done; try (intros ->; split; [done|]; intros ? [= <-]; lia);
        try (intros [_ Hx]; specialize (Hx _ eq_refl); lia); try by intros [? ?].
    - rewrite list_elem_of_singleton. split; [by intros ->|by intros [? _]]. }
  assert (Hh : ∀ m, m ∈ (match h with
                         | None => ["Publish hour must be between 0 and 23"]
                         | Some h => if bool_decide (h < 0) || bool_decide (h > 23)
                                     then ["Publish hour must be between 0 and 23"] else []
                         end)
               ↔ m = "Publish hour must be between 0 and 23"
                 ∧ ∀ v, h = Some v → v < 0 ∨ 23 < v).
  { intros m. destruct h as [v|]; simpl.
    - repeat case_bool_decide; simpl; rewrite ?list_elem_of_singleton, ?elem_of_nil;
        split; try done; try (intros ->; split; [done|]; intros ? [= <-]; lia);
        try (intros [_ Hx]; specialize (Hx _ eq_refl); lia); try by intros [? ?].
    - rewrite list_elem_of_singleton. split; [by intros ->|by intros [? _]]. }
  assert (Hz : ∀ m, m ∈ (match z with
                         | None => ["Timezone is required"]
                         | Some name => if bool_decide (name = "") then ["Timezone is required"] else []
                         end)
               ↔ m = "Timezone is required" ∧ ∀ v, z = Some v → v = "").
  { intros m. destruct z as [v|]; simpl.
    - case_bool_decide; simpl; rewrite ?list_elem_of_singleton, ?elem_of_nil;
        split; try done; try (intros ->; split; [done|]; by intros ? [= <-]);
        try (by intros [? _]).
      intros [_ Hx]. by specialize (Hx _ eq_refl).
    - rewrite list_elem_of_singleton. split; [by intros ->|by intros [? _]]. }
  unfold validateCadenceConfig; simpl.
  split; [|split; [|split; [|split]]].
  - rewrite only_message, Hi, Hh, Hz, Hl. split; [|by auto].
    intros [[_ H]|[[? _]|[[? _]|[? _]]]]; done.
  - rewrite only_message, Hi, Hh, Hz, Hl. split; [|by auto].
    intros [[? _]|[[_ H]|[[? _]|[? _]]]]; done.
  - rewrite only_message, Hi, Hh, Hz, Hl. split; [|by auto].
    intros [[? _]|[[? _]|[[_ H]|[? _]]]]; done.
  - rewrite only_message, Hi, Hh, Hz, Hl. split; [|by auto 6].
    intros [[? _]|[[? _]|[[? _]|[_ H]]]]; done.
  - split.
    + intros Hnil.
      assert (Hno : ∀ m, ¬ m ∈ (if missingOrBelowOne i then ["Interval days must be at least 1"] else [])
                ++ (match h with
                    | None => ["Publish hour must be between 0 and 23"]
                    | Some h => if bool_decide (h < 0) || bool_decide (h > 23)
                                then ["Publish hour must be between 0 and 23"] else []
                    end)
                ++ (match z with
                    | None => ["Timezone is required"]
                    | Some name => if bool_decide (name = "") then ["Timezone is required"] else []
                    end)
                ++ (if missingOrBelowOne l then ["Draft lead hours must be at least 1"] else [])).
      { intros m. rewrite Hnil. apply not_elem_of_nil. }
      setoid_rewrite only_message in Hno.
      setoid_rewrite Hi in Hno. setoid_rewrite Hh in Hno.
      setoid_rewrite Hz in Hno. setoid_rewrite Hl in Hno.
      destruct i as [i|]; [|exfalso; eapply Hno; left; split; [done|]; by intros].
      destruct h as [h|]; [|exfalso; eapply Hno; right; left; split; [done|]; by intros].
      destruct z as [z|]; [|exfalso; eapply Hno; right; right; left; split; [done|]; by intros].
      destruct l as [l|]; [|exfalso; eapply Hno; right; right; right; split; [done|]; by intros].
      exists i, h, z, l. split; [done|].
      split; [|split; [|split]].
      * destruct (decide (1 <= i)); [done|]. exfalso. eapply Hno. left.
        split; [done|]. intros ? [= <-]. lia.
      * destruct (decide (0 <= h <= 23)); [done|]. exfalso. eapply Hno. right; left.
        split; [done|]. intros ? [= <-]. lia.
      * intros ->. eapply Hno. right; right; left. split; [done|]. by intros ? [= <-].
      * destruct (decide (1 <= l)); [done|]. exfalso. eapply Hno. right; right; right.
        split; [done|]. intros ? [= <-]. lia.
    + intros (i' & h' & z' & l' & [= -> -> -> ->] & Hi' & Hh' & Hz' & Hl').
      unfold missingOrBelowOne.
      repeat case_bool_decide; simpl; try done; try lia.
Qed.

(** X12. getTimeUntilPublish splits the time left into whole days,
    hours and minutes.  Its [isPast] is the answer of
    isScheduledTimePassed; for an instant that has been reached all
    three numbers are 0; for one still ahead, [hours] is below 24,
    [minutes] below 60, and days, hours and minutes together are the time
    left rounded down to the minute. *)
Theorem getTimeUntilPublish_decomposes now at_ :
  let t := getTimeUntilPublish now at_ in
  isPast t = isScheduledTimePassed now at_
  ∧ (at_ <= now → (days t, hours t, minutes t) = (0, 0, 0))
  ∧ (now < at_ →
     0 <= days t ∧ 0 <= hours t < 24 ∧ 0 <= minutes t < 60
     ∧ days t * msPerDay + hours t * msPerHour + minutes t * msPerMinute <= at_ - now
     ∧ at_ - now < days t * msPerDay + hours t * msPerHour + (minutes t + 1) * msPerMinute).
Proof.
  simpl. unfold getTimeUntilPublish, isScheduledTimePassed.
  destruct (decide (at_ - now <= 0)) as [Hpast|Hahead]; simpl.
  - split; [|split; [done|lia]]. symmetry. apply bool_decide_eq_true. lia.
  - split; [|split; [lia|]].
    { symmetry. apply bool_decide_eq_false. lia. }
    intros _. set (d := at_ - now) in *.
    change (24 * 60 * 60 * 1000) with 86400000.
    change (60 * 60 * 1000) with 3600000. change (60 * 1000) with 60000.
    rewrite !Z.rem_mod_nonneg by lia.
    pose proof (Z.div_mod d 86400000) as H1.
    pose proof (Z.mod_pos_bound d 86400000) as H2.
    pose proof (Z.div_mod (d `mod` 86400000) 3600000) as H3.
    pose proof (Z.mod_pos_bound (d `mod` 86400000) 3600000) as H4.
    pose proof (Z.div_mod (d `mod` 3600000) 60000) as H5.
    pose proof (Z.mod_pos_bound (d `mod` 3600000) 60000) as H6.
    pose proof (Z.mod_pos_bound d 3600000) as H7.
    assert (H8 : d `mod` 3600000 = (d `mod` 86400000) `mod` 3600000).
    { symmetry. apply Z.mod_mod_divide. exists 24. lia. }
    assert (0 <= d `div` 86400000) by (apply Z.div_pos; lia).
    assert (0 <= (d `mod` 86400000) `div` 3600000) by (apply Z.div_pos; lia).
    assert (0 <= (d `mod` 3600000) `div` 60000) by (apply Z.div_pos; lia).
    unfold_ms. lia.
Qed.

Lemma upcomingLoop_slots now config n t k a :
  1 <= intervalDays config → 0 <= publishHour config <= 23 →
  now <= t →
  upcomingLoop config n (computeNextSlots t config) !! k = Some a →
  ∃ t', now <= t'
        ∧ up_publishAt a = scheduledAt (computeNextSlots t' config)
        ∧ up_createAt a = createAt (computeNextSlots t' config).
Proof.
  intros Hi Hh. revert t k. induction n as [|n IH]; intros t k Ht Ha; [done|].
  simpl in Ha. destruct k as [|k].
  - injection Ha as <-. exists t. done.
  - apply (IH (plusDays (scheduledAt (computeNextSlots t config)) (intervalDays config)) k);
      [|exact Ha].
    pose proof (computeNextSlots_future t config Hi Hh) as Hfut.
    unfold plusDays. unfold_ms. nia.
Qed.

(** X13. The preview getUpcomingSlots returns, for a valid
    configuration in a fixed-offset zone the runtime resolves, on a
    server whose own zone has a fixed offset (there getUpcomingSlots
    does not throw and a calendar day is 24 hours): it has [count]
    entries (5 when no count is given, none when the count is 0 or
    negative); every entry lies after [now], at the publish hour, on a
    day of the interval grid, with its [createAt] [draftLeadHours] hours
    before its [publishAt]; and the entries are in strictly increasing
    order. *)
Theorem getUpcomingSlots_shape now config count :
  validConfig config →
  let slots := getUpcomingSlots now config count in
  length slots = Z.to_nat (default 5 count)
  ∧ (∀ k a, slots !! k = Some a →
       now < up_publishAt a
       ∧ timeOfDay (timezone config) (up_publishAt a) = publishHour config * msPerHour
       ∧ (up_publishAt a `div` msPerDay) `rem` intervalDays config = 0
       ∧ up_createAt a = up_publishAt a - draftLeadHours config * msPerHour)
  ∧ (∀ k a b, slots !! k = Some a → slots !! S k = Some b →
       up_publishAt a < up_publishAt b).
Proof.
  intros Hv slots.
  pose proof (proj1 (validConfig_bounds config) Hv) as (Hi & Hh & _ & Hl).
  split; [apply upcomingLoop_length|]. split.
  - intros k a Ha.
    destruct (upcomingLoop_slots now config _ now k a Hi Hh (Z.le_refl _) Ha)
      as (t' & Ht' & Hp & Hc).
    pose proof (computeNextSlots_on_grid t' config Hi Hh) as [Htod Hgrid].
    pose proof (computeNextSlots_future t' config Hi Hh) as Hfut.
    rewrite Hp, Hc. split; [lia|]. done.
  - intros k a b Ha Hb.
    by destruct (getUpcomingSlots_gap now config count k a b Hv) as [_ [_ Hlt]].
Qed.

End SchedulerMore.

(* ===================================================================== *)
(** ** Service properties *)
(* ===================================================================== *)

Section ServiceFacts.
Import Blog Runtime Views.

Ltac munfold :=
  unfold tryLog, tryCatch, bind, ret, throw, logger, dateNow, randomUUID,
    triggerRegenerateWebhook, getPostDoc, setPostDoc, updatePostDoc, deletePostDoc,
    getIdeaDoc, setIdeaDoc, updateIdeaDoc, deleteIdeaDoc, cacheGet, cacheSet,
    cacheDel, cacheDelByTag, cacheMutate, queryIdeasNewestFirst in *.

Ltac wsimpl :=
  unfold withPosts, withIdeas, withCache, withLog, withWebhook, atTime in *;
  simpl in *.

Ltac crush :=
  munfold; wsimpl; repeat (case_match; wsimpl; simplify_eq); simplify_option_eq; auto.

(** *** What each operation leaves alone *)

Lemma getIdeaById_frame iid w :
  let w' := (BlogIdeaService.getIdeaById iid w).2 in
  posts w' = posts w ∧ ideas w' = ideas w ∧ clock w' = clock w.
Proof. unfold BlogIdeaService.getIdeaById. crush. Qed.

Lemma updateIdeaStatus_frame iid s w :
  let w' := (BlogIdeaService.updateIdeaStatus iid s w).2 in
  posts w' = posts w ∧ cache w' = cache w ∧ clock w' = clock w.
Proof. unfold BlogIdeaService.updateIdeaStatus. crush. Qed.

Lemma markIdeaAsUsed_frame iid w :
  let w' := (BlogIdeaService.markIdeaAsUsed iid w).2 in
  posts w' = posts w ∧ clock w' = clock w.
Proof. unfold BlogIdeaService.markIdeaAsUsed. crush. Qed.

Lemma getPostById_frame id w :
  let w' := (BlogPostService.getPostById id w).2 in
  posts w' = posts w ∧ ideas w' = ideas w ∧ clock w' = clock w.
Proof. unfold BlogPostService.getPostById. crush. Qed.

Lemma getIdeaByPostId_frame id w :
  let w' := (BlogPostService.getIdeaByPostId id w).2 in
  posts w' = posts w ∧ ideas w' = ideas w ∧ clock w' = clock w.
Proof.
  unfold BlogPostService.getIdeaByPostId. munfold.
  destruct (Js.truthyString (BlogPost.ideaId <$> posts w !! id)); [|done].
  apply getIdeaById_frame.
Qed.

(** *** The post the service sees *)

Lemma postSeen_withLog e w id : postSeen (withLog e w) id = postSeen w id.
Proof. done. Qed.

Lemma getPostById_fst id w :
  (BlogPostService.getPostById id w).1
  = match postSeen w id with
    | Some p => inr p
    | None => inl (NotFoundError ("Post with ID '" +:+ id +:+ "' not found"))
    end.
Proof.
  unfold BlogPostService.getPostById, postSeen. crush.
Qed.

Lemma getPostById_seen id w p :
  (BlogPostService.getPostById id w).1 = inr p ↔ postSeen w id = Some p.
Proof.
  rewrite getPostById_fst. destruct (postSeen w id); split; intros; by simplify_eq.
Qed.


Lemma updatePost_inr id u w p' w' :
  UpdatePostRequest.outline u = None →
  BlogPostService.updatePost id u w = (inr p', w') →
  ∃ q, posts w !! id = Some q
     ∧ p' = BlogPost.withId id (BlogPostService.applyPostUpdate u (clock w) q)
     ∧ posts w' = <[id := BlogPostService.applyPostUpdate u (clock w) q]> (posts w)
     ∧ cache w' !! BlogPostService.postKey id = None
     ∧ clock w' = clock w.
Proof.
  intros Ho H. unfold BlogPostService.updatePost in H.
  unfold tryLog, tryCatch in H. unfold bind at 1, getPostDoc at 1 in H.
  unfold bind at 1 in H.
  pose proof (getIdeaByPostId_frame id w) as (Hp & Hi & Hc).
  destruct (BlogPostService.getIdeaByPostId id w) as [[e|idea] w1]; simpl in Hp, Hi, Hc.
  { munfold. wsimpl. done. }
  rewrite Ho in H.
  destruct (posts w !! id) as [q|] eqn:Eq.
  2:{ munfold. wsimpl. done. }
  exists q. split; [done|].
  unfold BlogPostService.validateStatusTransition in H.
  munfold. wsimpl.
  destruct (UpdatePostRequest.status u) as [ns|] eqn:Es;
    [destruct (decide (ns ≠ BlogPost.status q));
     [destruct (bool_decide (ns ∈ BlogPostService.validTransitions (BlogPost.status q)));
      [|done]|]|].
  all: rewrite Hp, Eq in H; wsimpl; rewrite lookup_insert_eq in H.
  all: set (q' := BlogPostService.applyPostUpdate u (clock w1) q) in *.
  all: destruct (decide (BlogPost.status q' = PUBLISHED)); wsimpl.
  all: try match type of H with
  | context [BlogIdeaService.updateIdeaStatus ?i ?s ?wx] =>
      pose proof (updateIdeaStatus_frame i s wx) as (Hp2 & Hc2 & Hk2);
      destruct (BlogIdeaService.updateIdeaStatus i s wx) as [[e2|[]] w2];
      [done|]; simpl in Hp2, Hc2, Hk2
  end.
  all: (destruct (decide (Some ns = Some REGENRATE))
        || destruct (decide (None = Some REGENRATE)));
    wsimpl; simplify_eq; simpl;
    rewrite ?Hp2, ?Hc2, ?Hk2, ?Hp, ?Hc; unfold q'; rewrite ?Hc;
    (split; [done|]); (split; [done|]); (split; [apply lookup_delete_eq|done]).
Qed.
(** The best-effort marking of the idea inside updatePostStatus never
    throws and touches neither the posts nor the clock. *)
Lemma mark_attempt_frame iid w :
  ∃ w2,
    tryCatch
      (let* _ := BlogIdeaService.markIdeaAsUsed iid in
       logger LogInfo "Marked idea as used")
      (λ _, logger LogError "Failed to mark idea as used") w = (inr tt, w2)
    ∧ posts w2 = posts w ∧ clock w2 = clock w.
Proof.
  unfold tryCatch. unfold bind at 1.
  pose proof (markIdeaAsUsed_frame iid w) as (Hp & Hc).
  destruct (BlogIdeaService.markIdeaAsUsed iid w) as [[e|[]] w1];
    simpl in Hp, Hc; munfold; wsimpl; eauto.
Qed.

Lemma updatePostStatus_inr id req w p' w' :
  BlogPostService.updatePostStatus id req w = (inr p', w') →
  ∃ p q,
    postSeen w id = Some p ∧ posts w !! id = Some q
    ∧ UpdatePostStatusRequest.status req ∈ BlogPostService.validTransitions (BlogPost.status p)
    ∧ p' = BlogPost.withId id
             (BlogPostService.applyPostUpdate
                (BlogPostService.statusUpdateData p req (clock w)) (clock w) q)
    ∧ posts w' = <[id := BlogPostService.applyPostUpdate
                    (BlogPostService.statusUpdateData p req (clock w)) (clock w) q]> (posts w)
    ∧ cache w' !! BlogPostService.postKey id = None
    ∧ clock w' = clock w.
Proof.
  intros H. unfold BlogPostService.updatePostStatus in H.
  unfold tryLog in H. unfold tryCatch at 1 in H.
  unfold bind at 1, logger at 1 in H. unfold bind at 1 in H.
  set (w0 := withLog _ w) in H.
  pose proof (getPostById_frame id w0) as (Hp & Hi & Hc).
  pose proof (getPostById_fst id w0) as Hfst.
  unfold w0 in Hfst at 2. rewrite postSeen_withLog in Hfst.
  destruct (BlogPostService.getPostById id w0) as [[e|p] w1]; simpl in *.
  { munfold. wsimpl. done. }
  destruct (postSeen w id) as [p0|] eqn:Es; [|done]. simplify_eq.
  unfold BlogPostService.validateStatusTransition in H.
  destruct (bool_decide (UpdatePostStatusRequest.status req
                         ∈ BlogPostService.validTransitions (BlogPost.status p0))) eqn:Ev.
  2:{ munfold. wsimpl. done. }
  apply bool_decide_eq_true in Ev.
  unfold bind at 1, ret at 1 in H. unfold bind at 1, dateNow at 1 in H.
  unfold bind at 1 in H.
  assert (Hm : ∃ w2,
    (if decide (UpdatePostStatusRequest.status req = PUBLISHED
                ∧ BlogPost.status p0 ≠ PUBLISHED)
     then if bool_decide (BlogPost.ideaId p0 ≠ "")
          then tryCatch
                 (let* _ := BlogIdeaService.markIdeaAsUsed (BlogPost.ideaId p0) in
                  logger LogInfo "Marked idea as used")
                 (λ _, logger LogError "Failed to mark idea as used")
          else ret tt
     else ret tt) w1 = (inr tt, w2) ∧ posts w2 = posts w1 ∧ clock w2 = clock w1).
  { destruct (decide _); [destruct (bool_decide _)|].
    - apply mark_attempt_frame.
    - by exists w1.
    - by exists w1. }
  destruct Hm as (w2 & Hm & Hp2 & Hc2). rewrite Hm in H.
  unfold bind at 1 in H.
  destruct (BlogPostService.updatePost id _ w2) as [[e|p2] w3] eqn:Eu.
  { munfold. wsimpl. done. }
  apply updatePost_inr in Eu; [|done].
  destruct Eu as (q & Hq & -> & Hp3 & Hk3 & Hc3).
  munfold. wsimpl. simplify_eq. simpl.
  exists p0, q. rewrite Hp2, Hp in Hq. unfold w0 in Hq. simpl in Hq.
  rewrite Hc2, Hc in *. rewrite Hp2, Hp in Hp3. unfold w0 in *. simpl in *.
  repeat split; done.
Qed.
Lemma postSeen_cold w id :
  cache w !! BlogPostService.postKey id = None →
  postSeen w id = BlogPost.withId id <$> posts w !! id.
Proof. intros Hc. unfold postSeen, InMemoryCache.get. by rewrite Hc. Qed.

(** *** When a status request goes through *)

Lemma postKey_not_ideaKey a b : BlogPostService.postKey a ≠ BlogIdeaService.ideaKey b.
Proof. unfold BlogPostService.postKey, BlogIdeaService.ideaKey. simpl. discriminate. Qed.

Lemma getPostById_cache_other id k w :
  k ≠ BlogPostService.postKey id →
  cache (BlogPostService.getPostById id w).2 !! k = cache w !! k.
Proof.
  intros Hk. unfold BlogPostService.getPostById. munfold. wsimpl.
  pose proof (get_other (clock w) (BlogPostService.postKey id) k (cache w)) as Hg.
  repeat (case_match; wsimpl; simplify_eq);
    unfold InMemoryCache.set; simpl; rewrite ?lookup_insert_ne by done; auto.
Qed.

Lemma getIdeaById_succeeds iid w :
  is_Some (ideas w !! iid) → ideaEntryOk w iid →
  ∃ idea w1, BlogIdeaService.getIdeaById iid w = (inr idea, w1) ∧ BlogIdea.id idea = iid.
Proof.
  intros [i Hi] Hok. unfold BlogIdeaService.getIdeaById. munfold. wsimpl.
  destruct (InMemoryCache.get (clock w) (BlogIdeaService.ideaKey iid) (cache w)).1
    as [[| |]|] eqn:Eg; wsimpl; rewrite ?Hi; wsimpl; eauto.
  eexists _, _. split; [done|].
  unfold InMemoryCache.get in Eg.
  destruct (cache w !! BlogIdeaService.ideaKey iid) as [e|] eqn:Ee; [|done].
  destruct (decide (clock w > InMemoryCache.expiresAt e)); [done|].
  simpl in Eg. injection Eg as Eg. by eapply Hok.
Qed.

Lemma updateIdeaStatus_succeeds iid s w :
  is_Some (ideas w !! iid) →
  ∃ w', BlogIdeaService.updateIdeaStatus iid s w = (inr tt, w').
Proof.
  intros [i Hi]. unfold BlogIdeaService.updateIdeaStatus. munfold. wsimpl.
  rewrite Hi. eauto.
Qed.

Lemma updatePost_succeeds id u w q :
  posts w !! id = Some q →
  UpdatePostRequest.outline u = None →
  BlogPost.ideaId q ≠ "" →
  is_Some (ideas w !! BlogPost.ideaId q) →
  ideaEntryOk w (BlogPost.ideaId q) →
  (∀ ns, UpdatePostRequest.status u = Some ns → ns ≠ BlogPost.status q →
         ns ∈ BlogPostService.validTransitions (BlogPost.status q)) →
  ∃ p' w', BlogPostService.updatePost id u w = (inr p', w').
Proof.
  intros Hq Ho Hne Hi Hok Hv. unfold BlogPostService.updatePost.
  unfold tryLog, tryCatch. unfold bind at 1, getPostDoc at 1. unfold bind at 1.
  pose proof (getIdeaByPostId_frame id w) as (Hp1 & Hi1 & Hc1).
  assert (Hg : ∃ idea w1, BlogPostService.getIdeaByPostId id w = (inr idea, w1)
                          ∧ BlogIdea.id idea = BlogPost.ideaId q).
  { unfold BlogPostService.getIdeaByPostId. unfold bind, getPostDoc. rewrite Hq. simpl.
    destruct (BlogPost.ideaId q) eqn:Ei; [done|]. rewrite <- Ei in *.
    by apply getIdeaById_succeeds. }
  destruct Hg as (idea & w1 & Hg & Hid). rewrite Hg in Hp1, Hi1, Hc1 |- *.
  simpl in Hp1, Hi1, Hc1. rewrite Hq, Ho.
  unfold BlogPostService.validateStatusTransition. munfold. wsimpl.
  destruct (UpdatePostRequest.status u) as [ns|] eqn:Es;
    [destruct (decide (ns ≠ BlogPost.status q));
     [rewrite bool_decide_eq_true_2 by by apply Hv|]|].
  all: rewrite Hp1, Hq; wsimpl; rewrite lookup_insert_eq.
  all: set (q' := BlogPostService.applyPostUpdate u (clock w1) q).
  all: destruct (decide (BlogPost.status q' = PUBLISHED)); wsimpl.
  all: try match goal with
    | |- context [BlogIdeaService.updateIdeaStatus ?i ?s ?wx] =>
        destruct (updateIdeaStatus_succeeds i s wx) as [w2 Hu];
        [simpl; by rewrite Hid, Hi1|rewrite Hu]
    end.
  all: (destruct (decide (Some ns = Some REGENRATE))
        || destruct (decide (None = Some REGENRATE))); eauto.
Qed.
Lemma markIdeaAsUsed_keeps iid w :
  let w' := (BlogIdeaService.markIdeaAsUsed iid w).2 in
  (∀ k, is_Some (ideas w !! k) → is_Some (ideas w' !! k))
  ∧ (∀ k e, cache w' !! k = Some e → cache w !! k = Some e).
Proof.
  unfold BlogIdeaService.markIdeaAsUsed. munfold. wsimpl.
  repeat (case_match; wsimpl; simplify_eq); split; auto.
  - intros k Hk. apply lookup_insert_is_Some'. by right.
  - intros k e He. by apply map_lookup_filter_Some in He as [He _].
Qed.

Lemma mark_attempt_keeps iid w :
  ∃ w2,
    tryCatch
      (let* _ := BlogIdeaService.markIdeaAsUsed iid in
       logger LogInfo "Marked idea as used")
      (λ _, logger LogError "Failed to mark idea as used") w = (inr tt, w2)
    ∧ posts w2 = posts w ∧ clock w2 = clock w
    ∧ (∀ k, is_Some (ideas w !! k) → is_Some (ideas w2 !! k))
    ∧ (∀ k e, cache w2 !! k = Some e → cache w !! k = Some e).
Proof.
  unfold tryCatch. unfold bind at 1.
  pose proof (markIdeaAsUsed_frame iid w) as (Hp & Hc).
  pose proof (markIdeaAsUsed_keeps iid w) as (Hi & Hk).
  destruct (BlogIdeaService.markIdeaAsUsed iid w) as [[e|[]] w1];
    simpl in Hp, Hc, Hi, Hk; munfold; wsimpl; eexists; (split; [done|]); simpl; auto.
Qed.

(** A request for a pair of the table goes through when the post the
    service sees is the stored one and its idea is stored. *)
Lemma updatePostStatus_succeeds id req w q :
  posts w !! id = Some q →
  postSeen w id = Some (BlogPost.withId id q) →
  BlogPost.ideaId q ≠ "" →
  is_Some (ideas w !! BlogPost.ideaId q) →
  ideaEntryOk w (BlogPost.ideaId q) →
  UpdatePostStatusRequest.status req ∈ BlogPostService.validTransitions (BlogPost.status q) →
  ∃ p' w', BlogPostService.updatePostStatus id req w = (inr p', w').
Proof.
  intros Hq Hs Hne Hi Hok Hv. unfold BlogPostService.updatePostStatus.
  unfold tryLog. unfold tryCatch at 1.
  unfold bind at 1, logger at 1. unfold bind at 1.
  set (w0 := withLog _ w).
  pose proof (getPostById_frame id w0) as (Hp & Hi1 & Hc).
  pose proof (getPostById_fst id w0) as Hfst.
  pose proof (λ k, getPostById_cache_other id k w0) as Hk.
  unfold w0 in Hfst at 2. rewrite postSeen_withLog, Hs in Hfst.
  destruct (BlogPostService.getPostById id w0) as [r w1]; simpl in *. subst r.
  unfold BlogPostService.validateStatusTransition.
  rewrite bool_decide_eq_true_2 by done.
  unfold bind at 1, ret at 1. unfold bind at 1, dateNow at 1. unfold bind at 1.
  set (u := BlogPostService.statusUpdateData _ _ _).
  assert (Hm : ∃ w2,
    (if decide (UpdatePostStatusRequest.status req = PUBLISHED
                ∧ BlogPost.status (BlogPost.withId id q) ≠ PUBLISHED)
     then if bool_decide (BlogPost.ideaId (BlogPost.withId id q) ≠ "")
          then tryCatch
                 (let* _ := BlogIdeaService.markIdeaAsUsed
                              (BlogPost.ideaId (BlogPost.withId id q)) in
                  logger LogInfo "Marked idea as used")
                 (λ _, logger LogError "Failed to mark idea as used")
          else ret tt
     else ret tt) w1 = (inr tt, w2) ∧ posts w2 = posts w1 ∧ clock w2 = clock w1
    ∧ (∀ k, is_Some (ideas w1 !! k) → is_Some (ideas w2 !! k))
    ∧ (∀ k e, cache w2 !! k = Some e → cache w1 !! k = Some e)).
  { destruct (decide _); [destruct (bool_decide _)|].
    - apply mark_attempt_keeps.
    - by exists w1.
    - by exists w1. }
  destruct Hm as (w2 & Hm & Hp2 & Hc2 & Hi2 & Hk2). rewrite Hm.
  unfold bind at 1.
  destruct (updatePost_succeeds id u w2 q) as (p' & w3 & Hu).
  - by rewrite Hp2, Hp.
  - done.
  - done.
  - apply Hi2. by rewrite Hi1.
  - intros e idea He Hd. apply Hk2 in He. rewrite Hk in He by apply not_eq_sym, postKey_not_ideaKey.
    by eapply Hok.
  - intros ns Hns _. unfold u in Hns. simpl in Hns. by injection Hns as <-.
  - rewrite Hu. munfold. wsimpl. eauto.
Qed.
Lemma validateStatusTransition_accepts cur tgt w :
  tgt ∈ BlogPostService.validTransitions cur →
  BlogPostService.validateStatusTransition cur tgt w = (inr tt, w).
Proof.
  intros H. unfold BlogPostService.validateStatusTransition.
  by rewrite bool_decide_eq_true_2.
Qed.

(** C3.  createPost never throws.  The post it returns is the one it
    stores under its id; its status is BRIEF whatever [status] the
    request carries (changing the request's status changes nothing),
    [publishedAt] is null, the id is the value randomUUID produced at
    this call (the next call draws the next one), and both [createdAt]
    and [updatedAt] are the clock of the call. *)
Theorem createPost_starts_in_brief w req :
  ∃ p w',
    BlogPostService.createPost req w = (inr p, w')
    ∧ BlogPost.status p = BRIEF
    ∧ BlogPost.publishedAt p = None
    ∧ BlogPost.id p = uuidSource w (uuidCount w)
    ∧ uuidCount w' = S (uuidCount w)
    ∧ BlogPost.createdAt p = clock w
    ∧ BlogPost.updatedAt p = clock w
    ∧ posts w' = <[BlogPost.id p := p]> (posts w)
    ∧ posts w' !! BlogPost.id p = Some p
    ∧ ∀ s, BlogPostService.createPost
             (CreatePostRequest.mk s
                (CreatePostRequest.brief req) (CreatePostRequest.outline req)
                (CreatePostRequest.draft req) (CreatePostRequest.scheduledAt req)
                (CreatePostRequest.tags req) (CreatePostRequest.category req)
                (CreatePostRequest.ideaId req) (CreatePostRequest.seo req)
                (CreatePostRequest.featuredImage req) (CreatePostRequest.images req)
                (CreatePostRequest.publicUrl req) (CreatePostRequest.errorMessage req)) w
           = BlogPostService.createPost req w.
Proof.
  unfold BlogPostService.createPost. munfold. wsimpl.
  eexists _, _. split; [reflexivity|]. simpl.
  repeat split; try done. apply lookup_insert_eq.
Qed.
(** The errors of the two delete guards *)
Lemma deletePost_run id w p :
  postSeen w id = Some p →
  ∃ w1, posts w1 = posts w ∧ ideas w1 = ideas w ∧
    if decide (BlogPost.status p = PUBLISHED)
    then BlogPostService.deletePost id w
         = (inl (ValidationError "Cannot delete a published post"),
            withLog (mkLog LogError "Failed to delete post:") w1)
    else ∃ w', BlogPostService.deletePost id w = (inr tt, w')
               ∧ posts w' = delete id (posts w) ∧ ideas w' = ideas w
               ∧ invalidated "posts" w'.
Proof.
  intros Hs. unfold BlogPostService.deletePost. munfold.
  pose proof (getPostById_frame id w) as (Hp & Hi & Hc).
  pose proof (getPostById_fst id w) as Hfst. rewrite Hs in Hfst.
  destruct (BlogPostService.getPostById id w) as [r w1]; simpl in *. subst r.
  exists w1. split; [done|]. split; [done|].
  destruct (decide (BlogPost.status p = PUBLISHED)); wsimpl; [done|].
  eexists. split; [reflexivity|]. simpl. rewrite Hp, Hi. repeat split; try done.
  intros key entry He. simpl in He.
  destruct (decide (key = BlogPostService.postKey id)) as [->|Hne].
  - by rewrite lookup_delete_eq in He.
  - rewrite lookup_delete_ne in He by done.
    eapply (delByTag_none "posts" key (cache w1)). exact He.
Qed.

(** The idea lookup of a post throws nothing but NotFound *)
Lemma getIdeaByPostId_error id w e w' :
  BlogPostService.getIdeaByPostId id w = (inl e, w') → ∃ resource, e = NotFoundError resource.
Proof.
  unfold BlogPostService.getIdeaByPostId, BlogIdeaService.getIdeaById. intros H.
  munfold. wsimpl. repeat (case_match; wsimpl; simplify_eq); eauto.
Qed.

Lemma updateIdea_frame iid u w :
  let w' := (BlogIdeaService.updateIdea iid u w).2 in
  posts w' = posts w ∧ clock w' = clock w.
Proof. unfold BlogIdeaService.updateIdea. crush. Qed.

(** C4, as the code has it.  Let [p] be the post the service sees under
    [id].  publishPost looks the owning idea up before it tests the
    status: if that lookup throws, publishPost throws the same error
    (NotFound) whatever the status; if it resolves and the status is
    neither APPROVED nor SCHEDULED, publishPost throws the ValidationError
    "Only approved or scheduled posts can be published"; in both cases
    the collections stay as they were.  So publishPost succeeds only if
    the status is APPROVED or SCHEDULED, and then (the idea having been
    updated to USED) its outcome is that of
    updatePostStatus(id, { status: PUBLISHED, scheduledAt: now }). *)
Theorem publishPost_guard w id p :
  (BlogPostService.getPostById id w).1 = inr p →
  let w1 := (BlogPostService.getPostById id w).2 in
  let lookup := BlogPostService.getIdeaByPostId id w1 in
  (∀ p' w', BlogPostService.publishPost id w = (inr p', w') →
     BlogPost.status p = APPROVED ∨ BlogPost.status p = SCHEDULED)
  ∧ (∀ e, lookup.1 = inl e →
       (∃ resource, e = NotFoundError resource)
       ∧ ∃ w', BlogPostService.publishPost id w = (inl e, w')
               ∧ posts w' = posts w ∧ ideas w' = ideas w)
  ∧ (∀ idea, lookup.1 = inr idea →
       BlogPost.status p ≠ APPROVED → BlogPost.status p ≠ SCHEDULED →
       ∃ w', BlogPostService.publishPost id w = (inl BlogPostService.notPublishable, w')
             ∧ posts w' = posts w ∧ ideas w' = ideas w)
  ∧ (∀ idea updated w3, lookup.1 = inr idea →
       BlogPost.status p = APPROVED ∨ BlogPost.status p = SCHEDULED →
       BlogIdeaService.updateIdea (BlogIdea.id idea) BlogPostService.markUsed lookup.2
       = (inr updated, w3) →
       BlogPostService.publishPost id w
       = tryLog "Failed to publish post:"
           (BlogPostService.updatePostStatus id
              (UpdatePostStatusRequest.mk PUBLISHED (Date (clock w)) None)) w3).
Proof.
  intros Hsee w1 lookup.
  pose proof (getPostById_frame id w) as (Hp & Hi & Hc).
  pose proof (getIdeaByPostId_frame id w1) as (Hp2 & Hi2 & Hc2).
  unfold BlogPostService.publishPost. munfold.
  subst lookup w1.
  destruct (BlogPostService.getPostById id w) as [r w1]; simpl in *. subst r.
  destruct (BlogPostService.getIdeaByPostId id w1) as [[e|idea] w2] eqn:El; simpl in *.
  - split; [intros; simplify_eq|]. split; [|split; intros; simplify_eq].
    intros ? [= <-]. split; [by eapply getIdeaByPostId_error|].
    eexists. split; [reflexivity|]. simpl. by rewrite Hp2, Hi2.
  - split; [|split; [|split]].
    + intros p' w' H.
      destruct (decide (BlogPost.status p = APPROVED)); [by left|].
      destruct (decide (BlogPost.status p = SCHEDULED)); [by right|].
      rewrite !bool_decide_eq_true_2 in H by done. simpl in H. done.
    + intros; simplify_eq.
    + intros ? [= <-] Ha Hs. rewrite !bool_decide_eq_true_2 by done. simpl.
      eexists. split; [reflexivity|]. simpl. by rewrite Hp2, Hi2.
    + intros ? updated w3 [= <-] Hst Hu.
      pose proof (updateIdea_frame (BlogIdea.id idea) BlogPostService.markUsed w2) as (_ & Hc3).
      rewrite Hu in Hc3. simpl in Hc3.
      assert (Hb : bool_decide (BlogPost.status p ≠ APPROVED)
                   && bool_decide (BlogPost.status p ≠ SCHEDULED) = false).
      { destruct Hst as [-> | ->]; done. }
      rewrite Hb. simpl. rewrite Hu. simpl. by rewrite Hc3, Hc2, Hc.
Qed.
Lemma getAllIdeas_frame f w :
  let w' := (BlogIdeaService.getAllIdeas f w).2 in
  posts w' = posts w ∧ ideas w' = ideas w ∧ clock w' = clock w.
Proof. unfold BlogIdeaService.getAllIdeas. crush. Qed.

(** The idea pickNextIdea returns is stored with status PROCESSING *)
Lemma pickNextIdea_marks_processing w j w1 :
  BlogIdeaService.pickNextIdea w = (inr (Some j), w1) →
  ∃ i0, ideas w !! BlogIdea.id j = Some i0
        ∧ ideas w1 = <[BlogIdea.id j := BlogIdea.withStatus PROCESSING i0]> (ideas w)
        ∧ BlogIdea.status <$> ideas w1 !! BlogIdea.id j = Some PROCESSING.
Proof.
  intros H. unfold BlogIdeaService.pickNextIdea, BlogIdeaService.getUnusedIdeas in H.
  unfold tryLog in H. unfold tryCatch at 1 in H. unfold bind at 1 in H.
  pose proof (getAllIdeas_frame BlogIdeaService.unusedFilter w) as (_ & Hi & _).
  destruct (BlogIdeaService.getAllIdeas BlogIdeaService.unusedFilter w) as [[e|l] w0];
    simpl in Hi.
  { munfold. wsimpl. done. }
  destruct l as [|a l]; [munfold; wsimpl; done|].
  destruct (sort BlogIdeaService.comparePick (a :: l)) as [|s rest].
  { munfold. wsimpl. done. }
  unfold BlogIdeaService.updateIdeaStatus in H. munfold. wsimpl.
  rewrite Hi in H.
  destruct (ideas w !! BlogIdea.id s) as [i0|] eqn:E; wsimpl; simplify_eq.
  exists i0. simpl. rewrite lookup_insert_eq. done.
Qed.

(** C10.  For a stored idea: markIdeaAsUsed succeeds, storing status
    USED, when the status is UNUSED, and only then; it throws "Idea is
    already used" when the status is USED and "Idea is already
    processing" when it is PROCESSING, leaving the ideas as they were.
    The idea pickNextIdea returns is stored as PROCESSING.  So when a
    post that is not yet published, whose idea is PROCESSING (or USED),
    is moved to PUBLISHED, the marking attempted by updatePostStatus
    throws; all it leaves is the error line in the log, and the request
    goes on with updatePost as if nothing had been attempted. *)
Theorem markIdeaAsUsed_only_from_unused w iid i :
  ideas w !! iid = Some i →
  (BlogIdea.status i = UNUSED →
     ∃ w', BlogIdeaService.markIdeaAsUsed iid w = (inr tt, w')
           ∧ ideas w' = <[iid := BlogIdea.withStatus USED i]> (ideas w))
  ∧ (BlogIdea.status i = USED →
     ∃ w', BlogIdeaService.markIdeaAsUsed iid w
           = (inl (ValidationError "Idea is already used"), w')
           ∧ ideas w' = ideas w)
  ∧ (BlogIdea.status i = PROCESSING →
     ∃ w', BlogIdeaService.markIdeaAsUsed iid w
           = (inl (ValidationError "Idea is already processing"), w')
           ∧ ideas w' = ideas w)
  ∧ (∀ w', BlogIdeaService.markIdeaAsUsed iid w = (inr tt, w') →
           BlogIdea.status i = UNUSED)
  ∧ (∀ w0 j, BlogIdeaService.pickNextIdea w0 = (inr (Some j), w) →
             BlogIdea.id j = iid → BlogIdea.status i = PROCESSING)
  ∧ (∀ id req p,
       (BlogPostService.getPostById id w).1 = inr p →
       BlogPost.ideaId p = iid → iid ≠ "" →
       BlogIdea.status i = PROCESSING ∨ BlogIdea.status i = USED →
       BlogPost.status p ≠ PUBLISHED →
       UpdatePostStatusRequest.status req = PUBLISHED →
       PUBLISHED ∈ BlogPostService.validTransitions (BlogPost.status p) →
       let w1 := (BlogPostService.getPostById id
                    (withLog (mkLog LogInfo "Updating post status") w)).2 in
       (∃ m, (BlogIdeaService.markIdeaAsUsed iid w1).1 = inl (ValidationError m))
       ∧ BlogPostService.updatePostStatus id req w
         = tryLog "Failed to update post status:"
             (let* updatedPost :=
                BlogPostService.updatePost id
                  (BlogPostService.statusUpdateData p req (clock w)) in
              let* _ := logger LogInfo "Post status updated" in
              ret updatedPost)
             (withLog (mkLog LogError "Failed to mark idea as used")
                (withLog (mkLog LogError "Failed to mark idea as used:") w1))).
Proof.
  intros Hi.
  assert (Hrun : ∀ w0, ideas w0 = ideas w →
    BlogIdeaService.markIdeaAsUsed iid w0
    = match BlogIdea.status i with
      | UNUSED =>
          (inr tt,
           withCache (InMemoryCache.delByTag "ideas" (cache w0)).2
             (withLog (mkLog LogInfo "Idea marked as used")
                (withIdeas (insert iid (BlogIdea.withStatus USED i)) w0)))
      | USED =>
          (inl (ValidationError "Idea is already used"),
           withLog (mkLog LogError "Failed to mark idea as used:") w0)
      | PROCESSING =>
          (inl (ValidationError "Idea is already processing"),
           withLog (mkLog LogError "Failed to mark idea as used:") w0)
      end).
  { intros w0 Hw0. unfold BlogIdeaService.markIdeaAsUsed. munfold. wsimpl.
    rewrite Hw0, Hi. destruct (BlogIdea.status i); wsimpl; rewrite ?Hw0, ?Hi; done. }
  split; [|split; [|split; [|split; [|split]]]].
  - intros Hs. rewrite Hrun, Hs by done. eauto.
  - intros Hs. rewrite Hrun, Hs by done. eauto.
  - intros Hs. rewrite Hrun, Hs by done. eauto.
  - intros w' H. rewrite Hrun in H by done. by destruct (BlogIdea.status i).
  - intros w0 j Hpick Hj. apply pickNextIdea_marks_processing in Hpick as (i0 & _ & _ & Hst).
    rewrite Hj, Hi in Hst. simpl in Hst. by injection Hst.
  - intros id req p Hsee Hid Hne Hst Hnp Hreq Hval w1.
    pose proof (getPostById_frame id (withLog (mkLog LogInfo "Updating post status") w))
      as (_ & Hi1 & Hc1).
    pose proof (getPostById_fst id (withLog (mkLog LogInfo "Updating post status") w)) as Hfst.
    apply getPostById_seen in Hsee. rewrite postSeen_withLog, Hsee in Hfst.
    fold w1 in Hi1, Hc1. simpl in Hi1, Hc1. split.
    { destruct Hst as [Hs | Hs]; rewrite Hrun, Hs by done; eauto. }
    unfold BlogPostService.updatePostStatus.
    unfold tryLog. unfold tryCatch at 1 3. unfold bind at 1, logger at 1. unfold bind at 1.
    subst w1.
    destruct (BlogPostService.getPostById id _) as [r w1]; simpl in *. subst r.
    unfold BlogPostService.validateStatusTransition.
    rewrite Hreq, bool_decide_eq_true_2 by done.
    unfold bind at 1, ret at 1. unfold bind at 1, dateNow at 1. unfold bind at 1.
    rewrite decide_True by done. rewrite Hid, bool_decide_eq_true_2 by done.
    unfold tryCatch at 1. unfold bind at 1.
    rewrite Hrun by done.
    destruct Hst as [Hs | Hs]; rewrite Hs; munfold; wsimpl; rewrite Hc1; done.
Qed.
(** *** Cache invalidation by the mutating operations *)

Lemma invalidated_delByTag tag w0 w :
  cache w = (InMemoryCache.delByTag tag (cache w0)).2 → invalidated tag w.
Proof. intros Hc key entry He. rewrite Hc in He. by eapply delByTag_none. Qed.

Lemma invalidated_delete tag key w0 w :
  invalidated tag w0 → cache w = delete key (cache w0) → invalidated tag w.
Proof.
  intros Hinv Hc k e He. rewrite Hc in He.
  apply lookup_delete_Some in He as [_ He]. by eapply Hinv.
Qed.

Ltac solve_invalidated :=
  munfold; wsimpl; repeat (case_match; wsimpl; simplify_eq);
  try (eapply invalidated_delByTag; reflexivity).

Lemma createIdea_invalidates req w :
  ∃ idea w', BlogIdeaService.createIdea req w = (inr idea, w')
             ∧ ideas w' !! BlogIdea.id idea = Some idea
             ∧ invalidated "ideas" w'.
Proof.
  unfold BlogIdeaService.createIdea. munfold. wsimpl.
  eexists _, _. split; [reflexivity|]. simpl. split; [apply lookup_insert_eq|].
  eapply invalidated_delByTag. reflexivity.
Qed.

Lemma updateIdea_invalidates iid u w idea w' :
  BlogIdeaService.updateIdea iid u w = (inr idea, w') → invalidated "ideas" w'.
Proof. unfold BlogIdeaService.updateIdea. intros H. solve_invalidated. Qed.

Lemma markIdeaAsUsed_invalidates iid w w' :
  BlogIdeaService.markIdeaAsUsed iid w = (inr tt, w') → invalidated "ideas" w'.
Proof. unfold BlogIdeaService.markIdeaAsUsed. intros H. solve_invalidated. Qed.

Lemma resetIdea_invalidates iid w w' :
  BlogIdeaService.resetIdea iid w = (inr tt, w') → invalidated "ideas" w'.
Proof. unfold BlogIdeaService.resetIdea. intros H. solve_invalidated. Qed.

Lemma deleteIdea_invalidates iid w w' :
  BlogIdeaService.deleteIdea iid w = (inr tt, w') → invalidated "ideas" w'.
Proof. unfold BlogIdeaService.deleteIdea. intros H. solve_invalidated. Qed.

Lemma createPost_invalidates req w :
  invalidated "posts" (BlogPostService.createPost req w).2.
Proof.
  unfold BlogPostService.createPost. munfold. wsimpl.
  eapply invalidated_delByTag. reflexivity.
Qed.

Lemma deletePost_invalidates id w w' :
  BlogPostService.deletePost id w = (inr tt, w') → invalidated "posts" w'.
Proof.
  intros H. pose proof (getPostById_fst id w) as Hfst.
  destruct (postSeen w id) as [p|] eqn:Hs.
  - destruct (deletePost_run id w p Hs) as (w1 & _ & _ & Hd).
    destruct (decide (BlogPost.status p = PUBLISHED)).
    + rewrite Hd in H. done.
    + destruct Hd as (w2 & Hd & _ & _ & Hinv). rewrite Hd in H. by simplify_eq.
  - unfold BlogPostService.deletePost in H. munfold.
    destruct (BlogPostService.getPostById id w) as [[e|p] w1]; simpl in *; done.
Qed.

(** The one writer of ideas that leaves the cache alone *)
Lemma updateIdeaStatus_keeps_cache iid s w :
  cache (BlogIdeaService.updateIdeaStatus iid s w).2 = cache w.
Proof. apply updateIdeaStatus_frame. Qed.
(** *** Ending with the tag invalidated *)

Lemma ends_bind_r {A B} tag (m : M A) (k : A → M B) :
  (∀ a, endsInvalidated tag (k a)) → endsInvalidated tag (bind m k).
Proof.
  intros Hk w r w' H. unfold bind in H.
  destruct (m w) as [[e|a] w1]; [done|]. by eapply Hk.
Qed.

Lemma ends_bind_l {A B} tag (m : M A) (k : A → M B) :
  endsInvalidated tag m → (∀ a, keepsInvalidated tag (k a)) →
  endsInvalidated tag (bind m k).
Proof.
  intros Hm Hk w r w' H. unfold bind in H.
  destruct (m w) as [[e|a] w1] eqn:E; [done|]. eapply Hk; [|done]. by eapply Hm.
Qed.

Lemma keeps_bind {A B} tag (m : M A) (k : A → M B) :
  keepsInvalidated tag m → (∀ a, keepsInvalidated tag (k a)) →
  keepsInvalidated tag (bind m k).
Proof.
  intros Hm Hk w r w' Hinv H. unfold bind in H.
  destruct (m w) as [[e|a] w1] eqn:E; [done|]. eapply Hk; [|done]. by eapply Hm.
Qed.

Lemma ends_tryLog {A} tag msg (m : M A) :
  endsInvalidated tag m → endsInvalidated tag (tryLog msg m).
Proof.
  intros Hm w r w' H. unfold tryLog, tryCatch in H.
  destruct (m w) as [[e|a] w1] eqn:E; [munfold; done|]. simplify_eq. by eapply Hm.
Qed.

Lemma ends_throw {A} tag e : endsInvalidated tag (@throw A e).
Proof. by intros w r w' H. Qed.

Lemma keeps_throw {A} tag e : keepsInvalidated tag (@throw A e).
Proof. by intros w r w' _ H. Qed.

Lemma ends_cacheDelByTag tag : endsInvalidated tag (cacheDelByTag tag).
Proof.
  intros w r w' H. munfold. simplify_eq. by eapply invalidated_delByTag.
Qed.

Lemma keeps_same_cache {A} tag (m : M A) :
  (∀ w, cache (m w).2 = cache w) → keepsInvalidated tag m.
Proof.
  intros Hc w r w' Hinv H k e He. pose proof (Hc w) as Hcw.
  rewrite H in Hcw. simpl in Hcw. rewrite Hcw in He. by eapply Hinv.
Qed.

Lemma keeps_cacheDel tag key : keepsInvalidated tag (cacheDel key).
Proof.
  intros w r w' Hinv H. munfold. simplify_eq. by eapply invalidated_delete.
Qed.

Lemma updatePost_invalidates id u w p' w' :
  BlogPostService.updatePost id u w = (inr p', w') → invalidated "posts" w'.
Proof.
  revert w p' w'. change (endsInvalidated "posts" (BlogPostService.updatePost id u)).
  unfold BlogPostService.updatePost.
  apply ends_tryLog, ends_bind_r. intros postDoc. apply ends_bind_r. intros idea.
  destruct postDoc as [postData|]; [|apply ends_throw].
  do 4 (apply ends_bind_r; intros ?).
  apply ends_bind_r. intros [updatedData|]; [|apply ends_throw].
  apply ends_bind_l; [apply ends_cacheDelByTag|]. intros _.
  apply keeps_bind; [apply keeps_cacheDel|]. intros _.
  apply keeps_bind.
  { destruct (decide _); [|by apply keeps_same_cache].
    apply keeps_bind; [|intros; by apply keeps_same_cache].
    apply keeps_same_cache. intros w. apply updateIdeaStatus_keeps_cache. }
  intros _. apply keeps_bind.
  { destruct (decide _); by apply keeps_same_cache. }
  intros _. apply keeps_bind; [by apply keeps_same_cache|].
  intros _. by apply keeps_same_cache.
Qed.
(** *** pickNextIdea *)

Lemma insertSorted_perm {A} (cmp : A → A → Z) x l : insertSorted cmp x l ≡ₚ x :: l.
Proof.
  induction l as [|y l IH]; simpl; [done|].
  destruct (decide (cmp x y <= 0)); [done|]. rewrite IH. apply Permutation_swap.
Qed.

Lemma sort_perm {A} (cmp : A → A → Z) l : sort cmp l ≡ₚ l.
Proof.
  induction l as [|x l IH]; simpl; [done|]. by rewrite insertSorted_perm, IH.
Qed.

Lemma comparePick_refl a : BlogIdeaService.comparePick a a <= 0.
Proof. unfold BlogIdeaService.comparePick. case_decide; lia. Qed.

Lemma comparePick_total a b :
  ¬ BlogIdeaService.comparePick a b <= 0 → BlogIdeaService.comparePick b a <= 0.
Proof. unfold BlogIdeaService.comparePick. repeat case_decide; lia. Qed.

Lemma comparePick_trans a b c :
  BlogIdeaService.comparePick a b <= 0 → BlogIdeaService.comparePick b c <= 0 →
  BlogIdeaService.comparePick a c <= 0.
Proof. unfold BlogIdeaService.comparePick. repeat case_decide; lia. Qed.

(** The first element of the sorted array comes before every element *)
Lemma sort_head_first l s rest :
  sort BlogIdeaService.comparePick l = s :: rest →
  ∀ y, y ∈ l → BlogIdeaService.comparePick s y <= 0.
Proof.
  revert s rest. induction l as [|x l IH]; intros s rest Hs y Hy; [by apply elem_of_nil in Hy|].
  simpl in Hs. destruct (sort BlogIdeaService.comparePick l) as [|h t] eqn:E.
  - simpl in Hs. injection Hs as <- <-.
    pose proof (sort_perm BlogIdeaService.comparePick l) as Hp. rewrite E in Hp.
    apply Permutation_nil_l in Hp. subst l.
    apply list_elem_of_singleton in Hy as ->. apply comparePick_refl.
  - simpl in Hs. apply elem_of_cons in Hy.
    destruct (decide (BlogIdeaService.comparePick x h <= 0)).
    + injection Hs as <- <-. destruct Hy as [-> | Hy]; [apply comparePick_refl|].
      eapply comparePick_trans; [done|]. by eapply IH.
    + injection Hs as <- <-. destruct Hy as [-> | Hy]; [by apply comparePick_total|].
      by eapply IH.
Qed.

Lemma filter_true {A} (f : A → bool) (l : list A) :
  (∀ x, f x = true) → List.filter f l = l.
Proof. intros Hf. induction l as [|x l IH]; simpl; [done|]. by rewrite Hf, IH. Qed.

(** With nothing cached, getUnusedIdeas answers with every stored idea,
    whatever its status. *)
Lemma getUnusedIdeas_cold w :
  cache w !! BlogIdeaService.allIdeasKey BlogIdeaService.unusedFilter = None →
  ∃ l w', BlogIdeaService.getUnusedIdeas w = (inr l, w')
          ∧ ideas w' = ideas w
          ∧ ∀ x, x ∈ l ↔ ∃ k i, ideas w !! k = Some i ∧ x = BlogIdea.withId k i.
Proof.
  intros Hc. unfold BlogIdeaService.getUnusedIdeas, BlogIdeaService.getAllIdeas.
  munfold. unfold InMemoryCache.get. rewrite Hc. wsimpl.
  eexists _, _. split; [reflexivity|]. split; [done|].
  intros x. rewrite !filter_true by done.
  rewrite sort_perm, list_elem_of_fmap. split.
  - intros ([k i] & -> & Hin). apply elem_of_map_to_list in Hin. eauto.
  - intros (k & i & Hi & ->). exists (k, i). split; [done|]. by apply elem_of_map_to_list.
Qed.

(** What pickNextIdea does with nothing cached: it takes a stored idea
    of the highest priority there is, among all the stored ideas,
    whatever their status, and stores it as PROCESSING; it answers null
    only when no idea is stored at all. *)
Lemma pickNextIdea_cold w :
  cache w !! BlogIdeaService.allIdeasKey BlogIdeaService.unusedFilter = None →
  (ideas w = ∅ → (BlogIdeaService.pickNextIdea w).1 = inr None)
  ∧ (ideas w ≠ ∅ →
     ∃ k i w', ideas w !! k = Some i
       ∧ BlogIdeaService.pickNextIdea w = (inr (Some (BlogIdea.withId k i)), w')
       ∧ ideas w' = <[k := BlogIdea.withStatus PROCESSING i]> (ideas w)
       ∧ ∀ k2 i2, ideas w !! k2 = Some i2 →
           BlogIdeaService.comparePick (BlogIdea.withId k i) (BlogIdea.withId k2 i2) <= 0).
Proof.
  intros Hc. destruct (getUnusedIdeas_cold w Hc) as (l & w0 & Hg & Hi0 & Hl).
  split.
  - intros Hempty. unfold BlogIdeaService.pickNextIdea. munfold. rewrite Hg.
    destruct l as [|a l]; [done|].
    destruct (proj1 (Hl a)) as (k & i & Hk & _); [apply list_elem_of_here|].
    by rewrite Hempty in Hk.
  - intros Hne. destruct l as [|a l].
    { destruct Hne. apply map_empty. intros k.
      destruct (ideas w !! k) as [i|] eqn:E; [|done].
      exfalso. eapply not_elem_of_nil, Hl. eauto. }
    pose proof (sort_perm BlogIdeaService.comparePick (a :: l)) as Hperm.
    destruct (sort BlogIdeaService.comparePick (a :: l)) as [|s rest] eqn:Es.
    { by apply Permutation_nil_l in Hperm. }
    assert (Hs : s ∈ a :: l) by (rewrite <- Hperm; apply list_elem_of_here).
    apply Hl in Hs as (k & i & Hk & ->).
    exists k, i.
    unfold BlogIdeaService.pickNextIdea, BlogIdeaService.updateIdeaStatus. munfold.
    rewrite Hg. cbv beta iota. rewrite Es.
    unfold withCache, withLog, withIdeas. simpl. rewrite Hi0, Hk. simpl.
    eexists. split; [done|]. split; [reflexivity|].
    simpl. split; [done|].
    intros k2 i2 Hk2. eapply sort_head_first; [exact Es|]. apply Hl. eauto.
Qed.
(** *** Operations that remove no idea and keep the idea cache well keyed *)

Lemma step_refl w : step w w.
Proof. by split. Qed.

Lemma step_trans w1 w2 w3 : step w1 w2 → step w2 w3 → step w1 w3.
Proof. intros [H1 H2] [H3 H4]. split; auto. Qed.

Lemma respects_ret {A} (a : A) : respects (ret a).
Proof. intros w. apply step_refl. Qed.

Lemma respects_throw {A} e : respects (@throw A e).
Proof. intros w. apply step_refl. Qed.

Lemma respects_bind {A B} (m : M A) (k : A → M B) :
  respects m → (∀ a, respects (k a)) → respects (bind m k).
Proof.
  intros Hm Hk w. unfold bind. pose proof (Hm w) as H1.
  destruct (m w) as [[e|a] w1]; simpl in *; [done|].
  eapply step_trans; [exact H1|]. apply Hk.
Qed.

Lemma respects_tryCatch {A} (m : M A) (h : Error → M A) :
  respects m → (∀ e, respects (h e)) → respects (tryCatch m h).
Proof.
  intros Hm Hh w. unfold tryCatch. pose proof (Hm w) as H1.
  destruct (m w) as [[e|a] w1]; simpl in *; [|done].
  eapply step_trans; [exact H1|]. apply Hh.
Qed.

Lemma respects_shrink {A} (m : M A) :
  (∀ w, ideas (m w).2 = ideas w
        ∧ ∀ k e, cache (m w).2 !! k = Some e → cache w !! k = Some e) →
  respects m.
Proof.
  intros H w. destruct (H w) as [Hi Hc]. split.
  - intros k. by rewrite Hi.
  - intros Hok iid e idea He. apply Hc in He. by eapply Hok.
Qed.

Lemma respects_logger lvl msg : respects (logger lvl msg).
Proof. apply respects_shrink. by intros w. Qed.

Lemma respects_tryLog {A} msg (m : M A) : respects m → respects (tryLog msg m).
Proof.
  intros Hm. apply respects_tryCatch; [done|]. intros e.
  apply respects_bind; [apply respects_logger|]. intros _. apply respects_throw.
Qed.

Lemma respects_cacheGet key : respects (cacheGet key).
Proof.
  apply respects_shrink. intros w. split; [done|]. intros k e. unfold cacheGet. simpl.
  unfold InMemoryCache.get. destruct (cache w !! key); [|done].
  case_decide; simpl; [|done]. intros He. by apply lookup_delete_Some in He as [_ He].
Qed.

Lemma respects_cacheDel key : respects (cacheDel key).
Proof.
  apply respects_shrink. intros w. split; [done|]. intros k e He. simpl in He.
  by apply lookup_delete_Some in He as [_ He].
Qed.

Lemma respects_cacheDelByTag tag : respects (cacheDelByTag tag).
Proof.
  apply respects_shrink. intros w. split; [done|]. intros k e He. simpl in He.
  by apply map_lookup_filter_Some in He as [He _].
Qed.

Lemma ideaKey_inj a b : BlogIdeaService.ideaKey a = BlogIdeaService.ideaKey b → a = b.
Proof. unfold BlogIdeaService.ideaKey. simpl. intros H. by injection H. Qed.

Lemma respects_cacheSet key v opts :
  (∀ j k, v = VIdea j → key = BlogIdeaService.ideaKey k → BlogIdea.id j = k) →
  respects (cacheSet key v opts).
Proof.
  intros Hv w. split; [done|]. intros Hok iid e idea He Hd. simpl in He.
  unfold InMemoryCache.set in He.
  destruct (decide (key = BlogIdeaService.ideaKey iid)) as [->|Hne].
  - rewrite lookup_insert_eq in He. injection He as <-. simpl in Hd. by eapply Hv.
  - rewrite lookup_insert_ne in He by done. by eapply Hok.
Qed.

Lemma respects_updateIdeaDoc iid f : respects (updateIdeaDoc iid f).
Proof.
  intros w. unfold updateIdeaDoc. destruct (ideas w !! iid) eqn:E; simpl; [|apply step_refl].
  split; [|done]. intros k Hk. simpl. apply lookup_insert_is_Some'. by right.
Qed.

Lemma respects_updatePostDoc id f : respects (updatePostDoc id f).
Proof.
  apply respects_shrink. intros w. unfold updatePostDoc.
  by destruct (posts w !! id).
Qed.

Lemma respects_getIdeaById iid : respects (BlogIdeaService.getIdeaById iid).
Proof.
  unfold BlogIdeaService.getIdeaById. apply respects_tryLog, respects_bind;
    [apply respects_cacheGet|].
  assert (Hmiss : respects
    (let* ideaDoc := getIdeaDoc iid in
     match ideaDoc with
     | None => throw (NotFoundError "Idea")
     | Some ideaData =>
         let idea := BlogIdea.withId iid ideaData in
         let* _ := cacheSet (BlogIdeaService.ideaKey iid) (VIdea idea)
                     BlogIdeaService.ideasCacheOptions in
         ret idea
     end)).
  { apply respects_bind; [by apply respects_shrink|]. intros [ideaData|];
      [|apply respects_throw].
    apply respects_bind; [|intros; apply respects_ret].
    apply respects_cacheSet. intros j k [= <-] Hk. by apply ideaKey_inj in Hk. }
  intros [[| |]|]; try exact Hmiss. apply respects_ret.
Qed.

Lemma respects_updateIdeaStatus iid s : respects (BlogIdeaService.updateIdeaStatus iid s).
Proof. apply respects_tryLog, respects_updateIdeaDoc. Qed.

Lemma respects_markIdeaAsUsed iid : respects (BlogIdeaService.markIdeaAsUsed iid).
Proof.
  unfold BlogIdeaService.markIdeaAsUsed. apply respects_tryLog, respects_bind;
    [by apply respects_shrink|].
  intros [ideaData|]; [|apply respects_throw].
  destruct (BlogIdea.status ideaData); try apply respects_throw.
  apply respects_bind; [apply respects_updateIdeaDoc|]. intros _.
  apply respects_bind; [apply respects_logger|]. intros _.
  apply respects_bind; [apply respects_cacheDelByTag|]. intros _. apply respects_ret.
Qed.

Lemma respects_updateIdea iid u : respects (BlogIdeaService.updateIdea iid u).
Proof.
  unfold BlogIdeaService.updateIdea. apply respects_tryLog, respects_bind;
    [by apply respects_shrink|].
  intros [ideaData|]; [|apply respects_throw].
  apply respects_bind; [by apply respects_shrink|]. intros now.
  apply respects_bind; [apply respects_updateIdeaDoc|]. intros _.
  apply respects_bind; [by apply respects_shrink|].
  intros [updatedData|]; [|apply respects_throw].
  apply respects_bind; [apply respects_cacheDelByTag|]. intros _.
  apply respects_bind; [apply respects_logger|]. intros _. apply respects_ret.
Qed.

Lemma respects_getPostById id : respects (BlogPostService.getPostById id).
Proof.
  unfold BlogPostService.getPostById. apply respects_tryLog, respects_bind;
    [apply respects_logger|]. intros _.
  apply respects_bind; [apply respects_cacheGet|].
  assert (Hmiss : respects
    (let* postDoc := getPostDoc id in
     match postDoc with
     | None =>
         let* _ := logger LogWarn "Post not found in database" in
         throw (NotFoundError ("Post with ID '" +:+ id +:+ "' not found"))
     | Some postData =>
         let post := BlogPost.withId id postData in
         let* _ := cacheSet (BlogPostService.postKey id) (VPost post)
                     BlogPostService.postsCacheOptions in
         ret post
     end)).
  { apply respects_bind; [by apply respects_shrink|]. intros [postData|].
    - apply respects_bind; [|intros; apply respects_ret].
      apply respects_cacheSet. intros j k Hj. discriminate Hj.
    - apply respects_bind; [apply respects_logger|]. intros _. apply respects_throw. }
  intros [[| |]|]; try exact Hmiss.
  apply respects_bind; [apply respects_logger|]. intros _. apply respects_ret.
Qed.

Lemma respects_getIdeaByPostId id : respects (BlogPostService.getIdeaByPostId id).
Proof.
  unfold BlogPostService.getIdeaByPostId. apply respects_bind; [by apply respects_shrink|].
  intros postDoc. destruct (Js.truthyString _); [apply respects_getIdeaById|apply respects_throw].
Qed.

Lemma respects_updatePost id u : respects (BlogPostService.updatePost id u).
Proof.
  unfold BlogPostService.updatePost. apply respects_tryLog, respects_bind;
    [by apply respects_shrink|]. intros postDoc.
  apply respects_bind; [apply respects_getIdeaByPostId|]. intros idea.
  destruct postDoc as [postData|]; [|apply respects_throw].
  apply respects_bind.
  { destruct (UpdatePostRequest.status u); [|apply respects_ret].
    destruct (decide _); [|apply respects_ret].
    unfold BlogPostService.validateStatusTransition.
    destruct (bool_decide _); [apply respects_ret|apply respects_throw]. }
  intros _. apply respects_bind; [by apply respects_shrink|]. intros now.
  apply respects_bind; [apply respects_updatePostDoc|]. intros _.
  apply respects_bind.
  { destruct (UpdatePostRequest.outline u); [|apply respects_ret].
    destruct (decide _); [|apply respects_ret].
    apply respects_bind; [apply respects_updatePostDoc|]. intros _.
    apply respects_bind; [apply respects_updateIdea|]. intros _. apply respects_logger. }
  intros _. apply respects_bind; [by apply respects_shrink|].
  intros [updatedData|]; [|apply respects_throw].
  apply respects_bind; [apply respects_cacheDelByTag|]. intros _.
  apply respects_bind; [apply respects_cacheDel|]. intros _.
  apply respects_bind.
  { destruct (decide _); [|apply respects_ret].
    apply respects_bind; [apply respects_updateIdeaStatus|]. intros _. apply respects_logger. }
  intros _. apply respects_bind.
  { destruct (decide _); [by apply respects_shrink|apply respects_ret]. }
  intros _. apply respects_bind; [apply respects_logger|]. intros _. apply respects_ret.
Qed.

Lemma respects_updatePostStatus id req : respects (BlogPostService.updatePostStatus id req).
Proof.
  unfold BlogPostService.updatePostStatus. apply respects_tryLog, respects_bind;
    [apply respects_logger|]. intros _.
  apply respects_bind; [apply respects_getPostById|]. intros post.
  apply respects_bind.
  { unfold BlogPostService.validateStatusTransition.
    destruct (bool_decide _); [apply respects_ret|apply respects_throw]. }
  intros _. apply respects_bind; [by apply respects_shrink|]. intros now.
  apply respects_bind.
  { destruct (decide _); [|apply respects_ret].
    destruct (bool_decide _); [|apply respects_ret].
    apply respects_tryCatch; [|intros; apply respects_logger].
    apply respects_bind; [apply respects_markIdeaAsUsed|]. intros _. apply respects_logger. }
  intros _. apply respects_bind; [apply respects_updatePost|]. intros updatedPost.
  apply respects_bind; [apply respects_logger|]. intros _. apply respects_ret.
Qed.
(** Publishing a stored post whose idea is stored, and publishing it
    again later, both go through. *)
Lemma publish_twice_succeeds w id q r1 r2 t2 :
  posts w !! id = Some q →
  postSeen w id = Some (BlogPost.withId id q) →
  BlogPost.ideaId q ≠ "" →
  is_Some (ideas w !! BlogPost.ideaId q) →
  ideaCacheOk w →
  PUBLISHED ∈ BlogPostService.validTransitions (BlogPost.status q) →
  UpdatePostStatusRequest.status r1 = PUBLISHED →
  UpdatePostStatusRequest.status r2 = PUBLISHED →
  ∃ pA wA pB wB,
    BlogPostService.updatePostStatus id r1 w = (inr pA, wA)
    ∧ BlogPostService.updatePostStatus id r2 (atTime t2 wA) = (inr pB, wB).
Proof.
  intros Hq Hs Hne Hi Hok Hv Hr1 Hr2.
  destruct (updatePostStatus_succeeds id r1 w q) as (pA & wA & H1); try done.
  { by rewrite Hr1. }
  exists pA, wA.
  pose proof (respects_updatePostStatus id r1 w) as [Hkeep Hcache].
  rewrite H1 in Hkeep, Hcache. simpl in Hkeep, Hcache.
  pose proof H1 as H1'.
  apply updatePostStatus_inr in H1' as (p1 & q1 & Hs1 & Hq1 & _ & _ & Hp1 & Hk1 & _).
  rewrite Hq in Hq1. injection Hq1 as <-.
  set (qA := BlogPostService.applyPostUpdate _ _ q) in Hp1.
  destruct (updatePostStatus_succeeds id r2 (atTime t2 wA) qA) as (pB & wB & H2).
  - simpl. by rewrite Hp1, lookup_insert_eq.
  - rewrite postSeen_cold by done. simpl. by rewrite Hp1, lookup_insert_eq.
  - done.
  - simpl. by apply Hkeep.
  - intros e idea He. apply (Hcache Hok _ e idea He).
  - rewrite Hr2. unfold qA. simpl. rewrite Hr1. simpl. apply list_elem_of_here.
  - by exists pB, wB.
Qed.

(** On the path of updatePostStatus alone [publishedAt] is set once.
    Let the service see under [id] a post that is not yet published,
    and let two requests for PUBLISHED follow one another, the second
    at any later clock [t2].  When they go through, the post returned
    and stored by the first carries [publishedAt] equal to the clock of
    the first request, and the post returned and stored by the second
    still carries that same [publishedAt]; neither request changes
    brief, outline, draft or seo.  And they do go through when the post
    seen is the stored one, PUBLISHED is a legal target for it, and its
    idea is stored. *)
Lemma updatePostStatus_stamps_once w id r1 r2 p :
  (BlogPostService.getPostById id w).1 = inr p →
  BlogPost.status p ≠ PUBLISHED →
  UpdatePostStatusRequest.status r1 = PUBLISHED →
  UpdatePostStatusRequest.status r2 = PUBLISHED →
  (∀ pA wA t2 pB wB,
     BlogPostService.updatePostStatus id r1 w = (inr pA, wA) →
     BlogPostService.updatePostStatus id r2 (atTime t2 wA) = (inr pB, wB) →
     BlogPost.status pA = PUBLISHED
     ∧ BlogPost.publishedAt pA = Some (clock w)
     ∧ BlogPost.publishedAt <$> posts wA !! id = Some (Some (clock w))
     ∧ BlogPost.status pB = PUBLISHED
     ∧ BlogPost.publishedAt pB = Some (clock w)
     ∧ BlogPost.publishedAt <$> posts wB !! id = Some (Some (clock w))
     ∧ (BlogPost.brief pB, BlogPost.outline pB, BlogPost.draft pB, BlogPost.seo pB)
       = (BlogPost.brief pA, BlogPost.outline pA, BlogPost.draft pA, BlogPost.seo pA)
     ∧ (∀ q, posts w !! id = Some q →
          (BlogPost.brief pA, BlogPost.outline pA, BlogPost.draft pA, BlogPost.seo pA)
          = (BlogPost.brief q, BlogPost.outline q, BlogPost.draft q, BlogPost.seo q)))
  ∧ (∀ q t2,
       posts w !! id = Some q → p = BlogPost.withId id q →
       PUBLISHED ∈ BlogPostService.validTransitions (BlogPost.status q) →
       BlogPost.ideaId q ≠ "" → is_Some (ideas w !! BlogPost.ideaId q) →
       ideaCacheOk w →
       ∃ pA wA pB wB,
         BlogPostService.updatePostStatus id r1 w = (inr pA, wA)
         ∧ BlogPostService.updatePostStatus id r2 (atTime t2 wA) = (inr pB, wB)).
Proof.
  intros Hsee Hnp Hr1 Hr2.
  apply getPostById_seen in Hsee. split.
  - intros pA wA t2 pB wB H1 H2.
    apply updatePostStatus_inr in H1 as (p1 & q1 & Hs1 & Hq1 & _ & -> & Hp1 & Hk1 & Hc1).
    rewrite Hsee in Hs1. injection Hs1 as <-.
    apply updatePostStatus_inr in H2 as (p2 & q2 & Hs2 & Hq2 & _ & -> & Hp2 & _ & _).
    rewrite postSeen_cold in Hs2 by done. simpl in Hs2, Hq2.
    rewrite Hp1, lookup_insert_eq in Hs2, Hq2. simpl in Hs2.
    injection Hs2 as <-. injection Hq2 as <-.
    rewrite Hp1, Hp2, !lookup_insert_eq.
    unfold BlogPostService.statusUpdateData. rewrite Hr1, Hr2. simpl.
    rewrite decide_True by done.
    simpl. repeat split; try done.
    intros q Hq. rewrite Hq1 in Hq. by injection Hq as <-.
  - intros q t2 Hq -> Hv Hne Hi Hok. by eapply publish_twice_succeeds.
Qed.

End ServiceFacts.

(* ===================================================================== *)
(** ** The claims on sample worlds *)
(* ===================================================================== *)

Section Samples.
Import Blog Runtime Views Examples.

Lemma ran {A} (m : M A) (w : World) (d : A) :
  (m w).1 = inr (returned d (m w).1) → m w = (inr (returned d (m w).1), (m w).2).
Proof. intros H. rewrite <- H. by destruct (m w). Qed.

(** C4 as stated fails: a DRAFT post created without an idea makes
    publishPost throw NotFound, not the error of the status guard. *)
Lemma publishPost_without_idea :
  ¬ (∀ w id p,
       (BlogPostService.getPostById id w).1 = inr p →
       BlogPost.status p ≠ APPROVED → BlogPost.status p ≠ SCHEDULED →
       (BlogPostService.publishPost id w).1 = inl BlogPostService.notPublishable).
Proof.
  intros H.
  specialize (H (worldOf [samplePost "p1" DRAFT ""] []) "p1" (samplePost "p1" DRAFT "")).
  assert (Hrun : (BlogPostService.publishPost "p1" (worldOf [samplePost "p1" DRAFT ""] [])).1
                 = inl (NotFoundError "Post with ID 'p1' has no idea ID"))
    by (vm_compute; reflexivity).
  rewrite Hrun in H.
  discriminate H; [vm_compute; reflexivity | discriminate | discriminate].
Qed.

(** A DRAFT post whose idea is stored: publishPost throws the error of
    the status guard and nothing stored changes. *)
Lemma publishPost_guard_witness :
  let w := worldOf [samplePost "p1" DRAFT "i1"] [sampleIdea "i1" PROCESSING high 100] in
  (BlogPostService.getPostById "p1" w).1 = inr (samplePost "p1" DRAFT "i1")
  ∧ ∃ w', BlogPostService.publishPost "p1" w = (inl BlogPostService.notPublishable, w')
          ∧ posts w' = posts w ∧ ideas w' = ideas w.
Proof.
  intros w.
  assert (H : (BlogPostService.getPostById "p1" w).1 = inr (samplePost "p1" DRAFT "i1"))
    by (vm_compute; reflexivity).
  split; [exact H|].
  destruct (publishPost_guard w "p1" _ H) as (_ & _ & Hguard & _).
  apply (Hguard (sampleIdea "i1" PROCESSING high 100));
    [vm_compute; reflexivity | discriminate | discriminate].
Defined.



(** An idea that is PROCESSING cannot be marked as used. *)
Lemma markIdeaAsUsed_only_from_unused_witness :
  let w := worldOf [samplePost "p1" APPROVED "i1"] [sampleIdea "i1" PROCESSING high 100] in
  ideas w !! "i1" = Some (sampleIdea "i1" PROCESSING high 100)
  ∧ ∃ w', BlogIdeaService.markIdeaAsUsed "i1" w
          = (inl (ValidationError "Idea is already processing"), w')
          ∧ ideas w' = ideas w.
Proof.
  intros w.
  assert (H : ideas w !! "i1" = Some (sampleIdea "i1" PROCESSING high 100))
    by (vm_compute; reflexivity).
  split; [exact H|].
  destruct (markIdeaAsUsed_only_from_unused w "i1" _ H) as (_ & _ & Hproc & _).
  by apply Hproc.
Defined.

(** C6 (the code departs from the claim).  With one stored idea, whose
    status is USED, pickNextIdea does not answer null: it returns that
    idea and stores it as PROCESSING.  With a PROCESSING idea of high
    priority and an UNUSED idea of low priority stored, it returns the
    PROCESSING one. *)
Theorem pickNextIdea_takes_used_idea :
  let used := sampleIdea "i1" USED low 100 in
  let held := sampleIdea "i1" PROCESSING high 100 in
  let free := sampleIdea "i2" UNUSED low 50 in
  (BlogIdeaService.pickNextIdea (worldOf [] [used])).1 = inr (Some used)
  ∧ BlogIdea.status <$> ideas (BlogIdeaService.pickNextIdea (worldOf [] [used])).2 !! "i1"
    = Some PROCESSING
  ∧ (BlogIdeaService.pickNextIdea (worldOf [] [held; free])).1 = inr (Some held).
Proof. vm_compute. repeat split. Qed.

(** C9 (the code departs from the claim).  pickNextIdea on a world with
    one UNUSED idea and an empty cache returns the idea and stores it as
    PROCESSING, but the cache entry of the unused-ideas list, tagged
    "ideas", stays, still listing the idea as UNUSED: the tag is not
    invalidated, and the next pickNextIdea returns the same idea. *)
Theorem pickNextIdea_leaves_stale_cache :
  let idea := sampleIdea "i1" UNUSED low 100 in
  let w := worldOf [] [idea] in
  let w1 := (BlogIdeaService.pickNextIdea w).2 in
  (BlogIdeaService.pickNextIdea w).1 = inr (Some idea)
  ∧ BlogIdea.status <$> ideas w1 !! "i1" = Some PROCESSING
  ∧ cache w1 !! BlogIdeaService.allIdeasKey BlogIdeaService.unusedFilter
    = Some (InMemoryCache.mkEntry (VIdeas [idea]) 301000 ["ideas"] 1000)
  ∧ ¬ invalidated "ideas" w1
  ∧ (BlogIdeaService.pickNextIdea w1).1 = inr (Some idea).
Proof.
  intros idea w w1.
  assert (Hc : cache w1 !! BlogIdeaService.allIdeasKey BlogIdeaService.unusedFilter
               = Some (InMemoryCache.mkEntry (VIdeas [idea]) 301000 ["ideas"] 1000))
    by (vm_compute; reflexivity).
  split; [vm_compute; reflexivity|]. split; [vm_compute; reflexivity|].
  split; [exact Hc|]. split; [|vm_compute; reflexivity].
  intros Hinv. apply (Hinv _ _ Hc). simpl. apply list_elem_of_here.
Qed.

End Samples.

(* ===================================================================== *)
(** ** More on the services: read-through caching, read-back, edges *)
(* ===================================================================== *)

Section ServiceMore.
Import Blog Runtime Views Coherence.

Ltac munfold :=
  unfold tryLog, tryCatch, bind, ret, throw, logger, dateNow, randomUUID,
    triggerRegenerateWebhook, getPostDoc, setPostDoc, updatePostDoc, deletePostDoc,
    getIdeaDoc, setIdeaDoc, updateIdeaDoc, deleteIdeaDoc, cacheGet, cacheSet,
    cacheDel, cacheDelByTag, cacheMutate, queryIdeasNewestFirst in *.

Ltac wsimpl :=
  unfold withPosts, withIdeas, withCache, withLog, withWebhook, atTime in *;
  simpl in *.

Ltac crush :=
  munfold; wsimpl; repeat (case_match; wsimpl; simplify_eq); simplify_option_eq; auto.

(** *** Running a sequence backwards from its result *)

Lemma bind_inr {A B} (m : M A) (k : A → M B) w b w' :
  bind m k w = (inr b, w') → ∃ a w1, m w = (inr a, w1) ∧ k a w1 = (inr b, w').
Proof.
  unfold bind. destruct (m w) as [[e|a] w1]; [done|]. eauto.
Qed.

Lemma tryLog_inr {A} msg (m : M A) w a w' :
  tryLog msg m w = (inr a, w') ↔ m w = (inr a, w').
Proof.
  unfold tryLog, tryCatch, bind, logger, throw.
  destruct (m w) as [[e|a0] w1]; simpl; split; intros; by simplify_eq.
Qed.

Lemma tryLog_inl {A} msg (m : M A) w e w1 :
  m w = (inl e, w1) → tryLog msg m w = (inl e, withLog (mkLog LogError msg) w1).
Proof. intros H. unfold tryLog, tryCatch, bind, logger, throw. by rewrite H. Qed.

Lemma cold_after_invalidation tag key w :
  (∀ e, cache w !! key = Some e → tag ∈ InMemoryCache.tags e) →
  (InMemoryCache.delByTag tag (cache w)).2 !! key = None.
Proof.
  intros Ht. rewrite delByTag_lookup.
  destruct (cache w !! key) as [e|] eqn:E; [|done].
  unfold InMemoryCache.hasTag. by rewrite bool_decide_eq_true_2 by by apply Ht.
Qed.

Lemma cold_stays_cold tag key w :
  cache w !! key = None → (InMemoryCache.delByTag tag (cache w)).2 !! key = None.
Proof. intros Hc. rewrite delByTag_lookup. by rewrite Hc. Qed.

Lemma ideas_ttl : InMemoryCache.effectiveTtl BlogIdeaService.ideasCacheOptions = 300.
Proof. done. Qed.

Lemma posts_ttl : InMemoryCache.effectiveTtl BlogPostService.postsCacheOptions = 300.
Proof. done. Qed.

(** *** getIdeaById *)

Lemma getIdeaById_cold iid w :
  cache w !! BlogIdeaService.ideaKey iid = None →
  BlogIdeaService.getIdeaById iid w
  = match ideas w !! iid with
    | None => (inl (NotFoundError "Idea"),
               withLog (mkLog LogError "Failed to get idea by ID:") w)
    | Some i =>
        (inr (BlogIdea.withId iid i),
         withCache (InMemoryCache.set (clock w) (BlogIdeaService.ideaKey iid)
                      (VIdea (BlogIdea.withId iid i))
                      BlogIdeaService.ideasCacheOptions (cache w)) w)
    end.
Proof.
  intros Hc. destruct w. unfold BlogIdeaService.getIdeaById. munfold. wsimpl.
  unfold InMemoryCache.get. rewrite Hc. simpl.
  by destruct (ideas0 !! iid).
Qed.

Lemma getIdeaById_hit iid w e idea :
  cache w !! BlogIdeaService.ideaKey iid = Some e →
  clock w <= InMemoryCache.expiresAt e →
  InMemoryCache.data e = VIdea idea →
  (BlogIdeaService.getIdeaById iid w).1 = inr idea.
Proof.
  intros He Hle Hd. unfold BlogIdeaService.getIdeaById. munfold. wsimpl.
  rewrite (get_unexpired _ _ _ _ He) by done. simpl. by rewrite Hd.
Qed.

(** X14. getIdeaById reads through the cache.  With nothing cached
    under the key of the idea: a missing idea is a NotFoundError
    ("Idea") and nothing is cached for it; a stored idea is returned
    with the id of its document and cached for 300 seconds, so that any
    later getIdeaById up to that instant answers with that same idea,
    whatever the store holds by then. *)
Theorem getIdeaById_reads_through iid w :
  cache w !! BlogIdeaService.ideaKey iid = None →
  (ideas w !! iid = None →
     ∃ w1, BlogIdeaService.getIdeaById iid w = (inl (NotFoundError "Idea"), w1)
           ∧ cache w1 = cache w ∧ ideas w1 = ideas w ∧ posts w1 = posts w)
  ∧ (∀ i, ideas w !! iid = Some i →
     ∃ w1, BlogIdeaService.getIdeaById iid w = (inr (BlogIdea.withId iid i), w1)
       ∧ ideas w1 = ideas w ∧ posts w1 = posts w
       ∧ ∀ w2, cache w2 = cache w1 → clock w2 <= clock w + 300000 →
               (BlogIdeaService.getIdeaById iid w2).1 = inr (BlogIdea.withId iid i)).
Proof.
  intros Hc. rewrite (getIdeaById_cold iid w Hc). split.
  - intros ->. eexists. split; [done|]. done.
  - intros i ->. eexists. split; [done|]. split; [done|]. split; [done|].
    intros w2 Hc2 Hle.
    eapply getIdeaById_hit.
    + rewrite Hc2. simpl. apply set_lookup.
    + cbn [InMemoryCache.expiresAt]. rewrite ideas_ttl. lia.
    + done.
Qed.

(** *** The idea writers *)

(** X15. createIdea, for a request that carries the members
    CreateIdeaRequest declares (a status among them) and whose strings
    are ASCII, the store accepting the write.  It returns an idea that
    carries the next UUID, the creation instant of the clock, the
    status and priority of the request, the trimmed topic, persona and
    goal, and the trimmed, lower-cased tags; the idea is stored under
    its id, no post is touched, and, the entries under idea keys being
    tagged, a getIdeaById of that id right afterwards returns the same
    idea. *)
Theorem createIdea_round_trip req w :
  asciiCreateIdea req = true →
  ideaKeysTagged w →
  ∃ idea w1,
    BlogIdeaService.createIdea req w = (inr idea, w1)
    ∧ BlogIdea.id idea = uuidSource w (uuidCount w)
    ∧ BlogIdea.createdAt idea = clock w
    ∧ BlogIdea.status idea = CreateIdeaRequest.status req
    ∧ BlogIdea.priority idea = CreateIdeaRequest.priority req
    ∧ BlogIdea.topic idea = Js.trim (CreateIdeaRequest.topic req)
    ∧ BlogIdea.persona idea = Js.trim (CreateIdeaRequest.persona req)
    ∧ BlogIdea.goal idea = Js.trim (CreateIdeaRequest.goal req)
    ∧ BlogIdea.tags idea
      = Some (default [] (map BlogIdeaService.cleanTag <$> CreateIdeaRequest.tags req))
    ∧ ideas w1 = <[BlogIdea.id idea := idea]> (ideas w)
    ∧ posts w1 = posts w
    ∧ (BlogIdeaService.getIdeaById (BlogIdea.id idea) w1).1 = inr idea.
Proof.
  intros _ Ht. unfold BlogIdeaService.createIdea. munfold. wsimpl.
  eexists _, _. split; [reflexivity|]. simpl.
  do 10 (split; [done|]).
  rewrite getIdeaById_cold.
  - simpl. by rewrite lookup_insert_eq.
  - simpl. apply cold_after_invalidation. intros e. apply Ht.
Qed.

(** X16. updateIdea, for an update whose strings are ASCII.  For an id
    that is not stored it throws NotFoundError ("Idea") and leaves store
    and cache as they were.  For a stored idea it applies the update
    (strings trimmed, tags trimmed and lower-cased), stamps [updatedAt]
    with the clock, and returns the stored result, whose id and
    [createdAt] are those of the stored idea; the entries under idea
    keys being tagged, a getIdeaById right afterwards returns that same
    updated idea, not an older cached copy. *)
Theorem updateIdea_read_back iid u w :
  asciiUpdateIdea u = true →
  ideaKeysTagged w →
  (ideas w !! iid = None →
     ∃ w1, BlogIdeaService.updateIdea iid u w = (inl (NotFoundError "Idea"), w1)
           ∧ ideas w1 = ideas w ∧ posts w1 = posts w ∧ cache w1 = cache w)
  ∧ (∀ i, ideas w !! iid = Some i →
     ∃ w1,
       let stored := BlogIdeaService.applyIdeaUpdate u (clock w) i in
       BlogIdeaService.updateIdea iid u w = (inr (BlogIdea.withId iid stored), w1)
       ∧ ideas w1 = <[iid := stored]> (ideas w)
       ∧ posts w1 = posts w
       ∧ BlogIdea.createdAt stored = BlogIdea.createdAt i
       ∧ BlogIdea.updatedAt stored = Some (clock w)
       ∧ (BlogIdeaService.getIdeaById iid w1).1 = inr (BlogIdea.withId iid stored)).
Proof.
  intros _ Ht. split.
  - intros Hn. unfold BlogIdeaService.updateIdea. munfold. wsimpl. rewrite Hn.
    eexists. split; [reflexivity|]. done.
  - intros i Hi. unfold BlogIdeaService.updateIdea. munfold. wsimpl.
    repeat (rewrite Hi; wsimpl). rewrite lookup_insert_eq.
    eexists. split; [reflexivity|]. simpl. do 4 (split; [done|]).
    rewrite getIdeaById_cold.
    + simpl. by rewrite lookup_insert_eq.
    + simpl. apply cold_after_invalidation. intros e. apply Ht.
Qed.

(** X17. resetIdea does not change the status.  On a stored idea it
    succeeds, writes [used: false] and [updatedAt], and leaves every
    other member (id, status, topic, persona, goal, targetAudience,
    priority, difficulty, createdAt, tags, notes, isBriefCreated,
    isApproved, isPublished) and every other idea as they were; so an
    idea that was USED or PROCESSING is still refused by markIdeaAsUsed
    after the reset.  On an id that is not stored it throws
    NotFoundError ("Idea"). *)
Theorem resetIdea_keeps_status iid w :
  (ideas w !! iid = None →
     ∃ w1, BlogIdeaService.resetIdea iid w = (inl (NotFoundError "Idea"), w1)
           ∧ ideas w1 = ideas w)
  ∧ (∀ i, ideas w !! iid = Some i →
     ∃ w1 i1,
       BlogIdeaService.resetIdea iid w = (inr tt, w1)
       ∧ ideas w1 = <[iid := i1]> (ideas w)
       ∧ BlogIdea.status i1 = BlogIdea.status i
       ∧ BlogIdea.used i1 = Some false
       ∧ BlogIdea.updatedAt i1 = Some (clock w)
       ∧ (BlogIdea.id i1, BlogIdea.topic i1, BlogIdea.persona i1, BlogIdea.goal i1,
          BlogIdea.targetAudience i1, BlogIdea.priority i1, BlogIdea.difficulty i1,
          BlogIdea.createdAt i1, BlogIdea.tags i1, BlogIdea.notes i1,
          BlogIdea.isBriefCreated i1, BlogIdea.isApproved i1, BlogIdea.isPublished i1)
         = (BlogIdea.id i, BlogIdea.topic i, BlogIdea.persona i, BlogIdea.goal i,
            BlogIdea.targetAudience i, BlogIdea.priority i, BlogIdea.difficulty i,
            BlogIdea.createdAt i, BlogIdea.tags i, BlogIdea.notes i,
            BlogIdea.isBriefCreated i, BlogIdea.isApproved i, BlogIdea.isPublished i)
       ∧ posts w1 = posts w
       ∧ (BlogIdea.status i ≠ UNUSED →
          ∃ m w2, BlogIdeaService.markIdeaAsUsed iid w1 = (inl (ValidationError m), w2))).
Proof.
  split.
  - intros Hn. unfold BlogIdeaService.resetIdea. munfold. wsimpl. rewrite Hn.
    eexists. split; [reflexivity|]. done.
  - intros i Hi. unfold BlogIdeaService.resetIdea. munfold. wsimpl.
    repeat (rewrite Hi; wsimpl). eexists _, _. split; [reflexivity|]. simpl.
    do 6 (split; [done|]).
    intros Hs. unfold BlogIdeaService.markIdeaAsUsed. munfold. wsimpl.
    rewrite lookup_insert_eq. simpl.
    destruct (BlogIdea.status i); [done| |]; eauto.
Qed.

(** X18. deleteIdea and a lookup afterwards.  Deleting a stored idea
    that is not USED succeeds and removes that document only; the
    entries under idea keys being tagged, a getIdeaById of the id right
    afterwards throws NotFoundError ("Idea") instead of answering from
    the cache.  For an id that is not stored deleteIdea throws
    NotFoundError ("Idea"). *)
Theorem deleteIdea_then_lookup iid w :
  ideaKeysTagged w →
  (ideas w !! iid = None →
     ∃ w1, BlogIdeaService.deleteIdea iid w = (inl (NotFoundError "Idea"), w1)
           ∧ ideas w1 = ideas w)
  ∧ (∀ i, ideas w !! iid = Some i → BlogIdea.status i ≠ USED →
     ∃ w1 w2,
       BlogIdeaService.deleteIdea iid w = (inr tt, w1)
       ∧ ideas w1 = delete iid (ideas w)
       ∧ posts w1 = posts w
       ∧ BlogIdeaService.getIdeaById iid w1 = (inl (NotFoundError "Idea"), w2)).
Proof.
  intros Ht. split.
  - intros Hn. unfold BlogIdeaService.deleteIdea. munfold. wsimpl. rewrite Hn.
    eexists. split; [reflexivity|]. done.
  - intros i Hi Hs. unfold BlogIdeaService.deleteIdea. munfold. wsimpl.
    repeat (rewrite Hi; wsimpl).
    destruct (decide (BlogIdea.status i = USED)); [done|]. wsimpl.
    eexists _, _. split; [reflexivity|]. simpl. do 2 (split; [done|]).
    rewrite getIdeaById_cold.
    + simpl. rewrite lookup_delete_eq. reflexivity.
    + simpl. apply cold_after_invalidation. intros e. apply Ht.
Qed.

(** *** getAllIdeas *)

Lemma elem_of_List_filter {A} (f : A → bool) (l : list A) x :
  x ∈ List.filter f l ↔ x ∈ l ∧ f x = true.
Proof.
  induction l as [|y l IH]; simpl.
  - split; [by intros ?%elem_of_nil|by intros [?%elem_of_nil _]].
  - destruct (f y) eqn:E; rewrite ?elem_of_cons, IH; split.
    + intros [->|[? ?]]; auto.
    + intros [[->|?] ?]; auto.
    + intros [? ?]; auto.
    + intros [[->|?] ?]; [congruence|auto].
Qed.

Lemma Forall_List_filter {A} (P : A → Prop) (f : A → bool) (l : list A) :
  Forall P l → Forall P (List.filter f l).
Proof.
  induction 1 as [|y l Hy Hl IH]; simpl; [done|]. destruct (f y); auto.
Qed.

Lemma newestFirst_filter f l : newestFirst l → newestFirst (List.filter f l).
Proof.
  induction l as [|a l IH]; simpl; [done|]. intros [Ha Hl].
  destruct (f a); simpl; auto using Forall_List_filter.
Qed.

Lemma newestFirst_insert x l :
  newestFirst l →
  newestFirst (insertSorted (λ a b, BlogIdea.createdAt b - BlogIdea.createdAt a) x l).
Proof.
  induction l as [|y l IH]; simpl; [done|]. intros [Hy Hl].
  destruct (decide (BlogIdea.createdAt y - BlogIdea.createdAt x <= 0)) as [Hle|Hgt]; simpl.
  - split; [|done]. constructor; [lia|].
    eapply Forall_impl; [exact Hy|]. simpl. intros b Hb. lia.
  - split; [|by apply IH]. rewrite insertSorted_perm. constructor; [lia|done].
Qed.

Lemma newestFirst_sort l :
  newestFirst (sort (λ a b, BlogIdea.createdAt b - BlogIdea.createdAt a) l).
Proof. induction l as [|x l IH]; simpl; [done|]. by apply newestFirst_insert. Qed.

(** X19. What getAllIdeas answers, when the strings of the filters are
    printable ASCII and the topic, persona, goal and tags of the stored
    ideas are ASCII.  With nothing cached under the key of the filters,
    the result holds exactly the stored ideas (each with the id of its
    document) that pass the priority, tags and search filters, newest
    first; nothing is written to the store; and the result is cached
    for 300 seconds, so that a getAllIdeas with the same filters up to
    that instant answers with the same list whatever the store holds by
    then. *)
Theorem getAllIdeas_result filters w :
  printableFilters filters = true →
  (∀ k i, ideas w !! k = Some i → asciiIdea i = true) →
  cache w !! BlogIdeaService.allIdeasKey filters = None →
  ∃ l w1,
    BlogIdeaService.getAllIdeas filters w = (inr l, w1)
    ∧ ideas w1 = ideas w ∧ posts w1 = posts w
    ∧ (∀ x, x ∈ l ↔ ∃ k i, ideas w !! k = Some i ∧ x = BlogIdea.withId k i
                           ∧ passesFilters filters x = true)
    ∧ newestFirst l
    ∧ (∀ w2, cache w2 = cache w1 → clock w2 <= clock w + 300000 →
             (BlogIdeaService.getAllIdeas filters w2).1 = inr l).
Proof.
  intros _ _ Hc. unfold BlogIdeaService.getAllIdeas at 1.
  munfold. cbv zeta. unfold InMemoryCache.get at 1. rewrite Hc. wsimpl.
  eexists _, _. split; [reflexivity|]. simpl. split; [done|]. split; [done|].
  split; [|split].
  - intros x. rewrite !elem_of_List_filter, sort_perm, list_elem_of_fmap.
    split.
    + intros (((([k i] & -> & Hin) & Hp) & Ht) & Hs).
      apply elem_of_map_to_list in Hin. exists k, i.
      split; [done|]. split; [done|]. unfold passesFilters.
      apply andb_true_iff. split; [apply andb_true_iff; split|].
      * exact Hp.
      * exact Ht.
      * exact Hs.
    + intros (k & i & Hi & -> & Hpass). unfold passesFilters in Hpass.
      apply andb_true_iff in Hpass as [[Hp Ht]%andb_true_iff Hs].
      repeat split; try done. exists (k, i). split; [done|].
      by apply elem_of_map_to_list.
  - do 3 apply newestFirst_filter. apply newestFirst_sort.
  - intros w2 Hc2 Hle. unfold BlogIdeaService.getAllIdeas.
    unfold tryLog, tryCatch, bind at 1, cacheGet.
    rewrite Hc2.
    erewrite get_unexpired; [| apply set_lookup |].
    + done.
    + cbn [InMemoryCache.expiresAt]. rewrite ideas_ttl. lia.
Qed.

(** *** getPostById and createPost *)

Lemma getPostById_cold id w :
  cache w !! BlogPostService.postKey id = None →
  (∀ q, posts w !! id = Some q →
     BlogPostService.getPostById id w
     = (inr (BlogPost.withId id q),
        withCache (InMemoryCache.set (clock w) (BlogPostService.postKey id)
                     (VPost (BlogPost.withId id q))
                     BlogPostService.postsCacheOptions (cache w))
          (withLog (mkLog LogInfo "Fetching post by ID") w)))
  ∧ (posts w !! id = None →
     BlogPostService.getPostById id w
     = (inl (NotFoundError ("Post with ID '" +:+ id +:+ "' not found")),
        withLog (mkLog LogError "Failed to get post by ID:")
          (withLog (mkLog LogWarn "Post not found in database")
             (withLog (mkLog LogInfo "Fetching post by ID") w)))).
Proof.
  intros Hc. destruct w. unfold BlogPostService.getPostById. munfold. wsimpl.
  unfold InMemoryCache.get. rewrite Hc. simpl.
  split; [intros q Hq|intros Hq]; by rewrite Hq.
Qed.

Lemma getPostById_hit id w e post :
  cache w !! BlogPostService.postKey id = Some e →
  clock w <= InMemoryCache.expiresAt e →
  InMemoryCache.data e = VPost post →
  (BlogPostService.getPostById id w).1 = inr post.
Proof.
  intros He Hle Hd. apply getPostById_seen. unfold postSeen.
  rewrite (get_unexpired _ _ _ _ He) by done. simpl. by rewrite Hd.
Qed.

(** X20. getPostById reads through the cache.  With nothing cached
    under the key of the post: a missing post is a NotFoundError (status
    404) whose message is the resource text followed by " not found",
    and nothing is cached for it; a stored post is returned with the id
    of its document and cached for 300 seconds, so that any later
    getPostById up to that instant answers with that same post,
    whatever the store holds by then.  Neither case writes to the
    store. *)
Theorem getPostById_reads_through id w :
  cache w !! BlogPostService.postKey id = None →
  (posts w !! id = None →
     ∃ e w1, BlogPostService.getPostById id w = (inl e, w1)
       ∧ e = NotFoundError ("Post with ID '" +:+ id +:+ "' not found")
       ∧ errorMessage e = ("Post with ID '" +:+ id +:+ "' not found") +:+ " not found"
       ∧ statusCode e = 404
       ∧ cache w1 = cache w ∧ posts w1 = posts w ∧ ideas w1 = ideas w)
  ∧ (∀ q, posts w !! id = Some q →
     ∃ w1, BlogPostService.getPostById id w = (inr (BlogPost.withId id q), w1)
       ∧ posts w1 = posts w ∧ ideas w1 = ideas w
       ∧ ∀ w2, cache w2 = cache w1 → clock w2 <= clock w + 300000 →
               (BlogPostService.getPostById id w2).1 = inr (BlogPost.withId id q)).
Proof.
  intros Hc. destruct (getPostById_cold id w Hc) as [Hsome Hnone]. split.
  - intros Hq. rewrite (Hnone Hq). eexists _, _. split; [reflexivity|]. done.
  - intros q Hq. rewrite (Hsome q Hq). eexists. split; [reflexivity|].
    split; [done|]. split; [done|]. intros w2 Hc2 Hle.
    eapply getPostById_hit.
    + rewrite Hc2. simpl. apply set_lookup.
    + cbn [InMemoryCache.expiresAt]. rewrite posts_ttl. simpl. lia.
    + done.
Qed.

(** X21. createPost and a lookup afterwards.  createPost never throws
    and touches no idea; the post it stores has its [ideaId] taken from
    the request (the empty string when the request has none) and no
    [htmlContent]; and, nothing being cached under the key of the new
    id, a getPostById of that id right afterwards returns the post
    createPost returned. *)
Theorem createPost_round_trip req w :
  cache w !! BlogPostService.postKey (uuidSource w (uuidCount w)) = None →
  ∃ p w1,
    BlogPostService.createPost req w = (inr p, w1)
    ∧ BlogPost.id p = uuidSource w (uuidCount w)
    ∧ BlogPost.ideaId p = default "" (Js.truthyString (CreatePostRequest.ideaId req))
    ∧ BlogPost.htmlContent p = None
    ∧ ideas w1 = ideas w
    ∧ (∀ k, k ≠ BlogPost.id p → posts w1 !! k = posts w !! k)
    ∧ (BlogPostService.getPostById (BlogPost.id p) w1).1 = inr p.
Proof.
  intros Hc. unfold BlogPostService.createPost. munfold. wsimpl.
  eexists _, _. split; [reflexivity|]. simpl.
  do 4 (split; [done|]). split.
  - intros k Hk. by rewrite lookup_insert_ne.
  - apply getPostById_seen. rewrite postSeen_cold.
    + simpl. by rewrite lookup_insert_eq.
    + simpl. by apply cold_stays_cold.
Qed.

(** *** updatePost *)

Lemma updateIdea_inr iid u w r w1 :
  BlogIdeaService.updateIdea iid u w = (inr r, w1) →
  ∃ i, ideas w !! iid = Some i
     ∧ ideas w1 = <[iid := BlogIdeaService.applyIdeaUpdate u (clock w) i]> (ideas w)
     ∧ posts w1 = posts w ∧ clock w1 = clock w.
Proof.
  unfold BlogIdeaService.updateIdea. munfold. wsimpl.
  destruct (ideas w !! iid) as [i|] eqn:Hi; wsimpl; [|done].
  rewrite Hi. wsimpl. rewrite lookup_insert_eq. intros [= <- <-]. eauto.
Qed.

Lemma updateIdeaStatus_inr iid s w w1 :
  BlogIdeaService.updateIdeaStatus iid s w = (inr tt, w1) →
  ∃ i, ideas w !! iid = Some i
     ∧ ideas w1 = <[iid := BlogIdea.withStatus s i]> (ideas w)
     ∧ posts w1 = posts w ∧ cache w1 = cache w ∧ clock w1 = clock w.
Proof.
  unfold BlogIdeaService.updateIdeaStatus. munfold. wsimpl.
  destruct (ideas w !! iid) as [i|] eqn:Hi; wsimpl; [|done].
  intros [= <-]. exists i. done.
Qed.

Lemma validate_guard_inr (ns : option PostStatus) cur w w1 :
  match ns with
  | Some newStatus =>
      if decide (newStatus ≠ cur)
      then BlogPostService.validateStatusTransition cur newStatus
      else ret tt
  | None => ret tt
  end w = (inr tt, w1) →
  w1 = w ∧ ∀ newStatus, ns = Some newStatus → newStatus ≠ cur →
                        newStatus ∈ BlogPostService.validTransitions cur.
Proof.
  destruct ns as [n|]; [destruct (decide (n ≠ cur)) as [Hne|He]|].
  - unfold BlogPostService.validateStatusTransition. case_bool_decide; munfold; [|done].
    intros [= <-]. split; [done|]. by intros ? [= <-] _.
  - munfold. intros [= <-]. split; [done|]. intros ? [= <-] ?. done.
  - munfold. intros [= <-]. split; [done|]. done.
Qed.

(** What a successful updatePost has done.  [advance] is the automatic
    move from BRIEF to OUTLINE. *)
Lemma updatePost_result id u w p' w' :
  BlogPostService.updatePost id u w = (inr p', w') →
  ∃ q idea w0,
    posts w !! id = Some q
    ∧ BlogPostService.getIdeaByPostId id w = (inr idea, w0)
    ∧ let advance :=
        bool_decide (is_Some (UpdatePostRequest.outline u) ∧ BlogPost.status q = BRIEF) in
      let updated := BlogPostService.applyPostUpdate u (clock w) q in
      let stored := if advance then BlogPostService.setStatus OUTLINE updated else updated in
      p' = BlogPost.withId id stored
      ∧ posts w' = <[id := stored]> (posts w)
      ∧ cache w' !! BlogPostService.postKey id = None
      ∧ clock w' = clock w
      ∧ (∀ ns, UpdatePostRequest.status u = Some ns → ns ≠ BlogPost.status q →
               ns ∈ BlogPostService.validTransitions (BlogPost.status q))
      ∧ (∀ k, k ≠ BlogIdea.id idea → ideas w' !! k = ideas w !! k)
      ∧ (advance = true →
         ∃ i', ideas w' !! BlogIdea.id idea = Some i'
               ∧ BlogIdea.isBriefCreated i' = Some true)
      ∧ (BlogPost.status stored = PUBLISHED →
         ∃ i', ideas w' !! BlogIdea.id idea = Some i' ∧ BlogIdea.status i' = USED).
Proof.
  intros H. unfold BlogPostService.updatePost in H. apply tryLog_inr in H.
  apply bind_inr in H as (postDoc & w1 & H1 & H).
  unfold getPostDoc in H1. injection H1 as <- <-.
  apply bind_inr in H as (idea & w0 & Hg & H).
  pose proof (getIdeaByPostId_frame id w) as (Hp0 & Hi0 & Hc0).
  rewrite Hg in Hp0, Hi0, Hc0. simpl in Hp0, Hi0, Hc0.
  destruct (posts w !! id) as [q|] eqn:Eq; [|done].
  exists q, idea, w0. split; [done|]. split; [done|].
  cbv beta iota zeta in H.
  apply bind_inr in H as ([] & w2 & Hv & H).
  apply validate_guard_inr in Hv as [-> Hvalid].
  apply bind_inr in H as (now & w3 & Hn & H).
  unfold dateNow in Hn. injection Hn as <- <-. rewrite Hc0 in H.
  apply bind_inr in H as ([] & w4 & Hu & H).
  unfold updatePostDoc in Hu. rewrite Hp0, Eq in Hu. injection Hu as <-.
  apply bind_inr in H as ([] & w5 & Ha & H).
  set (updated := BlogPostService.applyPostUpdate u (clock w) q) in *.
  set (advance := bool_decide (is_Some (UpdatePostRequest.outline u)
                               ∧ BlogPost.status q = BRIEF)).
  set (stored := if advance then BlogPostService.setStatus OUTLINE updated else updated).
  assert (Hw5 : posts w5 = <[id := stored]> (posts w)
                ∧ clock w5 = clock w
                ∧ (∀ k, k ≠ BlogIdea.id idea → ideas w5 !! k = ideas w !! k)
                ∧ (advance = true →
                   ∃ i', ideas w5 !! BlogIdea.id idea = Some i'
                         ∧ BlogIdea.isBriefCreated i' = Some true)).
  { destruct (UpdatePostRequest.outline u) as [o|] eqn:Eo;
      [destruct (decide (BlogPost.status (BlogPost.withId id q) = BRIEF)) as [Hb|Hb]|].
    - assert (Hadv : advance = true).
      { unfold advance. apply bool_decide_eq_true. split; [eauto|exact Hb]. }
      apply bind_inr in Ha as ([] & w4a & Hs & Ha).
      unfold updatePostDoc, withPosts in Hs. simpl in Hs.
      rewrite lookup_insert_eq in Hs. injection Hs as <-.
      apply bind_inr in Ha as (r & w4b & Hui & Ha).
      apply updateIdea_inr in Hui as (i & Hi & Hi' & Hp' & Hc').
      unfold logger in Ha. injection Ha as <-.
      unfold stored. rewrite Hadv. simpl in Hi, Hi', Hp', Hc' |- *.
      rewrite Hp', Hp0, insert_insert_eq, Hc', Hc0.
      split; [done|]. split; [done|]. split.
      + intros k Hk. rewrite Hi', lookup_insert_ne by done. by rewrite Hi0.
      + intros _. rewrite Hi', lookup_insert_eq. eexists. split; [done|]. done.
    - assert (Hadv : advance = false).
      { unfold advance. apply bool_decide_eq_false. intros [_ ?]. by apply Hb. }
      unfold ret in Ha. injection Ha as <-.
      unfold stored. rewrite Hadv. unfold withPosts. simpl.
      rewrite Hp0, Hc0. split; [done|]. split; [done|].
      split; [by intros; rewrite Hi0|done].
    - assert (Hadv : advance = false).
      { unfold advance. apply bool_decide_eq_false. by intros [[? ?] _]. }
      unfold ret in Ha. injection Ha as <-.
      unfold stored. rewrite Hadv. unfold withPosts. simpl.
      rewrite Hp0, Hc0. split; [done|]. split; [done|].
      split; [by intros; rewrite Hi0|done]. }
  clear Ha. destruct Hw5 as (Hp5 & Hc5 & Hi5 & Hadv5).
  apply bind_inr in H as (updatedDoc & w6 & Hd & H).
  unfold getPostDoc in Hd. injection Hd as <- <-.
  rewrite Hp5, lookup_insert_eq in H. cbv beta iota zeta in H.
  apply bind_inr in H as (n1 & w7 & Hd1 & H).
  unfold cacheDelByTag in Hd1. injection Hd1 as <- <-.
  apply bind_inr in H as (n2 & w8 & Hd2 & H).
  unfold cacheDel in Hd2. injection Hd2 as <- <-.
  apply bind_inr in H as ([] & w9 & Hpub & H).
  assert (Hw9 : posts w9 = posts w5 ∧ clock w9 = clock w5
                ∧ cache w9 !! BlogPostService.postKey id = None
                ∧ (∀ k, k ≠ BlogIdea.id idea → ideas w9 !! k = ideas w5 !! k)
                ∧ (is_Some (ideas w5 !! BlogIdea.id idea) →
                   is_Some (ideas w9 !! BlogIdea.id idea))
                ∧ (∀ i5 i9, ideas w5 !! BlogIdea.id idea = Some i5 →
                            ideas w9 !! BlogIdea.id idea = Some i9 →
                            BlogIdea.isBriefCreated i9 = BlogIdea.isBriefCreated i5)
                ∧ (BlogPost.status stored = PUBLISHED →
                   ∃ i', ideas w9 !! BlogIdea.id idea = Some i'
                         ∧ BlogIdea.status i' = USED)).
  { destruct (decide (BlogPost.status (BlogPost.withId id stored) = PUBLISHED)) as [Hpb|Hpb].
    - apply bind_inr in Hpub as ([] & w8a & Hs & Hpub).
      apply updateIdeaStatus_inr in Hs as (i & Hi & Hi' & Hp' & Hcc' & Hc').
      unfold logger in Hpub. injection Hpub as <-.
      unfold withCache, withLog in *. simpl in Hi, Hi', Hp', Hcc', Hc' |- *.
      rewrite Hp', Hc', Hcc'. split; [done|]. split; [done|].
      split; [apply lookup_delete_eq|]. split.
      { intros k Hk. by rewrite Hi', lookup_insert_ne. }
      split; [intros _; rewrite Hi', lookup_insert_eq; eauto|].
      split.
      { intros i5 i9 H5 H9. rewrite Hi', lookup_insert_eq in H9.
        rewrite Hi in H5. by simplify_eq. }
      intros _. rewrite Hi', lookup_insert_eq. eauto.
    - unfold ret in Hpub. injection Hpub as <-.
      unfold withCache. simpl.
      split; [done|]. split; [done|]. split; [apply lookup_delete_eq|].
      split; [done|]. split; [done|]. split; [intros; by simplify_eq|done]. }
  clear Hpub. destruct Hw9 as (Hp9 & Hc9 & Hk9 & Hi9 & Hs9 & Hb9 & Hu9).
  apply bind_inr in H as ([] & w10 & Hre & H).
  assert (Hw10 : posts w10 = posts w9 ∧ clock w10 = clock w9 ∧ cache w10 = cache w9
                 ∧ ideas w10 = ideas w9).
  { destruct (decide (UpdatePostRequest.status u = Some REGENRATE)).
    - unfold triggerRegenerateWebhook in Hre. by injection Hre as <-.
    - unfold ret in Hre. by injection Hre as <-. }
  clear Hre. destruct Hw10 as (Hp10 & Hc10 & Hk10 & Hi10).
  apply bind_inr in H as ([] & w11 & Hlog & H).
  unfold logger in Hlog. injection Hlog as <-.
  unfold ret in H. injection H as <- <-. unfold withLog. simpl.
  rewrite Hp10, Hp9, Hc10, Hc9, Hk10, Hi10.
  split; [done|]. split; [done|]. split; [done|]. split; [done|].
  split; [exact Hvalid|]. split.
  { intros k Hk. rewrite Hi9 by done. by apply Hi5. }
  split.
  { intros Ha. destruct (Hadv5 Ha) as (i5 & H5 & Hb5).
    destruct (Hs9 (ex_intro _ i5 H5)) as [i9 H9].
    exists i9. split; [done|]. by rewrite (Hb9 i5 i9 H5 H9). }
  exact Hu9.
Qed.


Lemma getIdeaByPostId_stored id w q :
  posts w !! id = Some q → BlogPost.ideaId q ≠ "" →
  BlogPostService.getIdeaByPostId id w = BlogIdeaService.getIdeaById (BlogPost.ideaId q) w.
Proof.
  intros Hq Hne. unfold BlogPostService.getIdeaByPostId, bind, getPostDoc.
  rewrite Hq. destruct (BlogPost.ideaId q) as [|a s] eqn:Ei; [done|].
  cbn. by rewrite Ei.
Qed.

(** X22. Reading back after updatePost.  When updatePost returns, the
    post it returns is the document now stored under the id, with that
    id, with [updatedAt] the clock and with [createdAt] as it was; no
    other post has changed; nothing is cached under the key of the post
    any more, so a getPostById right afterwards returns exactly the
    post updatePost returned. *)
Theorem updatePost_read_back id u w p' w' :
  BlogPostService.updatePost id u w = (inr p', w') →
  BlogPost.id p' = id
  ∧ BlogPost.updatedAt p' = clock w
  ∧ (∃ stored, posts w' !! id = Some stored ∧ p' = BlogPost.withId id stored)
  ∧ (∃ q, posts w !! id = Some q ∧ BlogPost.createdAt p' = BlogPost.createdAt q)
  ∧ (∀ k, k ≠ id → posts w' !! k = posts w !! k)
  ∧ postSeen w' id = Some p'
  ∧ (BlogPostService.getPostById id w').1 = inr p'.
Proof.
  intros H. apply updatePost_result in H
    as (q & idea & w0 & Hq & _ & -> & Hp & Hc & _).
  assert (Hseen : postSeen w' id
    = Some (BlogPost.withId id
              (if bool_decide (is_Some (UpdatePostRequest.outline u)
                               ∧ BlogPost.status q = BRIEF)
               then BlogPostService.setStatus OUTLINE
                      (BlogPostService.applyPostUpdate u (clock w) q)
               else BlogPostService.applyPostUpdate u (clock w) q))).
  { rewrite postSeen_cold by done. by rewrite Hp, lookup_insert_eq. }
  split; [done|]. split; [by case_bool_decide|]. split.
  { eexists. split; [by rewrite Hp, lookup_insert_eq|done]. }
  split; [exists q; by case_bool_decide|]. split.
  { intros k Hk. by rewrite Hp, lookup_insert_ne. }
  split; [done|]. by apply getPostById_seen.
Qed.

(** X23. updatePost needs the idea of the post.  It looks the idea up
    before anything else, so: for an id that is not stored, and for a
    stored post whose [ideaId] is empty, it throws NotFoundError with
    the resource text "Post with ID '<id>' has no idea ID"; for a post
    whose idea is neither cached nor stored it throws NotFoundError
    ("Idea").  In all three cases nothing is written to the store. *)
Theorem updatePost_needs_idea id u w :
  (posts w !! id = None →
     ∃ w1, BlogPostService.updatePost id u w
           = (inl (NotFoundError ("Post with ID '" +:+ id +:+ "' has no idea ID")), w1)
           ∧ posts w1 = posts w ∧ ideas w1 = ideas w ∧ cache w1 = cache w)
  ∧ (∀ q, posts w !! id = Some q → BlogPost.ideaId q = "" →
     ∃ w1, BlogPostService.updatePost id u w
           = (inl (NotFoundError ("Post with ID '" +:+ id +:+ "' has no idea ID")), w1)
           ∧ posts w1 = posts w ∧ ideas w1 = ideas w ∧ cache w1 = cache w)
  ∧ (∀ q, posts w !! id = Some q → BlogPost.ideaId q ≠ "" →
     ideas w !! BlogPost.ideaId q = None →
     cache w !! BlogIdeaService.ideaKey (BlogPost.ideaId q) = None →
     ∃ w1, BlogPostService.updatePost id u w = (inl (NotFoundError "Idea"), w1)
           ∧ posts w1 = posts w ∧ ideas w1 = ideas w ∧ cache w1 = cache w).
Proof.
  split; [|split].
  - intros Hq. unfold BlogPostService.updatePost.
    erewrite tryLog_inl; cycle 1.
    { unfold BlogPostService.getIdeaByPostId. munfold. by rewrite Hq. }
    eexists. split; [reflexivity|done].
  - intros q Hq Hi. unfold BlogPostService.updatePost.
    erewrite tryLog_inl; cycle 1.
    { unfold BlogPostService.getIdeaByPostId. munfold. rewrite Hq. simpl.
      by rewrite Hi. }
    eexists. split; [reflexivity|done].
  - intros q Hq Hne Hi Hc. unfold BlogPostService.updatePost.
    erewrite tryLog_inl; cycle 1.
    { unfold bind at 1, getPostDoc at 1. unfold bind at 1.
      rewrite (getIdeaByPostId_stored _ _ _ Hq Hne).
      rewrite (getIdeaById_cold _ _ Hc), Hi. reflexivity. }
    eexists. split; [reflexivity|done].
Qed.



(** X26. The [scheduledAt] a status update stores.  When
    updatePostStatus returns: a request without a [scheduledAt] member
    has stored NaN (the time of [new Date(undefined)]); a request whose
    [scheduledAt] is null has left the stored value as it was; a request
    with a date has stored the time of that date. *)
Theorem updatePostStatus_scheduledAt id req w p' w' :
  BlogPostService.updatePostStatus id req w = (inr p', w') →
  BlogPost.scheduledAt <$> posts w' !! id = Some (BlogPost.scheduledAt p')
  ∧ match UpdatePostStatusRequest.scheduledAt req with
    | Undefined => BlogPost.scheduledAt p' = Some NaN
    | Null => ∃ q, posts w !! id = Some q
                   ∧ BlogPost.scheduledAt p' = BlogPost.scheduledAt q
    | Date t => BlogPost.scheduledAt p' = Some (Ms t)
    end.
Proof.
  intros H. apply updatePostStatus_inr in H
    as (p & q & Hseen & Hq & _ & -> & Hp & _).
  split; [by rewrite Hp, lookup_insert_eq|].
  destruct (UpdatePostStatusRequest.scheduledAt req) eqn:Es; simpl; rewrite Es; simpl;
    eauto.
Qed.

(** X27. deletePost and a lookup afterwards.  When deletePost returns,
    the document is gone, every other post and every idea is as before,
    and nothing is cached under the key of the post, so a getPostById of
    the id right afterwards throws NotFoundError. *)
Theorem deletePost_then_lookup id w w1 :
  BlogPostService.deletePost id w = (inr tt, w1) →
  posts w1 = delete id (posts w)
  ∧ ideas w1 = ideas w
  ∧ postSeen w1 id = None
  ∧ (BlogPostService.getPostById id w1).1
    = inl (NotFoundError ("Post with ID '" +:+ id +:+ "' not found")).
Proof.
  intros H. unfold BlogPostService.deletePost in H. apply tryLog_inr in H.
  apply bind_inr in H as (post & w0 & Hg & H).
  pose proof (getPostById_frame id w) as (Hp0 & Hi0 & _).
  rewrite Hg in Hp0, Hi0. simpl in Hp0, Hi0.
  destruct (decide (BlogPost.status post = PUBLISHED)); [done|].
  munfold. injection H as <-. wsimpl.
  assert (Hseen : postSeen
    (mkWorld (delete id (posts w0)) (ideas w0)
       (delete (BlogPostService.postKey id)
          (filter (λ kv, InMemoryCache.hasTag "posts" kv.2 = false) (cache w0)))
       (clock w0) (uuidSource w0) (uuidCount w0)
       (mkLog LogInfo "Post deleted" :: logs w0) (webhooks w0)) id = None).
  { rewrite postSeen_cold by apply lookup_delete_eq. simpl.
    by rewrite lookup_delete_eq. }
  split; [by rewrite Hp0|]. split; [by rewrite Hi0|]. split; [exact Hseen|].
  rewrite getPostById_fst. by rewrite Hseen.
Qed.

(** *** publishPost *)

Lemma getPostById_keeps_seen id w :
  postSeen (BlogPostService.getPostById id w).2 id = postSeen w id.
Proof.
  unfold BlogPostService.getPostById, postSeen. munfold. wsimpl.
  unfold InMemoryCache.get, InMemoryCache.set.
  destruct (cache w !! BlogPostService.postKey id) as [e|] eqn:Ec; simpl.
  - destruct (decide (clock w > InMemoryCache.expiresAt e)) as [Hx|Hx]; simpl.
    + destruct (posts w !! id) as [q|] eqn:Eq; simpl;
        rewrite ?lookup_insert_eq, ?lookup_delete_eq; simpl;
        rewrite ?posts_ttl, ?Eq; [|done].
      destruct (decide (clock w > clock w + 300 * 1000)); [lia|done].
    + destruct (InMemoryCache.data e) as [p|i|l] eqn:Ed; simpl.
      * rewrite Ec. destruct (decide (clock w > InMemoryCache.expiresAt e)); [done|].
        simpl. by rewrite Ed.
      * destruct (posts w !! id) as [q|] eqn:Eq; simpl;
          rewrite ?lookup_insert_eq, ?Ec; simpl; rewrite ?posts_ttl, ?Eq.
        -- destruct (decide (clock w > clock w + 300 * 1000)); [lia|done].
        -- destruct (decide (clock w > InMemoryCache.expiresAt e)); [done|].
           simpl. by rewrite Ed, ?Eq.
      * destruct (posts w !! id) as [q|] eqn:Eq; simpl;
          rewrite ?lookup_insert_eq, ?Ec; simpl; rewrite ?posts_ttl, ?Eq.
        -- destruct (decide (clock w > clock w + 300 * 1000)); [lia|done].
        -- destruct (decide (clock w > InMemoryCache.expiresAt e)); [done|].
           simpl. by rewrite Ed, ?Eq.
  - destruct (posts w !! id) as [q|] eqn:Eq; simpl;
      rewrite ?lookup_insert_eq, ?Ec; simpl; rewrite ?posts_ttl, ?Eq; [|done].
    destruct (decide (clock w > clock w + 300 * 1000)); [lia|done].
Qed.

Lemma postSeen_same_entry w w' id :
  posts w' !! id = posts w !! id → clock w' = clock w →
  cache w' !! BlogPostService.postKey id = cache w !! BlogPostService.postKey id →
  postSeen w' id = postSeen w id.
Proof.
  intros Hp Hc Hk. unfold postSeen, InMemoryCache.get. rewrite Hp, Hc, Hk.
  destruct (cache w !! BlogPostService.postKey id) as [e|]; [|done].
  by destruct (decide (clock w > InMemoryCache.expiresAt e)).
Qed.

Lemma getIdeaById_cache_other iid k w :
  k ≠ BlogIdeaService.ideaKey iid →
  cache (BlogIdeaService.getIdeaById iid w).2 !! k = cache w !! k.
Proof.
  intros Hk. unfold BlogIdeaService.getIdeaById. munfold. wsimpl.
  pose proof (get_other (clock w) (BlogIdeaService.ideaKey iid) k (cache w)) as Hg.
  repeat (case_match; wsimpl; simplify_eq);
    unfold InMemoryCache.set; simpl; rewrite ?lookup_insert_ne by done; auto.
Qed.

Lemma postSeen_after_invalidation w w' id q tag :
  posts w !! id = Some q → postSeen w id = Some (BlogPost.withId id q) →
  posts w' = posts w → clock w' = clock w →
  cache w' = (InMemoryCache.delByTag tag (cache w)).2 →
  postSeen w' id = Some (BlogPost.withId id q).
Proof.
  intros Hq Hs Hp Hc Hk.
  destruct (cache w' !! BlogPostService.postKey id) as [e|] eqn:Ee.
  - rewrite <- Hs. apply postSeen_same_entry; [by rewrite Hp|done|].
    rewrite Ee. rewrite Hk, delByTag_lookup in Ee.
    destruct (cache w !! BlogPostService.postKey id) as [e'|]; [|done].
    by destruct (InMemoryCache.hasTag tag e').
  - rewrite postSeen_cold by done. by rewrite Hp, Hq.
Qed.

Lemma updateIdea_run iid u w i :
  ideas w !! iid = Some i →
  ∃ w1,
    BlogIdeaService.updateIdea iid u w
    = (inr (BlogIdea.withId iid (BlogIdeaService.applyIdeaUpdate u (clock w) i)), w1)
    ∧ ideas w1 = <[iid := BlogIdeaService.applyIdeaUpdate u (clock w) i]> (ideas w)
    ∧ posts w1 = posts w ∧ clock w1 = clock w
    ∧ cache w1 = (InMemoryCache.delByTag "ideas" (cache w)).2.
Proof.
  intros Hi. unfold BlogIdeaService.updateIdea. munfold. wsimpl.
  repeat (rewrite Hi; wsimpl). rewrite lookup_insert_eq.
  eexists. split; [reflexivity|]. done.
Qed.

Lemma markIdeaAsUsed_keeps_used iid w k i :
  ideas w !! k = Some i → BlogIdea.status i = USED →
  ∃ i', ideas (BlogIdeaService.markIdeaAsUsed iid w).2 !! k = Some i'
        ∧ BlogIdea.status i' = USED.
Proof.
  intros Hk Hu. unfold BlogIdeaService.markIdeaAsUsed. munfold. wsimpl.
  destruct (ideas w !! iid) as [j|] eqn:Ej; wsimpl; [|eauto].
  destruct (BlogIdea.status j) eqn:Es; wsimpl; rewrite ?Ej; wsimpl; eauto.
  destruct (decide (k = iid)) as [->|Hne].
  - rewrite Hk in Ej. injection Ej as <-. congruence.
  - rewrite lookup_insert_ne by done. eauto.
Qed.

Lemma updatePost_keeps_used id u w p' w' k i :
  BlogPostService.updatePost id u w = (inr p', w') →
  BlogPost.status p' = PUBLISHED →
  ideas w !! k = Some i → BlogIdea.status i = USED →
  ∃ i', ideas w' !! k = Some i' ∧ BlogIdea.status i' = USED.
Proof.
  intros H Hs Hk Hu. apply updatePost_result in H
    as (q & idea & w0 & _ & _ & -> & _ & _ & _ & _ & Hother & _ & Hused).
  destruct (decide (k = BlogIdea.id idea)) as [->|Hne].
  - apply Hused. exact Hs.
  - rewrite Hother by done. eauto.
Qed.

Lemma updatePostStatus_keeps_used id req w p' w' k i :
  BlogPostService.updatePostStatus id req w = (inr p', w') →
  BlogPost.status p' = PUBLISHED →
  ideas w !! k = Some i → BlogIdea.status i = USED →
  ∃ i', ideas w' !! k = Some i' ∧ BlogIdea.status i' = USED.
Proof.
  intros H Hs Hk Hu. unfold BlogPostService.updatePostStatus in H.
  apply tryLog_inr in H.
  apply bind_inr in H as ([] & w1 & Hl & H). unfold logger in Hl. injection Hl as <-.
  apply bind_inr in H as (post & w2 & Hg & H).
  pose proof (getPostById_frame id (withLog (mkLog LogInfo "Updating post status") w))
    as (_ & Hi2 & _).
  rewrite Hg in Hi2. simpl in Hi2. cbv beta iota zeta in H.
  apply bind_inr in H as ([] & w3 & Hv & H).
  assert (w3 = w2) as ->.
  { unfold BlogPostService.validateStatusTransition in Hv.
    destruct (bool_decide (_ ∈ _)); [unfold ret in Hv|unfold throw in Hv];
      by simplify_eq. }
  apply bind_inr in H as (now & w4 & Hn & H).
  unfold dateNow in Hn. injection Hn as <- <-.
  apply bind_inr in H as ([] & w5 & Hm & H).
  assert (Hk5 : ∃ i5, ideas w5 !! k = Some i5 ∧ BlogIdea.status i5 = USED).
  { assert (Hk2 : ideas w2 !! k = Some i) by by rewrite Hi2.
    destruct (decide _) in Hm; [destruct (bool_decide _) in Hm|].
    - unfold tryCatch in Hm. unfold bind at 1 in Hm.
      pose proof (markIdeaAsUsed_keeps_used (BlogPost.ideaId post) w2 k i Hk2 Hu)
        as (i5 & H5 & Hu5).
      destruct (BlogIdeaService.markIdeaAsUsed (BlogPost.ideaId post) w2)
        as [[e|[]] wm]; simpl in H5; unfold logger in Hm; injection Hm as <-;
        simpl; eauto.
    - unfold ret in Hm. injection Hm as <-. eauto.
    - unfold ret in Hm. injection Hm as <-. eauto. }
  destruct Hk5 as (i5 & H5 & Hu5).
  apply bind_inr in H as (updatedPost & w6 & Hup & H).
  apply bind_inr in H as ([] & w7 & Hl & H).
  unfold logger in Hl. injection Hl as <-. unfold ret in H. injection H as <- <-.
  simpl. eapply updatePost_keeps_used; eauto.
Qed.

(** X28. publishPost publishes.  Let the post be stored as APPROVED or
    SCHEDULED and be what the service sees under the id, let its
    [ideaId] name a stored idea, and let the idea cache be well keyed.
    Then publishPost returns; the post it returns is PUBLISHED, with
    [publishedAt] and [scheduledAt] equal to the clock, it is the
    document now stored and what getPostById answers with afterwards;
    and the idea of the post is stored with status USED. *)
Theorem publishPost_publishes id w q :
  posts w !! id = Some q →
  postSeen w id = Some (BlogPost.withId id q) →
  BlogPost.status q = APPROVED ∨ BlogPost.status q = SCHEDULED →
  BlogPost.ideaId q ≠ "" →
  is_Some (ideas w !! BlogPost.ideaId q) →
  ideaCacheOk w →
  ∃ p' w',
    BlogPostService.publishPost id w = (inr p', w')
    ∧ BlogPost.status p' = PUBLISHED
    ∧ BlogPost.publishedAt p' = Some (clock w)
    ∧ BlogPost.scheduledAt p' = Some (Ms (clock w))
    ∧ (∃ stored, posts w' !! id = Some stored ∧ p' = BlogPost.withId id stored)
    ∧ (BlogPostService.getPostById id w').1 = inr p'
    ∧ (∃ i', ideas w' !! BlogPost.ideaId q = Some i' ∧ BlogIdea.status i' = USED).
Proof.
  intros Hq Hseen Hst Hne [i Hi] Hok.
  (* getPostById *)
  pose proof (getPostById_frame id w) as (Hp1 & Hi1 & Hc1).
  pose proof (getPostById_keeps_seen id w) as Hs1.
  pose proof (respects_getPostById id w) as [_ Hok1].
  assert (E1 : (BlogPostService.getPostById id w).1 = inr (BlogPost.withId id q))
    by by apply getPostById_seen.
  destruct (BlogPostService.getPostById id w) as [r1 w1] eqn:G1. simpl in *. subst r1.
  specialize (Hok1 Hok).
  (* getIdeaByPostId *)
  assert (Hq1 : posts w1 !! id = Some q) by by rewrite Hp1.
  destruct (getIdeaById_succeeds (BlogPost.ideaId q) w1) as (idea & w2 & E2 & Hid).
  { rewrite Hi1. eauto. }
  { apply Hok1. }
  pose proof (getIdeaById_frame (BlogPost.ideaId q) w1) as (Hp2 & Hi2 & Hc2).
  pose proof (getIdeaById_cache_other (BlogPost.ideaId q) (BlogPostService.postKey id) w1
                (postKey_not_ideaKey _ _)) as Hk2.
  pose proof (respects_getIdeaById (BlogPost.ideaId q) w1) as [_ Hok2].
  rewrite E2 in Hp2, Hi2, Hc2, Hk2, Hok2. simpl in Hp2, Hi2, Hc2, Hk2, Hok2.
  specialize (Hok2 Hok1).
  assert (Hs2 : postSeen w2 id = Some (BlogPost.withId id q)).
  { rewrite <- Hseen, <- Hs1. apply postSeen_same_entry; [by rewrite Hp2|done|done]. }
  (* updateIdea *)
  assert (Hi2' : ideas w2 !! BlogPost.ideaId q = Some i) by by rewrite Hi2, Hi1.
  destruct (updateIdea_run (BlogPost.ideaId q) BlogPostService.markUsed w2 i Hi2')
    as (w3 & E3 & Hi3 & Hp3 & Hc3 & Hk3).
  pose proof (respects_updateIdea (BlogPost.ideaId q) BlogPostService.markUsed w2)
    as [_ Hok3].
  rewrite E3 in Hok3. simpl in Hok3. specialize (Hok3 Hok2).
  assert (Hs3 : postSeen w3 id = Some (BlogPost.withId id q)).
  { eapply postSeen_after_invalidation; [| exact Hs2 | done | done | exact Hk3].
    by rewrite Hp2. }
  (* updatePostStatus *)
  set (req := UpdatePostStatusRequest.mk PUBLISHED (Date (clock w3)) None).
  destruct (updatePostStatus_succeeds id req w3 q) as (p' & w' & E4).
  { by rewrite Hp3, Hp2. }
  { done. }
  { done. }
  { rewrite Hi3, lookup_insert_eq. eauto. }
  { apply Hok3. }
  { simpl. destruct Hst as [-> | ->]; simpl; set_solver. }
  assert (Hclock : clock w3 = clock w) by by rewrite Hc3, Hc2.
  exists p', w'. split.
  { unfold BlogPostService.publishPost. apply tryLog_inr.
    unfold bind at 1. rewrite G1. unfold bind at 1.
    rewrite (getIdeaByPostId_stored id w1 q Hq1 Hne), E2.
    assert (Hguard : bool_decide (BlogPost.status (BlogPost.withId id q) ≠ APPROVED)
                     && bool_decide (BlogPost.status (BlogPost.withId id q) ≠ SCHEDULED)
                     = false).
    { simpl. destruct Hst as [-> | ->]; [|apply andb_false_r].
      apply andb_false_intro1. by apply bool_decide_eq_false; intros ?. }
    rewrite Hguard. unfold bind at 1. rewrite Hid, E3.
    unfold bind at 1, dateNow. exact E4. }
  pose proof E4 as E4'.
  apply updatePostStatus_inr in E4'
    as (p & q' & Hsp & Hq' & _ & Hp' & Hposts & Hcold & _).
  rewrite Hs3 in Hsp. injection Hsp as <-.
  rewrite Hp3, Hp2, Hq1 in Hq'. injection Hq' as <-.
  assert (Hfresh : BlogPost.status (BlogPost.withId id q) ≠ PUBLISHED).
  { simpl. destruct Hst as [-> | ->]; done. }
  assert (Hstatus : BlogPost.status p' = PUBLISHED) by by rewrite Hp'.
  split; [done|]. split.
  { rewrite Hp'. simpl. rewrite decide_True by done. simpl. by rewrite Hclock. }
  split.
  { rewrite Hp'. simpl. by rewrite Hclock. }
  split.
  { eexists. split; [by rewrite Hposts, lookup_insert_eq|done]. }
  split.
  { apply getPostById_seen. rewrite postSeen_cold by done.
    by rewrite Hposts, lookup_insert_eq, Hp'. }
  eapply updatePostStatus_keeps_used; [exact E4|done| |].
  - by rewrite Hi3, lookup_insert_eq.
  - done.
Qed.

(** *** The batch handler *)

Lemma publishPost_inr id w p' w' :
  BlogPostService.publishPost id w = (inr p', w') →
  BlogPost.status p' = PUBLISHED ∧ BlogPost.id p' = id.
Proof.
  intros H. unfold BlogPostService.publishPost in H. apply tryLog_inr in H.
  apply bind_inr in H as (post & w1 & _ & H).
  apply bind_inr in H as (idea & w2 & _ & H).
  destruct (_ && _) in H; [done|].
  apply bind_inr in H as (r & w3 & _ & H).
  apply bind_inr in H as (now & w4 & _ & H).
  apply updatePostStatus_inr in H as (p & q & _ & _ & _ & -> & _).
  done.
Qed.

Lemma batchLoop_runs postIds results errors w :
  ∃ results' errors' w',
    PublishRoutes.batchLoop postIds results errors w = (inr (results', errors'), w')
    ∧ (length results' + length errors'
       = length results + length errors + length postIds)%nat
    ∧ (map PublishRoutes.pub_postId results' ++ map PublishRoutes.fail_postId errors'
       ≡ₚ (map PublishRoutes.pub_postId results ++ map PublishRoutes.fail_postId errors)
          ++ postIds)
    ∧ (errors' = [] → errors = [])
    ∧ (∀ item, item ∈ results' →
       item ∈ results
       ∨ (BlogPost.status (PublishRoutes.pub_post item) = PUBLISHED
          ∧ BlogPost.id (PublishRoutes.pub_post item) = PublishRoutes.pub_postId item)).
Proof.
  revert results errors w.
  induction postIds as [|postId rest IH]; intros results errors w.
  - exists results, errors, w. simpl. split; [done|]. split; [lia|].
    split; [by rewrite app_nil_r|]. split; auto.
  - simpl. unfold bind at 1, tryCatch at 1, bind at 1.
    destruct (BlogPostService.publishPost postId w) as [[e|post] w1] eqn:Ep.
    + unfold ret. simpl.
      destruct (IH results (errors ++ [PublishRoutes.mkFailed postId false (errorMessage e)]) w1)
        as (r' & e' & w' & Hrun & Hlen & Hperm & Hnil & Hpub).
      exists r', e', w'. split; [done|]. split.
      { rewrite length_app in Hlen. simpl in Hlen. lia. }
      split.
      { rewrite Hperm, map_app. simpl. rewrite <- !app_assoc. simpl.
        apply Permutation_app_head, Permutation_app_head. done. }
      split; [|done].
      intros He'. apply Hnil in He'. by destruct errors.
    + unfold ret. simpl.
      destruct (IH (results ++ [PublishRoutes.mkPublished postId true post]) errors w1)
        as (r' & e' & w' & Hrun & Hlen & Hperm & Hnil & Hpub).
      exists r', e', w'. split; [done|]. split.
      { rewrite length_app in Hlen. simpl in Hlen. lia. }
      split.
      { rewrite Hperm, map_app. simpl. rewrite <- !app_assoc. simpl.
        apply Permutation_app_head, Permutation_middle. }
      split; [done|].
      intros item Hin. destruct (Hpub item Hin) as [Hold|Hnew]; [|by right].
      apply elem_of_app in Hold as [Hold|Hold]; [by left|].
      apply list_elem_of_singleton in Hold as ->. right. simpl.
      by eapply publishPost_inr.
Qed.

(** X29. The batch handler of POST /api/publish/batch.  It always
    responds.  Without an array of ids, or with an empty one, the
    response is a 400 and the world is as it was.  Otherwise the response is a 200: publishPost has been
    attempted for every id, a failure of one not stopping the others;
    every id is reported exactly once, among [published] or among
    [errors]; [total] is the number of ids and equals [successful] plus
    [failed]; [success] is true exactly when [errors] is empty; and
    every post listed as published is PUBLISHED and carries the id it is
    listed under. *)
Theorem publishBatch_reports_every_id postIds w :
  ∃ response w',
    PublishRoutes.publishBatch postIds w = (inr response, w')
    ∧ PublishRoutes.timestamp response = clock w'
    ∧ ((postIds = None ∨ postIds = Some []) →
       PublishRoutes.httpStatus response = 400
       ∧ PublishRoutes.success response = false
       ∧ PublishRoutes.data response = None
       ∧ PublishRoutes.error response = Some "postIds array is required"
       ∧ w' = w)
    ∧ (∀ ids, postIds = Some ids → ids ≠ [] →
       ∃ d, PublishRoutes.httpStatus response = 200
         ∧ PublishRoutes.data response = Some d
         ∧ PublishRoutes.total (PublishRoutes.summary d) = Z.of_nat (length ids)
         ∧ PublishRoutes.successful (PublishRoutes.summary d)
           = Z.of_nat (length (PublishRoutes.published d))
         ∧ PublishRoutes.failed (PublishRoutes.summary d)
           = Z.of_nat (length (PublishRoutes.errors d))
         ∧ PublishRoutes.successful (PublishRoutes.summary d)
           + PublishRoutes.failed (PublishRoutes.summary d)
           = PublishRoutes.total (PublishRoutes.summary d)
         ∧ map PublishRoutes.pub_postId (PublishRoutes.published d)
           ++ map PublishRoutes.fail_postId (PublishRoutes.errors d) ≡ₚ ids
         ∧ (PublishRoutes.success response = true ↔ PublishRoutes.errors d = [])
         ∧ (∀ item, item ∈ PublishRoutes.published d →
              BlogPost.status (PublishRoutes.pub_post item) = PUBLISHED
              ∧ BlogPost.id (PublishRoutes.pub_post item) = PublishRoutes.pub_postId item)).
Proof.
  destruct postIds as [[|postId rest]|].
  - exists (PublishRoutes.mkResponse 400 false None (Some "postIds array is required")
              None (clock w)), w.
    split; [done|]. split; [done|]. split; [done|]. by intros ids [= <-].
  - destruct (batchLoop_runs (postId :: rest) [] [] w)
      as (r' & e' & w1 & Hrun & Hlen & Hperm & _ & Hpub).
    eexists _, _. split.
    { unfold PublishRoutes.publishBatch. unfold bind at 1. rewrite Hrun.
      unfold bind, dateNow, logger, ret. simpl. reflexivity. }
    simpl. split; [done|]. split; [by intros [|]|].
    intros ids [= <-] _. eexists. split; [done|]. split; [done|]. simpl.
    split; [done|]. split; [done|]. split; [done|]. split; [simpl in Hlen; lia|].
    split; [done|]. split.
    { rewrite bool_decide_eq_true. destruct e'; simpl; split; done. }
    intros item Hin. destruct (Hpub item Hin) as [Hold|Hnew]; [|done].
    by apply elem_of_nil in Hold.
  - exists (PublishRoutes.mkResponse 400 false None (Some "postIds array is required")
              None (clock w)), w.
    split; [done|]. split; [done|]. split; [done|]. by intros ids [=].
Qed.

(** *** The tagging of the idea cache is an invariant *)

Lemma keepsTagged_ret {A} (a : A) : keepsTagged (ret a).
Proof. by intros w H. Qed.

Lemma keepsTagged_throw {A} e : keepsTagged (@throw A e).
Proof. by intros w H. Qed.

Lemma keepsTagged_bind {A B} (m : M A) (k : A → M B) :
  keepsTagged m → (∀ a, keepsTagged (k a)) → keepsTagged (bind m k).
Proof.
  intros Hm Hk w Hw. unfold bind. pose proof (Hm w Hw) as H1.
  destruct (m w) as [[e|a] w1]; simpl in *; [done|]. by apply Hk.
Qed.

Lemma keepsTagged_tryCatch {A} (m : M A) (h : Error → M A) :
  keepsTagged m → (∀ e, keepsTagged (h e)) → keepsTagged (tryCatch m h).
Proof.
  intros Hm Hh w Hw. unfold tryCatch. pose proof (Hm w Hw) as H1.
  destruct (m w) as [[e|a] w1]; simpl in *; [|done]. by apply Hh.
Qed.

Lemma keepsTagged_shrink {A} (m : M A) :
  (∀ w k e, cache (m w).2 !! k = Some e → cache w !! k = Some e) → keepsTagged m.
Proof. intros H w Hw iid e He. apply H in He. by eapply Hw. Qed.

Lemma keepsTagged_logger lvl msg : keepsTagged (logger lvl msg).
Proof. by apply keepsTagged_shrink. Qed.

Lemma keepsTagged_tryLog {A} msg (m : M A) : keepsTagged m → keepsTagged (tryLog msg m).
Proof.
  intros Hm. apply keepsTagged_tryCatch; [done|]. intros e.
  apply keepsTagged_bind; [apply keepsTagged_logger|]. intros _. apply keepsTagged_throw.
Qed.

Lemma keepsTagged_cacheGet key : keepsTagged (cacheGet key).
Proof.
  apply keepsTagged_shrink. intros w k e. unfold cacheGet. simpl.
  unfold InMemoryCache.get. destruct (cache w !! key); [|done].
  case_decide; simpl; [|done]. intros He. by apply lookup_delete_Some in He as [_ He].
Qed.

Lemma keepsTagged_cacheDel key : keepsTagged (cacheDel key).
Proof.
  apply keepsTagged_shrink. intros w k e He. simpl in He.
  by apply lookup_delete_Some in He as [_ He].
Qed.

Lemma keepsTagged_cacheDelByTag tag : keepsTagged (cacheDelByTag tag).
Proof.
  apply keepsTagged_shrink. intros w k e He. simpl in He.
  by apply map_lookup_filter_Some in He as [He _].
Qed.

Lemma keepsTagged_cacheSet key v opts :
  (∀ k, key = BlogIdeaService.ideaKey k →
        "ideas" ∈ default [] (InMemoryCache.opt_tags opts)) →
  keepsTagged (cacheSet key v opts).
Proof.
  intros Hv w Hw iid e He. simpl in He. unfold InMemoryCache.set in He.
  destruct (decide (key = BlogIdeaService.ideaKey iid)) as [->|Hne].
  - rewrite lookup_insert_eq in He. injection He as <-. simpl. by eapply Hv.
  - rewrite lookup_insert_ne in He by done. by eapply Hw.
Qed.

Lemma keepsTagged_cacheMutate key v : keepsTagged (cacheMutate key v).
Proof.
  intros w Hw iid e He. simpl in He.
  destruct (decide (key = BlogIdeaService.ideaKey iid)) as [->|Hne].
  - rewrite lookup_alter_eq in He.
    destruct (cache w !! BlogIdeaService.ideaKey iid) as [e0|] eqn:E0; [|done].
    simpl in He. injection He as <-. simpl. by eapply Hw.
  - rewrite lookup_alter_ne in He by done. by eapply Hw.
Qed.

Lemma keepsTagged_store {A} (m : M A) :
  (∀ w, cache (m w).2 = cache w) → keepsTagged m.
Proof. intros H. apply keepsTagged_shrink. intros w k e. by rewrite H. Qed.

Lemma keepsTagged_updatePostDoc id f : keepsTagged (updatePostDoc id f).
Proof. apply keepsTagged_store. intros w. unfold updatePostDoc. by destruct (posts w !! id). Qed.

Lemma keepsTagged_updateIdeaDoc id f : keepsTagged (updateIdeaDoc id f).
Proof. apply keepsTagged_store. intros w. unfold updateIdeaDoc. by destruct (ideas w !! id). Qed.

Ltac tagged_step :=
  lazymatch goal with
  | |- keepsTagged (tryLog _ _) => apply keepsTagged_tryLog
  | |- keepsTagged (bind _ _) => apply keepsTagged_bind; [|intros ?]
  | |- keepsTagged (tryCatch _ _) => apply keepsTagged_tryCatch; [|intros ?]
  | |- keepsTagged (ret _) => apply keepsTagged_ret
  | |- keepsTagged (throw _) => apply keepsTagged_throw
  | |- keepsTagged (logger _ _) => apply keepsTagged_logger
  | |- keepsTagged (cacheGet _) => apply keepsTagged_cacheGet
  | |- keepsTagged (cacheDel _) => apply keepsTagged_cacheDel
  | |- keepsTagged (cacheDelByTag _) => apply keepsTagged_cacheDelByTag
  | |- keepsTagged (cacheMutate _ _) => apply keepsTagged_cacheMutate
  | |- keepsTagged (updatePostDoc _ _) => apply keepsTagged_updatePostDoc
  | |- keepsTagged (updateIdeaDoc _ _) => apply keepsTagged_updateIdeaDoc
  | |- keepsTagged (cacheSet _ _ _) =>
      apply keepsTagged_cacheSet;
      intros ? Hkey; first [ by apply list_elem_of_here
                           | by apply postKey_not_ideaKey in Hkey ]
  | |- keepsTagged (match ?x with _ => _ end) => destruct x
  | |- keepsTagged (let _ := _ in _) => cbv zeta
  | |- keepsTagged _ =>
      first [ match goal with H : _ |- _ => solve [apply H] end
            | by apply keepsTagged_store ]
  end.

Ltac tagged := repeat tagged_step.

Lemma keepsTagged_getIdeaById iid : keepsTagged (BlogIdeaService.getIdeaById iid).
Proof. unfold BlogIdeaService.getIdeaById. tagged. Qed.

Lemma keepsTagged_getAllIdeas f : keepsTagged (BlogIdeaService.getAllIdeas f).
Proof. unfold BlogIdeaService.getAllIdeas. tagged. Qed.

Lemma keepsTagged_updateIdeaStatus iid s : keepsTagged (BlogIdeaService.updateIdeaStatus iid s).
Proof. unfold BlogIdeaService.updateIdeaStatus. tagged. Qed.

Lemma keepsTagged_markIdeaAsUsed iid : keepsTagged (BlogIdeaService.markIdeaAsUsed iid).
Proof. unfold BlogIdeaService.markIdeaAsUsed. tagged. Qed.

Lemma keepsTagged_updateIdea iid u : keepsTagged (BlogIdeaService.updateIdea iid u).
Proof. unfold BlogIdeaService.updateIdea. tagged. Qed.

Lemma keepsTagged_getPostById id : keepsTagged (BlogPostService.getPostById id).
Proof. unfold BlogPostService.getPostById. tagged. Qed.

Lemma keepsTagged_getIdeaByPostId id : keepsTagged (BlogPostService.getIdeaByPostId id).
Proof.
  pose proof keepsTagged_getIdeaById.
  unfold BlogPostService.getIdeaByPostId. tagged.
Qed.

Lemma keepsTagged_updatePost id u : keepsTagged (BlogPostService.updatePost id u).
Proof.
  pose proof keepsTagged_getIdeaByPostId. pose proof keepsTagged_updateIdea.
  pose proof keepsTagged_updateIdeaStatus.
  unfold BlogPostService.updatePost, BlogPostService.validateStatusTransition. tagged.
Qed.

Lemma keepsTagged_updatePostStatus id req : keepsTagged (BlogPostService.updatePostStatus id req).
Proof.
  pose proof keepsTagged_getPostById. pose proof keepsTagged_markIdeaAsUsed.
  pose proof keepsTagged_updatePost.
  unfold BlogPostService.updatePostStatus, BlogPostService.validateStatusTransition. tagged.
Qed.

Lemma keepsTagged_publishPost id : keepsTagged (BlogPostService.publishPost id).
Proof.
  pose proof keepsTagged_getPostById. pose proof keepsTagged_getIdeaByPostId.
  pose proof keepsTagged_updateIdea. pose proof keepsTagged_updatePostStatus.
  unfold BlogPostService.publishPost. tagged.
Qed.

Lemma keepsTagged_batchLoop postIds results errors :
  keepsTagged (PublishRoutes.batchLoop postIds results errors).
Proof.
  revert results errors. induction postIds as [|postId rest IH]; intros results errors.
  - simpl. apply keepsTagged_ret.
  - pose proof keepsTagged_publishPost. simpl. tagged.
Qed.

(** X30. The tagging the read-back properties rest on is an invariant
    of the system: it holds of every world whose cache is empty, and
    every operation of the two services, and the batch handler, leaves
    every entry under an idea key tagged "ideas", whether the operation
    returns or throws.  So in every world reached from an empty cache by
    these operations, createIdea, updateIdea and deleteIdea are followed
    by a fresh read. *)
Theorem ideaKeysTagged_is_invariant :
  (∀ w, cache w = ∅ → ideaKeysTagged w)
  ∧ (∀ req, keepsTagged (BlogIdeaService.createIdea req))
  ∧ (∀ filters, keepsTagged (BlogIdeaService.getAllIdeas filters))
  ∧ keepsTagged BlogIdeaService.getUnusedIdeas
  ∧ keepsTagged BlogIdeaService.pickNextIdea
  ∧ (∀ iid, keepsTagged (BlogIdeaService.markIdeaAsUsed iid))
  ∧ (∀ iid, keepsTagged (BlogIdeaService.resetIdea iid))
  ∧ (∀ iid u, keepsTagged (BlogIdeaService.updateIdea iid u))
  ∧ (∀ iid, keepsTagged (BlogIdeaService.deleteIdea iid))
  ∧ (∀ iid, keepsTagged (BlogIdeaService.getIdeaById iid))
  ∧ (∀ iid s, keepsTagged (BlogIdeaService.updateIdeaStatus iid s))
  ∧ (∀ req, keepsTagged (BlogPostService.createPost req))
  ∧ (∀ id, keepsTagged (BlogPostService.getPostById id))
  ∧ (∀ id u, keepsTagged (BlogPostService.updatePost id u))
  ∧ (∀ id req, keepsTagged (BlogPostService.updatePostStatus id req))
  ∧ (∀ id, keepsTagged (BlogPostService.publishPost id))
  ∧ (∀ id, keepsTagged (BlogPostService.deletePost id))
  ∧ (∀ postIds, keepsTagged (PublishRoutes.publishBatch postIds)).
Proof.
  pose proof keepsTagged_getAllIdeas. pose proof keepsTagged_updateIdeaStatus.
  pose proof keepsTagged_getPostById. pose proof keepsTagged_batchLoop.
  split.
  { intros w Hw iid e He. by rewrite Hw, lookup_empty in He. }
  repeat split; intros.
  - unfold BlogIdeaService.createIdea. tagged.
  - done.
  - unfold BlogIdeaService.getUnusedIdeas. tagged.
  - unfold BlogIdeaService.pickNextIdea, BlogIdeaService.getUnusedIdeas. tagged.
  - apply keepsTagged_markIdeaAsUsed.
  - unfold BlogIdeaService.resetIdea. tagged.
  - apply keepsTagged_updateIdea.
  - unfold BlogIdeaService.deleteIdea. tagged.
  - apply keepsTagged_getIdeaById.
  - done.
  - unfold BlogPostService.createPost. tagged.
  - done.
  - apply keepsTagged_updatePost.
  - apply keepsTagged_updatePostStatus.
  - apply keepsTagged_publishPost.
  - unfold BlogPostService.deletePost. tagged.
  - unfold PublishRoutes.publishBatch. tagged.
Qed.

(** *** The transition table and the idea of the post *)




(** *** [publishedAt] outside updatePostStatus *)

(** The generic update publishes without a stamp: a stored post for
    which PUBLISHED is a legal target, its idea stored, becomes
    PUBLISHED through updatePost with [publishedAt] as it was, [null]
    for a post that was never published. *)
Lemma updatePost_publishes_unstamped id u w q :
  posts w !! id = Some q →
  PUBLISHED ∈ BlogPostService.validTransitions (BlogPost.status q) →
  UpdatePostRequest.status u = Some PUBLISHED →
  UpdatePostRequest.outline u = None →
  UpdatePostRequest.publishedAt u = None →
  BlogPost.ideaId q ≠ "" →
  is_Some (ideas w !! BlogPost.ideaId q) →
  ideaEntryOk w (BlogPost.ideaId q) →
  ∃ p' w', BlogPostService.updatePost id u w = (inr p', w')
           ∧ BlogPost.status p' = PUBLISHED
           ∧ BlogPost.publishedAt p' = BlogPost.publishedAt q
           ∧ BlogPost.publishedAt <$> posts w' !! id = Some (BlogPost.publishedAt q).
Proof.
  intros Hq Hv Hs Ho Hpa Hne Hi Hok.
  destruct (updatePost_succeeds id u w q) as (p' & w' & Hu); try done.
  { intros ns Hns _. rewrite Hs in Hns. by injection Hns as <-. }
  exists p', w'. split; [done|].
  apply updatePost_inr in Hu as (q1 & Hq1 & -> & Hp & _); [|done].
  rewrite Hq in Hq1. injection Hq1 as <-.
  rewrite Hp, lookup_insert_eq. simpl. rewrite Hs, Hpa. done.
Qed.

End ServiceMore.

(* ===================================================================== *)
(** ** The further properties on sample inputs *)
(* ===================================================================== *)

Section MoreSamples.
Import Blog Runtime Views Coherence Examples.

(** An entry set at instant 0 for one second is gone after a cleanup at
    instant 2000; cleaning again changes nothing. *)
Lemma cleanup_is_invisible_witness :
  let c := InMemoryCache.set 0 "k" 7%nat (InMemoryCache.mkOptions (Some 1) None) ∅ in
  2000 <= 3000
  ∧ (InMemoryCache.get 3000 "k" (InMemoryCache.cleanup 2000 c)).1
    = (InMemoryCache.get 3000 "k" c).1
  ∧ InMemoryCache.cleanup 2000 (InMemoryCache.cleanup 2000 c) = InMemoryCache.cleanup 2000 c.
Proof.
  intros c.
  assert (H : 2000 <= 3000) by lia.
  destruct (cleanup_is_invisible 2000 3000 "k" c H) as (_ & Hget & _ & Hidem).
  split; [exact H|]. split; [exact Hget | exact Hidem].
Defined.

(** A weekly cadence at 09:00 UTC with two days of lead, asked at the
    start of epoch day 19726. *)
Lemma computeNextSlots_slot_witness :
  let config := Scheduler.mkCadence 7 9 Scheduler.utc 48 None in
  let now := 19726 * Scheduler.msPerDay in
  Scheduler.validConfig config ∧ 0 <= now
  ∧ now < Scheduler.scheduledAt (Scheduler.computeNextSlots now config)
        <= now + (2 * 7 - 1) * Scheduler.msPerDay.
Proof.
  intros config now.
  assert (Hv : Scheduler.validConfig config) by reflexivity.
  assert (Hn : 0 <= now) by (unfold now, Scheduler.msPerDay; lia).
  destruct (computeNextSlots_slot now config Hv Hn) as (Hrange & _).
  split; [exact Hv|]. split; [exact Hn | exact Hrange].
Defined.

Lemma computeNextSlots_from_createAt_witness :
  let config := Scheduler.mkCadence 7 9 Scheduler.utc 48 None in
  let s := Scheduler.computeNextSlots (19726 * Scheduler.msPerDay) config in
  Scheduler.validConfig config ∧ 48 <= 24 * 7
  ∧ Scheduler.scheduledAt s
    <= Scheduler.scheduledAt (Scheduler.computeNextSlots (Scheduler.createAt s) config).
Proof.
  intros config s.
  assert (Hv : Scheduler.validConfig config) by reflexivity.
  assert (Hl : Scheduler.draftLeadHours config <= 24 * Scheduler.intervalDays config)
    by (simpl; lia).
  split; [exact Hv|]. split; [lia|].
  exact (computeNextSlots_from_createAt (19726 * Scheduler.msPerDay) config Hv Hl).
Defined.

Lemma shouldCreateDraft_window_witness :
  let config := Scheduler.mkCadence 7 9 Scheduler.utc 48 None in
  let now := 19726 * Scheduler.msPerDay in
  let s := Scheduler.computeNextSlots now config in
  Scheduler.validConfig config
  ∧ Scheduler.shouldCreateDraft now config = true
  ∧ Scheduler.createAt s <= now < Scheduler.scheduledAt s.
Proof.
  intros config now s.
  assert (Hv : Scheduler.validConfig config) by reflexivity.
  assert (Ht : Scheduler.shouldCreateDraft now config = true) by (vm_compute; reflexivity).
  destruct (shouldCreateDraft_window now config Hv) as [Hwin _].
  split; [exact Hv|]. split; [exact Ht|]. exact (proj1 (Hwin Ht)).
Defined.

Lemma getUpcomingSlots_shape_witness :
  let config := Scheduler.mkCadence 7 9 Scheduler.utc 48 None in
  Scheduler.validConfig config
  ∧ length (Scheduler.getUpcomingSlots (19726 * Scheduler.msPerDay) config (Some 3)) = 3%nat.
Proof.
  intros config.
  assert (Hv : Scheduler.validConfig config) by reflexivity.
  destruct (getUpcomingSlots_shape (19726 * Scheduler.msPerDay) config (Some 3) Hv)
    as (Hlen & _).
  split; [exact Hv | exact Hlen].
Defined.

(** One stored idea, an empty cache. *)
Lemma getIdeaById_reads_through_witness :
  let idea := sampleIdea "i1" UNUSED high 100 in
  let w := worldOf [] [idea] in
  cache w !! BlogIdeaService.ideaKey "i1" = None
  ∧ ∃ w1, BlogIdeaService.getIdeaById "i1" w = (inr idea, w1)
          ∧ (BlogIdeaService.getIdeaById "i1" (atTime 200000 (withIdeas (λ _, ∅) w1))).1
            = inr idea.
Proof.
  intros idea w.
  assert (Hc : cache w !! BlogIdeaService.ideaKey "i1" = None) by reflexivity.
  destruct (getIdeaById_reads_through "i1" w Hc) as [_ Hhit].
  destruct (Hhit idea ltac:(vm_compute; reflexivity)) as (w1 & Hrun & _ & _ & Hagain).
  split; [exact Hc|]. exists w1. split; [exact Hrun|].
  apply Hagain; [reflexivity | simpl; lia].
Defined.

Lemma createIdea_round_trip_witness :
  let req := CreateIdeaRequest.mk UNUSED "  Topic " "Persona" "Goal" None high None
               (Some [" Rocq "]) None in
  let w := worldOf [] [] in
  asciiCreateIdea req = true
  ∧ ideaKeysTagged w
  ∧ ∃ idea w1, BlogIdeaService.createIdea req w = (inr idea, w1)
               ∧ BlogIdea.tags idea = Some ["rocq"]
               ∧ (BlogIdeaService.getIdeaById (BlogIdea.id idea) w1).1 = inr idea.
Proof.
  intros req w.
  assert (Ht : ideaKeysTagged w).
  { intros k e He. simpl in He. by rewrite lookup_empty in He. }
  assert (Ha : asciiCreateIdea req = true) by reflexivity.
  destruct (createIdea_round_trip req w Ha Ht)
    as (idea & w1 & Hrun & _ & _ & _ & _ & _ & _ & _ & Htags & _ & _ & Hget).
  split; [exact Ha|]. split; [exact Ht|]. exists idea, w1. split; [exact Hrun|]. split; [exact Htags|exact Hget].
Defined.

Lemma updateIdea_read_back_witness :
  let w := worldOf [] [sampleIdea "i1" UNUSED high 100] in
  let u := UpdateIdeaRequest.mk (Some " New Topic ") None None None None None
             (Some [" Rocq "]) None None None None None in
  asciiUpdateIdea u = true
  ∧ ideaKeysTagged w
  ∧ ∃ w1 idea, BlogIdeaService.updateIdea "i1" u w = (inr idea, w1)
               ∧ BlogIdea.topic idea = "New Topic"
               ∧ BlogIdea.tags idea = Some ["rocq"]
               ∧ (BlogIdeaService.getIdeaById "i1" w1).1 = inr idea.
Proof.
  intros w u.
  assert (Ha : asciiUpdateIdea u = true) by reflexivity.
  assert (Ht : ideaKeysTagged w).
  { intros k e He. simpl in He. by rewrite lookup_empty in He. }
  destruct (updateIdea_read_back "i1" u w Ha Ht) as [_ Hok].
  destruct (Hok (sampleIdea "i1" UNUSED high 100) ltac:(vm_compute; reflexivity))
    as (w1 & Hrun & _ & _ & _ & _ & Hget).
  split; [exact Ha|]. split; [exact Ht|]. exists w1. eexists.
  split; [exact Hrun|]. split; [reflexivity|]. split; [reflexivity | exact Hget].
Defined.

Lemma deleteIdea_then_lookup_witness :
  let w := worldOf [] [sampleIdea "i1" UNUSED high 100] in
  ideaKeysTagged w
  ∧ ∃ w1 w2, BlogIdeaService.deleteIdea "i1" w = (inr tt, w1)
             ∧ BlogIdeaService.getIdeaById "i1" w1 = (inl (NotFoundError "Idea"), w2).
Proof.
  intros w.
  assert (Ht : ideaKeysTagged w).
  { intros k e He. simpl in He. by rewrite lookup_empty in He. }
  destruct (deleteIdea_then_lookup "i1" w Ht) as [_ Hok].
  destruct (Hok (sampleIdea "i1" UNUSED high 100) ltac:(vm_compute; reflexivity)
              ltac:(discriminate)) as (w1 & w2 & Hrun & _ & _ & Hget).
  split; [exact Ht|]. exists w1, w2. split; [exact Hrun | exact Hget].
Defined.

Lemma getAllIdeas_result_witness :
  let w := worldOf [] [sampleIdea "i1" UNUSED high 100; sampleIdea "i2" USED low 200] in
  let filters := Some (IdeaFilters.mk None None None (Some "TOPIC")) in
  printableFilters filters = true
  ∧ (∀ k i, ideas w !! k = Some i → asciiIdea i = true)
  ∧ cache w !! BlogIdeaService.allIdeasKey filters = None
  ∧ ∃ l w1, BlogIdeaService.getAllIdeas filters w = (inr l, w1)
            ∧ length l = 2%nat ∧ newestFirst l.
Proof.
  intros w filters.
  assert (Hf : printableFilters filters = true) by reflexivity.
  assert (Ha : ∀ k i, ideas w !! k = Some i → asciiIdea i = true).
  { intros k i Hi. unfold w, worldOf in Hi. simpl in Hi.
    apply lookup_insert_Some in Hi as [[_ <-]|[_ Hi]]; [reflexivity|].
    apply lookup_insert_Some in Hi as [[_ <-]|[_ Hi]]; [reflexivity|].
    by rewrite lookup_empty in Hi. }
  assert (Hc : cache w !! BlogIdeaService.allIdeasKey filters = None) by reflexivity.
  destruct (getAllIdeas_result filters w Hf Ha Hc)
    as (l & w1 & Hrun & _ & _ & _ & Hsorted & _).
  split; [exact Hf|]. split; [exact Ha|]. split; [exact Hc|]. exists l, w1.
  split; [exact Hrun|]. split; [|exact Hsorted].
  assert (Hl : (BlogIdeaService.getAllIdeas filters w).1
               = inr [sampleIdea "i2" USED low 200; sampleIdea "i1" UNUSED high 100])
    by (vm_compute; reflexivity).
  rewrite Hrun in Hl. simpl in Hl. injection Hl as ->. reflexivity.
Defined.

Lemma getPostById_reads_through_witness :
  let w := worldOf [samplePost "p1" DRAFT "i1"] [] in
  cache w !! BlogPostService.postKey "p1" = None
  ∧ ∃ w1, BlogPostService.getPostById "p1" w = (inr (samplePost "p1" DRAFT "i1"), w1).
Proof.
  intros w.
  assert (Hc : cache w !! BlogPostService.postKey "p1" = None) by reflexivity.
  destruct (getPostById_reads_through "p1" w Hc) as [_ Hhit].
  destruct (Hhit (samplePost "p1" DRAFT "i1") ltac:(vm_compute; reflexivity))
    as (w1 & Hrun & _).
  split; [exact Hc|]. exists w1. exact Hrun.
Defined.

Lemma createPost_round_trip_witness :
  let req := CreatePostRequest.mk None None None None None None None (Some "i1")
               None None None None None in
  let w := worldOf [] [] in
  cache w !! BlogPostService.postKey (uuidSource w (uuidCount w)) = None
  ∧ ∃ p w1, BlogPostService.createPost req w = (inr p, w1)
            ∧ BlogPost.ideaId p = "i1"
            ∧ (BlogPostService.getPostById (BlogPost.id p) w1).1 = inr p.
Proof.
  intros req w.
  assert (Hc : cache w !! BlogPostService.postKey (uuidSource w (uuidCount w)) = None)
    by reflexivity.
  destruct (createPost_round_trip req w Hc) as (p & w1 & Hrun & _ & Hidea & _ & _ & _ & Hget).
  split; [exact Hc|]. exists p, w1. split; [exact Hrun|]. split; [exact Hidea | exact Hget].
Defined.

(** A DRAFT post whose category is updated. *)
Lemma updatePost_read_back_witness :
  let w := worldOf [samplePost "p1" DRAFT "i1"] [sampleIdea "i1" PROCESSING high 100] in
  let u := UpdatePostRequest.mk None None None None None None None None None
             (Some "news") None None None None in
  let run := BlogPostService.updatePost "p1" u w in
  let p' := returned (samplePost "" BRIEF "") run.1 in
  run = (inr p', run.2)
  ∧ BlogPost.category p' = Some "news"
  ∧ (BlogPostService.getPostById "p1" run.2).1 = inr p'.
Proof.
  intros w u run p'.
  assert (H : run = (inr p', run.2)) by (apply ran; vm_compute; reflexivity).
  destruct (updatePost_read_back "p1" u w p' run.2 H) as (_ & _ & _ & _ & _ & _ & Hget).
  split; [exact H|]. split; [vm_compute; reflexivity | exact Hget].
Defined.



(** A status request without a [scheduledAt] member. *)
Lemma updatePostStatus_scheduledAt_witness :
  let w := worldOf [samplePost "p1" NEEDS_REVIEW "i1"] [sampleIdea "i1" PROCESSING high 100] in
  let run := BlogPostService.updatePostStatus "p1" (statusRequest APPROVED) w in
  let p' := returned (samplePost "" BRIEF "") run.1 in
  run = (inr p', run.2) ∧ BlogPost.scheduledAt p' = Some NaN.
Proof.
  intros w run p'.
  assert (H : run = (inr p', run.2)) by (apply ran; vm_compute; reflexivity).
  destruct (updatePostStatus_scheduledAt "p1" (statusRequest APPROVED) w p' run.2 H)
    as [_ Hnan].
  split; [exact H | exact Hnan].
Defined.

Lemma deletePost_then_lookup_witness :
  let w := worldOf [samplePost "p1" DRAFT "i1"] [] in
  let run := BlogPostService.deletePost "p1" w in
  run = (inr tt, run.2)
  ∧ (BlogPostService.getPostById "p1" run.2).1
    = inl (NotFoundError "Post with ID 'p1' not found").
Proof.
  intros w run.
  assert (H : run = (inr tt, run.2)) by (vm_compute; reflexivity).
  destruct (deletePost_then_lookup "p1" w run.2 H) as (_ & _ & _ & Hget).
  split; [exact H | exact Hget].
Defined.

(** An APPROVED post whose idea is still PROCESSING. *)
Lemma publishPost_publishes_witness :
  let q := samplePost "p1" APPROVED "i1" in
  let w := worldOf [q] [sampleIdea "i1" PROCESSING high 100] in
  posts w !! "p1" = Some q
  ∧ ∃ p' w', BlogPostService.publishPost "p1" w = (inr p', w')
             ∧ BlogPost.status p' = PUBLISHED
             ∧ BlogPost.publishedAt p' = Some 1000
             ∧ ∃ i', ideas w' !! "i1" = Some i' ∧ BlogIdea.status i' = USED.
Proof.
  intros q w.
  assert (Hq : posts w !! "p1" = Some q) by (vm_compute; reflexivity).
  assert (Hok : ideaCacheOk w).
  { intros k e idea He. simpl in He. by rewrite lookup_empty in He. }
  destruct (publishPost_publishes "p1" w q Hq ltac:(vm_compute; reflexivity)
              ltac:(left; reflexivity) ltac:(discriminate)
              ltac:(vm_compute; eauto) Hok)
    as (p' & w' & Hrun & Hs & Hpub & _ & _ & _ & Hidea).
  split; [exact Hq|]. exists p', w'.
  split; [exact Hrun|]. split; [exact Hs|]. split; [exact Hpub | exact Hidea].
Defined.

(** Values that may be [null]: [None] is the [null]. *)
Lemma has_agrees_with_get_witness :
  let isNull := λ v : option nat, if v is Some _ then false else true in
  let c := InMemoryCache.set 0 "k" (None : option nat) InMemoryCache.noOptions ∅ in
  (InMemoryCache.has 1000 "k" c).1 = true
  ∧ InMemoryCache.gotNull isNull (InMemoryCache.get 1000 "k" c).1 = true.
Proof.
  intros isNull c.
  destruct (has_agrees_with_get isNull 1000 "k" c) as (_ & _ & _ & Hnull).
  apply (Hnull (InMemoryCache.mkEntry None 300000 [] 0));
    [reflexivity | simpl; lia | reflexivity].
Defined.

(** A miss on an empty cache at instant 0, then a second call a second
    later with another factory. *)
Lemma getOrSet_is_cache_aside_witness :
  let isNull := λ v : option nat, if v is Some _ then false else true in
  let first := InMemoryCache.getOrSet isNull 0 "k" (λ _, Some 7%nat)
                 InMemoryCache.noOptions ∅ in
  InMemoryCache.gotNull isNull
    (InMemoryCache.get 0 "k" (∅ : gmap string (InMemoryCache.CacheEntry (option nat)))).1
  = true
  ∧ first.1 = Some 7%nat
  ∧ InMemoryCache.getOrSet isNull 1000 "k" (λ _, Some 9%nat) InMemoryCache.noOptions first.2
    = (Some 7%nat, first.2).
Proof.
  intros isNull first.
  assert (Hmiss : InMemoryCache.gotNull isNull
                    (InMemoryCache.get 0 "k"
                       (∅ : gmap string (InMemoryCache.CacheEntry (option nat)))).1 = true)
    by reflexivity.
  destruct (getOrSet_is_cache_aside isNull 0 "k" (λ _, Some 7%nat)
              InMemoryCache.noOptions ∅) as [_ Hm].
  destruct (Hm Hmiss) as [Hval Hagain].
  split; [exact Hmiss|]. split; [unfold first; by rewrite Hval|].
  apply (Hagain 1000 (λ _, Some 9%nat)).
  unfold InMemoryCache.effectiveTtl, InMemoryCache.defaultTtl. simpl. lia.
Defined.

(** A ttl of 0 gives the entry the default 300 seconds. *)
Lemma set_get_lifetime_witness :
  let o := InMemoryCache.mkOptions (Some 0) None in
  InMemoryCache.ttl o = Some 0
  ∧ InMemoryCache.effectiveTtl o = 300
  ∧ (InMemoryCache.get 300000 "k" (InMemoryCache.set 0 "k" 7%nat o ∅)).1 = Some 7%nat.
Proof.
  intros o.
  destruct (set_get_lifetime 0 300000 "k" 7%nat o ∅) as (Hget & Hdefault & _).
  split; [reflexivity|]. split; [apply Hdefault; by right|].
  rewrite Hget. reflexivity.
Defined.

(** An entry that expired at instant 1000, looked at at instant 5000. *)
Lemma del_then_get_witness :
  let c := InMemoryCache.set 0 "k" 7%nat (InMemoryCache.mkOptions (Some 1) None) ∅ in
  (InMemoryCache.del "k" c).1 = true ∧ (InMemoryCache.has 5000 "k" c).1 = false.
Proof.
  intros c.
  destruct (del_then_get 5000 "k" "j" c) as (_ & _ & _ & Hexpired).
  apply (Hexpired (InMemoryCache.mkEntry 7%nat 1000 [] 0)); [reflexivity|simpl; lia].
Defined.

(** One entry tagged "x" and "constructor". *)
Lemma getStats_counts_witness :
  let c := InMemoryCache.set 0 "a" 1%nat
             (InMemoryCache.mkOptions None (Some ["x"; "constructor"])) ∅ in
  InMemoryCache.countOf (InMemoryCache.tagCounts (InMemoryCache.getStats 0 c)) "x"
  = (InMemoryCache.delByTag "x" c).1
  ∧ ∀ n, InMemoryCache.tagCounts (InMemoryCache.getStats 0 c) !! "constructor"
         ≠ Some (InMemoryCache.Count n).
Proof.
  intros c.
  destruct (getStats_counts 0 "x" c) as (_ & _ & _ & _ & _ & Htags & _).
  destruct (getStats_counts 0 "constructor" c) as (_ & _ & _ & _ & _ & _ & Hmember).
  split.
  - apply Htags.
    + intros Hin. unfold InMemoryCache.objectPrototypeMembers in Hin.
      repeat (apply elem_of_cons in Hin as [Hin|Hin]; [discriminate Hin|]).
      by apply elem_of_nil in Hin.
    + intros k e He. unfold c, InMemoryCache.set in He.
      apply lookup_insert_Some in He as [[_ <-]|[_ He]].
      * simpl. apply NoDup_cons. split; [|apply NoDup_singleton].
        intros Hin. apply list_elem_of_singleton in Hin. discriminate Hin.
      * by rewrite lookup_empty in He.
  - apply Hmember. apply list_elem_of_here.
Defined.

(** A USED idea is still USED, and still refused, after a reset. *)
Lemma resetIdea_keeps_status_witness :
  let i := sampleIdea "i1" USED high 100 in
  let w := worldOf [] [i] in
  ideas w !! "i1" = Some i
  ∧ ∃ w1 i1, BlogIdeaService.resetIdea "i1" w = (inr tt, w1)
             ∧ ideas w1 = <["i1" := i1]> (ideas w)
             ∧ BlogIdea.status i1 = USED
             ∧ ∃ m w2, BlogIdeaService.markIdeaAsUsed "i1" w1 = (inl (ValidationError m), w2).
Proof.
  intros i w.
  assert (Hi : ideas w !! "i1" = Some i) by (vm_compute; reflexivity).
  destruct (resetIdea_keeps_status "i1" w) as [_ Hok].
  destruct (Hok i Hi) as (w1 & i1 & Hrun & Hst & Hs & _ & _ & _ & _ & Hrefused).
  split; [exact Hi|]. exists w1, i1. split; [exact Hrun|]. split; [exact Hst|].
  split; [exact Hs|]. apply Hrefused. discriminate.
Defined.

(** A post created without an idea cannot be updated. *)
Lemma updatePost_needs_idea_witness :
  let q := samplePost "p1" DRAFT "" in
  let w := worldOf [q] [] in
  posts w !! "p1" = Some q
  ∧ ∃ w1, BlogPostService.updatePost "p1" UpdatePostRequest.empty w
          = (inl (NotFoundError "Post with ID 'p1' has no idea ID"), w1)
          ∧ posts w1 = posts w.
Proof.
  intros q w.
  assert (Hq : posts w !! "p1" = Some q) by (vm_compute; reflexivity).
  destruct (updatePost_needs_idea "p1" UpdatePostRequest.empty w) as (_ & Hempty & _).
  destruct (Hempty q Hq eq_refl) as (w1 & Hrun & Hp & _).
  split; [exact Hq|]. exists w1. split; [exact Hrun | exact Hp].
Defined.

(** A batch of an APPROVED post and an id that is not stored. *)
Lemma publishBatch_reports_every_id_witness :
  let w := worldOf [samplePost "p1" APPROVED "i1"] [sampleIdea "i1" PROCESSING high 100] in
  ∃ response w' d,
    PublishRoutes.publishBatch (Some ["p1"; "p2"]) w = (inr response, w')
    ∧ PublishRoutes.data response = Some d
    ∧ PublishRoutes.total (PublishRoutes.summary d) = 2
    ∧ PublishRoutes.successful (PublishRoutes.summary d)
      + PublishRoutes.failed (PublishRoutes.summary d) = 2.
Proof.
  intros w.
  destruct (publishBatch_reports_every_id (Some ["p1"; "p2"]) w)
    as (response & w' & Hrun & _ & _ & Hok).
  destruct (Hok ["p1"; "p2"] eq_refl ltac:(discriminate))
    as (d & _ & Hd & Htotal & _ & _ & Hsum & _).
  exists response, w', d. split; [exact Hrun|]. split; [exact Hd|].
  split; [exact Htotal|]. rewrite Hsum. exact Htotal.
Defined.

(** From an empty cache, the cache stays tagged through createIdea and
    a getIdeaById. *)
Lemma ideaKeysTagged_is_invariant_witness :
  let req := CreateIdeaRequest.mk UNUSED "Topic" "Persona" "Goal" None high None None None in
  let w1 := (BlogIdeaService.createIdea req (worldOf [] [])).2 in
  cache (worldOf [] []) = ∅
  ∧ ideaKeysTagged (BlogIdeaService.getIdeaById "uuid-0" w1).2.
Proof.
  intros req w1.
  destruct ideaKeysTagged_is_invariant
    as (Hempty & Hcreate & _ & _ & _ & _ & _ & _ & _ & Hget & _).
  split; [reflexivity|].
  apply Hget, Hcreate, Hempty. reflexivity.
Defined.

(** *** The amended claims on sample worlds *)



(** C2 (the code departs from the claim).  An APPROVED post whose idea
    is stored, at clock 1000.  The PUT route, updatePost with
    [{ status: 'PUBLISHED' }], makes it PUBLISHED and stores no
    [publishedAt]; a status request for PUBLISHED at clock 5000 then
    finds it PUBLISHED and stamps nothing either.  Published through
    updatePostStatus instead, it carries [publishedAt] 1000; the update
    the webhook makes at clock 5000 for the status PUBLISHED then
    replaces that by 5000. *)
Theorem publishedAt_not_set_once :
  let w := worldOf [samplePost "p1" APPROVED "i1"] [sampleIdea "i1" PROCESSING high 100] in
  let body := UpdatePostRequest.mk (Some PUBLISHED) None None None None None None None None
                None None None None None in
  let put := BlogPostService.updatePost "p1" body w in
  let later := BlogPostService.updatePostStatus "p1" (statusRequest PUBLISHED)
                 (atTime 5000 put.2) in
  let proper := BlogPostService.updatePostStatus "p1" (statusRequest PUBLISHED) w in
  let hook := BlogPostService.updatePost "p1"
                (PublishRoutes.webhookUpdateData (Some PUBLISHED) None None 5000)
                (atTime 5000 proper.2) in
  let seen := λ (run : (Error + BlogPost.t) * World),
    (λ p, (BlogPost.status p, BlogPost.publishedAt p)) <$> posts run.2 !! "p1" in
  (∃ p, put.1 = inr p ∧ BlogPost.status p = PUBLISHED ∧ BlogPost.publishedAt p = None)
  ∧ seen put = Some (PUBLISHED, None)
  ∧ (∃ p, later.1 = inr p ∧ BlogPost.status p = PUBLISHED ∧ BlogPost.publishedAt p = None)
  ∧ seen later = Some (PUBLISHED, None)
  ∧ (∃ p, proper.1 = inr p ∧ BlogPost.publishedAt p = Some 1000)
  ∧ seen proper = Some (PUBLISHED, Some 1000)
  ∧ (∃ p, hook.1 = inr p ∧ BlogPost.status p = PUBLISHED
          ∧ BlogPost.publishedAt p = Some 5000)
  ∧ seen hook = Some (PUBLISHED, Some 5000).
Proof.
  cbv zeta.
  split; [eexists; split; [vm_compute; reflexivity|split; reflexivity]|].
  split; [vm_compute; reflexivity|].
  split; [eexists; split; [vm_compute; reflexivity|split; reflexivity]|].
  split; [vm_compute; reflexivity|].
  split; [eexists; split; [vm_compute; reflexivity|reflexivity]|].
  split; [vm_compute; reflexivity|].
  split; [eexists; split; [vm_compute; reflexivity|split; reflexivity]|].
  vm_compute; reflexivity.
Qed.

(** Two UNUSED ideas of the same priority: the comparator leaves them
    in the order of the query, and pickNextIdea takes the newer one. *)
Lemma pickNextIdea_tie_takes_newest :
  let older := sampleIdea "i1" UNUSED high 100 in
  let newer := sampleIdea "i2" UNUSED high 200 in
  (BlogIdeaService.pickNextIdea (worldOf [] [older; newer])).1 = inr (Some newer)
  ∧ (BlogIdeaService.pickNextIdea (worldOf [] [newer; older])).1 = inr (Some newer).
Proof. vm_compute. split; reflexivity. Qed.

End MoreSamples.
